(** * riana.peptides: Percolator PSM filtering and match across runs

    A shallow embedding of [src/riana/peptides.py] (class [ReadPercolator]).

    Data frames are lists of typed rows.  Floating-point cells (q-values,
    masses, medians, predicted scans) are carried as exact rationals [Q]:
    every finite double is a rational, the code compares them, takes the
    mean of two of them and truncates them; the one product it forms (the
    quorum of line 140) is rounded to a double as the machine does; NaN
    cells are written [None] where the code creates them (left joins) and
    are otherwise excluded by the row type. The two external libraries the
    code calls are parameters of the development: pandas' [sort_values]
    (whose default algorithm, quicksort, is not a stable sort) and
    scikit-learn's bagging regressor ([fit] / [predict]). Reading one
    sample's Percolator file is a parameter of the loader in the same
    way. *)

From Stdlib Require Import ZArith QArith Qround Qabs Qpower List String Ascii.
From Stdlib Require Import Bool.
From Stdlib Require Import Lia Lqa Permutation Sorted Arith DecimalString.
From Stdlib Require Import DecimalPos.
Import ListNotations.

Local Open Scope string_scope.
Local Open Scope list_scope.
Local Open Scope Z_scope.

(* ================================================================== *)
(** ** Exceptions and the error monad *)

Inductive error : Type :=
| Exception_                  (* bare [raise Exception] *)
| AssertionError
| KeyError (what : string)    (* missing column, or label 0 in an empty frame *)
| IndexError (what : string)  (* [split('_')[1]] on a key without delimiter *)
| ValueError (what : string)  (* [int(...)] on a non-number, regressor faults *)
| AttributeError (what : string). (* a column read as attribute of a frame
                                     that has no such column *)

Inductive result (A : Type) : Type :=
| Ok (a : A)
| Err (e : error).
Arguments Ok {A} a.
Arguments Err {A} e.

Definition bind {A B} (m : result A) (k : A -> result B) : result B :=
  match m with
  | Ok a => k a
  | Err e => Err e
  end.

Notation "x <- m ;; k" := (bind m (fun x => k))
  (at level 61, m at next level, right associativity).

Definition assert_ (b : bool) : result unit :=
  if b then Ok tt else Err AssertionError.

Definition of_option {A} (e : error) (o : option A) : result A :=
  match o with
  | Some a => Ok a
  | None => Err e
  end.

Fixpoint mapM {A B} (f : A -> result B) (l : list A) : result (list B) :=
  match l with
  | [] => Ok []
  | x :: t => y <- f x ;; ys <- mapM f t ;; Ok (y :: ys)
  end.

(* ================================================================== *)
(** ** Numbers *)

(** [a < b] on finite floats. *)
Definition Qltb (a b : Q) : bool := negb (Qle_bool b a).

Definition INT64_MIN : Z := - 2 ^ 63.
Definition INT64_MAX : Z := 2 ^ 63 - 1.

(** [astype(np.int)] on a float column: the cast of a double to int64,
    which truncates toward zero; when the truncated value is out of the
    int64 range the conversion of x86-64 gives INT64_MIN. *)
Definition astype_int (q : Q) : Z :=
  let t := Z.quot (Qnum q) (Z.pos (Qden q)) in
  if (INT64_MIN <=? t) && (t <=? INT64_MAX) then t else INT64_MIN.

(** Whether a float holds an integral value that the int64 cast keeps. *)
Definition is_integral (q : Q) : bool := Qeq_bool q (inject_Z (astype_int q)).

(** [np.round]: to the nearest integer, halves to the even neighbour. *)
Definition round_half_even (q : Q) : Z :=
  let f := Qfloor q in
  let d := (q - inject_Z f)%Q in
  if Qltb d (1 # 2) then f
  else if Qltb (1 # 2) d then f + 1
  else if Z.even f then f else f + 1.

(** *** IEEE binary64 arithmetic *)

(** The binade of a positive rational: [floor (log2 x)]. *)
Definition ilog2 (x : Q) : Z :=
  let e := Z.log2 (Qnum x) - Z.log2 (Z.pos (Qden x)) in
  if Qle_bool (2 ^ e) x then e else e - 1.

(** The double nearest to a non-negative rational, halves to the even
    significand: doubles have 53 significant bits, so in the binade
    [2 ^ e] they are [2 ^ (e - 52)] apart, and [2 ^ -1074] apart in the
    subnormal range. *)
Definition round_pos (x : Q) : Q :=
  let u := (2 ^ Z.max (ilog2 x - 52) (-1074))%Q in
  (inject_Z (round_half_even (x / u)) * u)%Q.

(** Rounding to nearest, ties to even, of a rational within the range of
    the doubles. *)
Definition round_to_double (x : Q) : Q :=
  if Qle_bool 0 x then round_pos x else (- round_pos (- x))%Q.

(** The magnitudes from which rounding overflows to infinity: half a
    spacing above the largest double. *)
Definition DBL_OVERFLOW : Q := inject_Z (2 ^ 1024 - 2 ^ 970).

Section Insertion.
Context {A : Type} (leb : A -> A -> bool).

Fixpoint insert (x : A) (l : list A) : list A :=
  match l with
  | [] => [x]
  | y :: t => if leb x y then x :: l else y :: insert x t
  end.

Fixpoint isort (l : list A) : list A :=
  match l with
  | [] => []
  | x :: t => insert x (isort t)
  end.
End Insertion.

(** Series.median(): the middle value of the sorted non-missing values, or
    the mean of the two middle ones; NaN ([None]) when there is none. *)
Definition median (l : list Q) : option Q :=
  let s := isort Qle_bool l in
  let n := List.length s in
  match n with
  | O => None
  | _ =>
    if Nat.even n
    then Some (Qred ((nth (n / 2 - 1) s 0%Q + nth (n / 2) s 0%Q) / 2))
    else Some (Qred (nth (n / 2) s 0%Q))
  end.

(* ================================================================== *)
(** ** Strings *)

(** [str.count(c)] for a one-character pattern. *)
Fixpoint str_count (c : ascii) (s : string) : nat :=
  match s with
  | EmptyString => O
  | String a t => if Ascii.eqb a c then S (str_count c t) else str_count c t
  end.

(** [str.split(c)]: the fields between the delimiters. *)
Fixpoint split_on (c : ascii) (s : string) : list string :=
  match s with
  | EmptyString => [EmptyString]
  | String a t =>
    if Ascii.eqb a c then EmptyString :: split_on c t
    else match split_on c t with
         | [] => [String a EmptyString]
         | f :: fs => String a f :: fs
         end
  end.

Definition digit_of (a : ascii) : option Z :=
  let n := Z.of_nat (nat_of_ascii a) in
  if (48 <=? n) && (n <=? 57) then Some (n - 48) else None.

Fixpoint digits_value (acc : Z) (s : string) : option Z :=
  match s with
  | EmptyString => Some acc
  | String a t =>
    match digit_of a with
    | Some d => digits_value (10 * acc + d) t
    | None => None
    end
  end.

(** [int(s)] on the decimal literals [str(charge)] produces: an optional
    sign followed by at least one digit. *)
Definition int_of_str (s : string) : option Z :=
  match s with
  | EmptyString => None
  | String "-" (String a t) => option_map Z.opp (digits_value 0 (String a t))
  | String "+" (String a t) => digits_value 0 (String a t)
  | _ => digits_value 0 s
  end.

(** [list(set(xs))] up to the iteration order, which Python leaves
    unspecified: first occurrences, in order. *)
Fixpoint list_set (l : list string) : list string :=
  match l with
  | [] => []
  | x :: t => x :: filter (fun y => negb (String.eqb y x)) (list_set t)
  end.

Definition mem_str (x : string) (l : list string) : bool :=
  existsb (String.eqb x) l.

(** [Series.nunique()]. *)
Definition nunique (l : list string) : nat :=
  List.length (nodup string_dec l).

(* ================================================================== *)
(** ** Rows and frames *)

Inductive PepId : Type :=
| NoPepId                 (* column not assigned yet *)
| PepIndex (i : nat)      (* [pep_id = index] of the fraction frame *)
| Matched (i : nat).      (* ['matched_' + str(i)] *)

Inductive Evidence : Type :=
| NoEvidence
| q_value_ev              (* 'q_value' *)
| soft                    (* 'soft' *)
| match_across_runs_ev.   (* 'match_across_runs' *)

(** One PSM row.  The Percolator columns that no operation reads
    (score, PEP, neutral mass, distinct matches, flanking aa) are left out. *)
Record Row : Type := mkRow {
  file_idx : Z;
  scan : Z;
  charge : Z;
  precursor_mz : Q;        (* 'spectrum precursor m/z' *)
  peptide_mass : Q;        (* 'peptide mass' *)
  q_value : Q;             (* 'percolator q-value' *)
  protein_id : string;     (* 'protein id' *)
  sequence : string;
  sample : string;
  concat : string;         (* sequence + '_' + str(charge) *)
  pep_id : PepId;
  evidence : Evidence
}.

Definition set_pep_id (p : PepId) (r : Row) : Row :=
  mkRow (file_idx r) (scan r) (charge r) (precursor_mz r) (peptide_mass r)
        (q_value r) (protein_id r) (sequence r) (sample r) (concat r)
        p (evidence r).

Definition set_evidence (e : Evidence) (r : Row) : Row :=
  mkRow (file_idx r) (scan r) (charge r) (precursor_mz r) (peptide_mass r)
        (q_value r) (protein_id r) (sequence r) (sample r) (concat r)
        (pep_id r) e.

(** A frame as [filter_df_by_args] sees it: the column labels it carries
    and its rows.  A cell of a column the frame does not carry is never
    read. *)
Record DataFrame : Type := mkDF {
  columns : list string;
  rows : list Row
}.

Definition has_column (c : string) (df : DataFrame) : bool :=
  mem_str c (columns df).

Definition with_rows (df : DataFrame) (rs : list Row) : DataFrame :=
  mkDF (columns df) rs.

(** The columns of a frame read from a Percolator file by
    [read_all_project_psms]. *)
Definition percolator_columns : list string :=
  ["file_idx"; "scan"; "charge"; "spectrum precursor m/z"; "peptide mass";
   "percolator q-value"; "protein id"; "sequence"; "sample"; "concat"].

Definition loaded (rs : list Row) : DataFrame := mkDF percolator_columns rs.

(* ================================================================== *)
(** ** filter_df_by_args *)

Definition below_q (peptide_q : Q) (x : Row) : bool :=
  Qltb (q_value x) peptide_q.

Definition one_protein (x : Row) : bool :=
  Nat.eqb (str_count "," (protein_id x)) 0.

Definition filter_df_by_args (df : DataFrame) (peptide_q : Q)
    (unique_only : bool) : result DataFrame :=
  let df1 :=
    if has_column "percolator q-value" df
    then with_rows df (filter (below_q peptide_q) (rows df))
    else df (* except KeyError: pass *) in
  if unique_only then
    if has_column "protein id" df1
    then Ok (with_rows df1 (filter one_protein (rows df1)))
    else Err (KeyError "protein id")
  else Ok df1.

(** The filter on a frame that carries the Percolator columns. *)
Definition keep (peptide_q : Q) (unique_only : bool) (x : Row) : bool :=
  below_q peptide_q x && (negb unique_only || one_protein x).

(* ================================================================== *)
(** ** The reader's state *)

(** A row of [match_across_runs_master] after the group-by. *)
Record MasterRow : Type := mkMaster {
  m_concat : string;
  num_samples : nat;       (* 'sample' : 'nunique', renamed *)
  m_file_idx : Q;          (* 'file_idx' : 'median' *)
  m_precursor_mz : Q;      (* 'spectrum precursor m/z' : 'median' *)
  m_peptide_mass : Q       (* 'peptide mass' : 'median' *)
}.

Definition set_m_file_idx (f : Q) (m : MasterRow) : MasterRow :=
  mkMaster (m_concat m) (num_samples m) f (m_precursor_mz m) (m_peptide_mass m).

Record State : Type := mkState {
  samples : list string;                 (* project.samples *)
  master_id_df : list Row;
  curr_sample_id_df : list Row;
  curr_frac_id_df : list Row;
  curr_frac_filtered_id_df : list Row;
  match_across_runs_master : list MasterRow;
  master_built : bool   (* whether [match_across_runs_master] has its
                           columns: not the [pd.DataFrame()] of line 50,
                           yes once line 139 has assigned the table *)
}.

Definition set_master (st : State) (m : list MasterRow) : State :=
  mkState (samples st) (master_id_df st) (curr_sample_id_df st)
          (curr_frac_id_df st) (curr_frac_filtered_id_df st) m true.

Definition set_curr_sample (st : State) (rs : list Row) : State :=
  mkState (samples st) (master_id_df st) rs
          (curr_frac_id_df st) (curr_frac_filtered_id_df st)
          (match_across_runs_master st) (master_built st).

Definition set_curr_frac (st : State) (rs : list Row) : State :=
  mkState (samples st) (master_id_df st) (curr_sample_id_df st)
          rs (curr_frac_filtered_id_df st) (match_across_runs_master st)
          (master_built st).

Definition set_curr_frac_filtered (st : State) (rs : list Row) : State :=
  mkState (samples st) (master_id_df st) (curr_sample_id_df st)
          (curr_frac_id_df st) rs (match_across_runs_master st)
          (master_built st).

(* ================================================================== *)
(** ** Frame operations *)

Definition has_key (k : string) (x : Row) : bool := String.eqb (concat x) k.

(** [drop_duplicates(subset=['concat'])]: the first row of each key stays. *)
Fixpoint drop_duplicates_from (seen : list string) (l : list Row) : list Row :=
  match l with
  | [] => []
  | x :: t =>
    if mem_str (concat x) seen then drop_duplicates_from seen t
    else x :: drop_duplicates_from (concat x :: seen) t
  end.

Definition drop_duplicates (l : list Row) : list Row :=
  drop_duplicates_from [] l.

(** [reset_index(drop=True)] followed by [assign(pep_id=index)]. *)
Fixpoint assign_pep_id (i : nat) (l : list Row) : list Row :=
  match l with
  | [] => []
  | x :: t => set_pep_id (PepIndex i) x :: assign_pep_id (S i) t
  end.

(** The group keys of [groupby(['concat'])], which sorts them. *)
Definition group_keys (rs : list Row) : list string :=
  isort String.leb (nodup string_dec (map concat rs)).

(** One output row of [groupby(...).agg(...)]. *)
Definition agg_group (rs : list Row) (k : string) : list MasterRow :=
  let g := filter (has_key k) rs in
  match median (map (fun x => inject_Z (file_idx x)) g),
        median (map precursor_mz g),
        median (map peptide_mass g) with
  | Some f, Some mz, Some pm => [mkMaster k (nunique (map sample g)) f mz pm]
  | _, _, _ => []  (* a group without rows: the group-by forms none *)
  end.

Definition groupby_agg (rs : list Row) : list MasterRow :=
  flat_map (agg_group rs) (group_keys rs).

(** [pd.to_numeric(col, downcast='integer')]: the column becomes an integer
    column when every value is integral, and is left as it is otherwise. *)
Definition to_numeric_downcast (col : list Q) : list Q :=
  if forallb is_integral col
  then map (fun q => inject_Z (astype_int q)) col
  else col.

Definition downcast_file_idx (tbl : list MasterRow) : list MasterRow :=
  map (fun p => set_m_file_idx (snd p) (fst p))
      (combine tbl (to_numeric_downcast (map m_file_idx tbl))).

(** [num_samples.astype(float) >= len(self.samples) * min_fraction]: the
    length is converted to a double and multiplied by the double
    [min_fraction]; the product is rounded to a double, or overflows to an
    infinity, before it is compared. *)
Definition quorum (n_samples : nat) (min_fraction : Q) (m : MasterRow) : bool :=
  let product :=
    (round_to_double (inject_Z (Z.of_nat n_samples)) * min_fraction)%Q in
  if Qle_bool DBL_OVERFLOW product then false
  else if Qle_bool product (- DBL_OVERFLOW) then true
  else Qle_bool (round_to_double product)
                (round_to_double (inject_Z (Z.of_nat (num_samples m)))).

(* ================================================================== *)
(** ** make_master_match_list, get_current_sample_psms *)

Definition make_master_match_list (st : State) (peptide_q : Q)
    (unique_only : bool) (min_fraction : Q) : result State :=
  match master_id_df st with
  | [] => Err Exception_
  | _ =>
    df <- filter_df_by_args (loaded (master_id_df st)) peptide_q unique_only ;;
    let tbl := groupby_agg (rows df) in
    let tbl := downcast_file_idx tbl in
    let tbl := filter (quorum (List.length (samples st)) min_fraction) tbl in
    Ok (set_master st tbl)
  end.

Definition get_current_sample_psms (st : State) (current_sample : string)
    : result State :=
  _ <- assert_ (mem_str current_sample (map sample (master_id_df st))) ;;
  Ok (set_curr_sample st
        (filter (fun x => String.eqb (sample x) current_sample)
                (master_id_df st))).

(* ================================================================== *)
(** ** The per-fraction operations, over the library calls *)

Section Fraction.

(** [DataFrame.sort_values(by=col)], called with its default
    [kind='quicksort']; the column is passed as the key. *)
Variable sort_values : forall A : Type, (A -> Q) -> list A -> list A.

(** [BaggingRegressor(DecisionTreeRegressor(max_depth=5), n_estimators=25,
    random_state=RandomState(1))]: [fit X y] and [predict], either of
    which may raise ([None]). *)
Variable model : Type.
Variable fit : list Q -> list Q -> option model.
Variable predict : model -> list Q -> option (list Q).

(** [params.soft_threshold_q] *)
Variable soft_threshold_q : Q.

Definition by_q_value (x : Row) : Q := q_value x.
Definition by_scan (x : Row) : Q := inject_Z (scan x).

(** The rows of the sample that belong to fraction [idx]. *)
Definition fraction_rows (st : State) (idx : Z) : list Row :=
  filter (fun x => file_idx x =? idx) (curr_sample_id_df st).

Definition get_current_fraction_psms (st : State) (idx : Z) : result State :=
  _ <- assert_ (existsb (Z.eqb idx) (map file_idx (curr_sample_id_df st))) ;;
  let frac := fraction_rows st idx in
  let frac := drop_duplicates (sort_values Row by_q_value frac) in
  let frac := sort_values Row by_scan frac in
  Ok (set_curr_frac st (assign_pep_id 0 frac)).

(** The fraction frame the resolver builds. *)
Definition resolved (st : State) (idx : Z) : list Row :=
  assign_pep_id 0
    (sort_values Row by_scan
       (drop_duplicates
          (sort_values Row by_q_value (fraction_rows st idx)))).

(** Lines 220-226: the strict filter, labelled 'q_value'. *)
Definition strict_rows (st : State) (peptide_q : Q) (unique_only : bool)
    : result (list Row) :=
  df <- filter_df_by_args (loaded (curr_frac_id_df st)) peptide_q unique_only ;;
  Ok (map (set_evidence q_value_ev) (rows df)).

(** The rows of the master table at fraction index [idx]. *)
Definition candidates_at (st : State) (idx : Z) : list MasterRow :=
  filter (fun m => Qeq_bool (m_file_idx m) (inject_Z idx))
         (match_across_runs_master st).

(** Lines 238-239: the master rows of the current fraction index.  The
    column is read as an attribute, [self.match_across_runs_master.file_idx],
    which the frame of line 50 does not have. *)
Definition match_candidates (st : State) (idx : Z)
    : result (list MasterRow) :=
  if master_built st then Ok (candidates_at st idx)
  else Err (AttributeError "file_idx").

(** [left.merge(right[['concat']], on='concat', how='inner')] *)
Definition merge_inner (left : list Row) (right : list MasterRow) : list Row :=
  flat_map
    (fun x => map (fun _ => x)
                  (filter (fun m => String.eqb (m_concat m) (concat x)) right))
    left.

(** Lines 248-262: the soft-threshold rows, labelled 'soft'. *)
Definition soft_rows (st : State) (peptide_q : Q) (cands : list MasterRow)
    : list Row :=
  let df := filter (fun x => Qle_bool peptide_q (q_value x))
                   (curr_frac_id_df st) in
  let df := filter (fun x => Qltb (q_value x) soft_threshold_q) df in
  map (set_evidence soft) (merge_inner df cands).

(** Lines 270-271 *)
Definition mar_candidates (cands : list MasterRow) (filtered : list Row)
    : list string :=
  filter (fun p => negb (mem_str p (map concat filtered)))
         (map m_concat cands).

(** Lines 289-296: the confident rows of a peer sample in this fraction. *)
Definition other_sample_df (st : State) (peptide_q : Q) (unique_only : bool)
    (idx : Z) (each_sample : string) : result (list Row) :=
  let df := filter (fun x => String.eqb (sample x) each_sample
                             && (file_idx x =? idx))
                   (master_id_df st) in
  let df := drop_duplicates (sort_values Row by_q_value df) in
  df <- filter_df_by_args (loaded df) peptide_q unique_only ;;
  Ok (rows df).

(** Lines 298-302: [(scan_x, scan_y)] of the keys both frames hold. *)
Definition compare_df (other filtered : list Row) : list (Z * Z) :=
  sort_values (Z * Z)%type (fun p => inject_Z (fst p))
    (flat_map
       (fun o => map (fun f => (scan o, scan f))
                     (filter (has_key (concat o)) filtered))
       other).

(** Line 348: the predictions replace the scans that are not NaN.  When
    no candidate is missing the scan column of the left join is an integer
    column, and storing a float into it truncates. *)
Fixpoint fill_predictions (int_column : bool) (scan_list : list (option Z))
    (preds : list Q) : list (option Q) :=
  match scan_list with
  | [] => []
  | None :: t => None :: fill_predictions int_column t preds
  | Some s :: t =>
    match preds with
    | [] => Some (inject_Z s) :: fill_predictions int_column t []
    | p :: ps =>
      Some (if int_column then inject_Z (astype_int p) else p)
        :: fill_predictions int_column t ps
    end
  end.

Definition known_scans (scan_list : list (option Z)) : list Q :=
  flat_map (fun c => match c with
                     | Some s => [inject_Z s]
                     | None => []
                     end) scan_list.

(** Lines 289-349: one iteration of the peer loop; the column of
    [pred_df] for [each_sample]. *)
Definition peer_column (st : State) (peptide_q : Q) (unique_only : bool)
    (idx : Z) (filtered : list Row) (cands : list string)
    (each_sample : string) : result (list (option Q)) :=
  other <- other_sample_df st peptide_q unique_only idx each_sample ;;
  let cmp := compare_df other filtered in
  let X := map (fun p => inject_Z (fst p)) cmp in
  let y := map (fun p => inject_Z (snd p)) cmp in
  regr <- of_option (ValueError "fit") (fit X y) ;;
  y_hat <- of_option (ValueError "predict") (predict regr X) ;;
  _ <- (if Nat.eqb (List.length y_hat) (List.length y) then Ok tt
        else Err (ValueError "r2_score")) ;;
  (* the left join is a look-up: [other] has one row per key *)
  let scan_list :=
    map (fun k => option_map scan (find (has_key k) other)) cands in
  let known := known_scans scan_list in
  preds <- of_option (ValueError "predict") (predict regr known) ;;
  _ <- (if Nat.eqb (List.length preds) (List.length known) then Ok tt
        else Err (ValueError "shape mismatch")) ;;
  Ok (fill_predictions (forallb (fun c => match c with
                                          | Some _ => true
                                          | None => false
                                          end) scan_list)
                       scan_list preds).

(** Row [i] of [pred_df]: the cell of every peer column. *)
Definition pred_row (cols : list (list (option Q))) (i : nat)
    : list (option Q) :=
  map (fun col => nth i col None) cols.

Fixpoint index_from {A} (i : nat) (l : list A) : list (nat * A) :=
  match l with
  | [] => []
  | x :: t => (i, x) :: index_from (S i) t
  end.

Definition pred_df (cands : list string) (cols : list (list (option Q)))
    : list (string * list (option Q)) :=
  map (fun p => (snd p, pred_row cols (fst p))) (index_from 0 cands).

Definition not_nan (cells : list (option Q)) : list Q :=
  flat_map (fun c => match c with
                     | Some q => [q]
                     | None => []
                     end) cells.

(** [dropna(axis=0, how='all')] *)
Definition dropna_all (df : list (string * list (option Q)))
    : list (string * list (option Q)) :=
  filter (fun p => negb (Nat.eqb (List.length (not_nan (snd p))) 0)) df.

(** Lines 356 and 376: the median of the row, converted with
    [astype(np.int)]. *)
Definition mar_scan (cells : list (option Q)) : result Z :=
  m <- of_option (ValueError "NaN to integer") (median (not_nan cells)) ;;
  Ok (astype_int m).

(** Lines 354-373: one synthesized row.  The look-up of the masses cannot
    miss (the keys are keys of [cands]) and the median of a row kept by
    [dropna] is a number, so the first fault, if any, is that of the first
    key whose charge does not parse, as in the source. *)
Definition mar_row (first : Row) (cands : list MasterRow)
    (p : nat * (string * list (option Q))) : result Row :=
  let i := fst p in
  let b := fst (snd p) in
  let parts := split_on "_" b in
  s <- mar_scan (snd (snd p)) ;;
  z <- of_option (IndexError "split('_')[1]") (nth_error parts 1) ;;
  c <- of_option (ValueError "int") (int_of_str z) ;;
  m <- of_option (KeyError b)
         (find (fun m => String.eqb (m_concat m) b) cands) ;;
  Ok (mkRow (file_idx first) s c (m_precursor_mz m) (m_peptide_mass m)
            0%Q "NA" (nth 0 parts "") (sample first) b
            (Matched i) match_across_runs_ev).

(** Lines 266-379. *)
Definition match_across_runs_rows (st : State) (peptide_q : Q)
    (unique_only : bool) (idx : Z) (cands : list MasterRow)
    (filtered : list Row) : result (list Row) :=
  let keys := mar_candidates cands filtered in
  let sample_names := list_set (map sample (master_id_df st)) in
  first <- of_option (KeyError "sample[0]") (hd_error filtered) ;;
  let current_sample := sample first in
  cols <- mapM (peer_column st peptide_q unique_only idx filtered keys)
               (filter (fun s => negb (String.eqb s current_sample))
                       sample_names) ;;
  let preds := dropna_all (pred_df keys cols) in
  mapM (mar_row first cands) (index_from 0 preds).

Definition filter_current_fraction_psms (st : State) (peptide_q : Q)
    (unique_only use_soft_threshold match_across_runs : bool)
    : result State :=
  strict <- strict_rows st peptide_q unique_only ;;
  first <- of_option (KeyError "file_idx[0]") (hd_error (curr_frac_id_df st)) ;;
  let idx := file_idx first in
  _ <- assert_ (existsb (Z.eqb idx) (map file_idx (curr_sample_id_df st))) ;;
  cands <- match_candidates st idx ;;
  let filtered :=
    if use_soft_threshold
    then strict ++ soft_rows st peptide_q cands
    else strict in
  if match_across_runs then
    mar <- match_across_runs_rows st peptide_q unique_only idx cands
                                  filtered ;;
    Ok (set_curr_frac_filtered st (filtered ++ mar))
  else Ok (set_curr_frac_filtered st filtered).

End Fraction.

(* ================================================================== *)
(** ** Instances of the library calls *)

(** A stable sort: rows with equal keys keep their order. *)
Definition stable_sort_values (A : Type) (key : A -> Q) (l : list A) : list A :=
  isort (fun a b => Qle_bool (key a) (key b)) l.

(** NumPy's [argsort(kind='quicksort')], the sort behind pandas' default
    [sort_values] (npysort: [aquicksort], [aheapsort]): an introsort that
    partitions around the median of three while a segment has more than 16
    elements ([pr - pl > SMALL_QUICKSORT]), sorts short segments by
    insertion, and falls
    back to heapsort at the depth limit.  [tosort] holds indices into the
    value array [v]; positions are integers because [pr] may pass below
    [pl]. *)
Module NumpySort.
Section Argsort.
Variable v : list Q.

Definition SMALL_QUICKSORT : Z := 15.

Definition elt (tosort : list nat) (p : Z) : nat := nth (Z.to_nat p) tosort 0%nat.
Definition val_at (i : nat) : Q := nth i v 0%Q.
Definition val (tosort : list nat) (p : Z) : Q := val_at (elt tosort p).

Definition store (tosort : list nat) (p : Z) (x : nat) : list nat :=
  firstn (Z.to_nat p) tosort ++ x :: skipn (S (Z.to_nat p)) tosort.

Definition INTP_SWAP (tosort : list nat) (p q : Z) : list nat :=
  store (store tosort p (elt tosort q)) q (elt tosort p).

(** [do ++pi; while (LT(v[*pi], vp));] *)
Fixpoint scan_right (fuel : nat) (tosort : list nat) (vp : Q) (pi : Z) : Z :=
  match fuel with
  | O => pi
  | S f =>
    let pi := pi + 1 in
    if Qltb (val tosort pi) vp then scan_right f tosort vp pi else pi
  end.

(** [do --pj; while (LT(vp, v[*pj]));] *)
Fixpoint scan_left (fuel : nat) (tosort : list nat) (vp : Q) (pj : Z) : Z :=
  match fuel with
  | O => pj
  | S f =>
    let pj := pj - 1 in
    if Qltb vp (val tosort pj) then scan_left f tosort vp pj else pj
  end.

Fixpoint exchange (fuel : nat) (tosort : list nat) (vp : Q) (pi pj : Z)
    : list nat * Z :=
  match fuel with
  | O => (tosort, pi)
  | S f =>
    let pi := scan_right (List.length tosort) tosort vp pi in
    let pj := scan_left (List.length tosort) tosort vp pj in
    if pi >=? pj then (tosort, pi)
    else exchange f (INTP_SWAP tosort pi pj) vp pi pj
  end.

(** The partition step of the segment [pl .. pr]; returns the pivot's
    final position. *)
Definition partition (tosort : list nat) (pl pr : Z) : list nat * Z :=
  let pm := pl + Z.shiftr (pr - pl) 1 in
  let tosort := if Qltb (val tosort pm) (val tosort pl)
                then INTP_SWAP tosort pm pl else tosort in
  let tosort := if Qltb (val tosort pr) (val tosort pm)
                then INTP_SWAP tosort pr pm else tosort in
  let tosort := if Qltb (val tosort pm) (val tosort pl)
                then INTP_SWAP tosort pm pl else tosort in
  let vp := val tosort pm in
  let pj := pr - 1 in
  let tosort := INTP_SWAP tosort pm pj in
  let '(tosort, pi) := exchange (List.length tosort) tosort vp pl pj in
  (INTP_SWAP tosort pi (pr - 1), pi).

(** [while (pj > pl && LT(vp, v[*pk])) *pj-- = *pk--;] *)
Fixpoint shift (fuel : nat) (tosort : list nat) (vp : Q) (pl pj : Z)
    : list nat * Z :=
  match fuel with
  | O => (tosort, pj)
  | S f =>
    if (pj >? pl) && Qltb vp (val tosort (pj - 1))
    then shift f (store tosort pj (elt tosort (pj - 1))) vp pl (pj - 1)
    else (tosort, pj)
  end.

Fixpoint insertion (fuel : nat) (tosort : list nat) (pl pr pi : Z) : list nat :=
  match fuel with
  | O => tosort
  | S f =>
    if pi <=? pr then
      let vi := elt tosort pi in
      let '(tosort, pj) :=
        shift (List.length tosort) tosort (val_at vi) pl pi in
      insertion f (store tosort pj vi) pl pr (pi + 1)
    else tosort
  end.

(** Heapsort of the [n] elements from position [pl]; [a = tosort - 1]. *)
Fixpoint sift (fuel : nat) (tosort : list nat) (pl : Z) (tmp : nat)
    (i j n : Z) : list nat :=
  match fuel with
  | O => store tosort (pl - 1 + i) tmp
  | S f =>
    if j <=? n then
      let j := if (j <? n) && Qltb (val tosort (pl - 1 + j))
                                   (val tosort (pl - 1 + j + 1))
               then j + 1 else j in
      if Qltb (val_at tmp) (val tosort (pl - 1 + j))
      then sift f (store tosort (pl - 1 + i) (elt tosort (pl - 1 + j)))
                pl tmp j (j + j) n
      else store tosort (pl - 1 + i) tmp
    else store tosort (pl - 1 + i) tmp
  end.

Fixpoint heapify (fuel : nat) (tosort : list nat) (pl l n : Z) : list nat :=
  match fuel with
  | O => tosort
  | S f =>
    if l >? 0 then
      heapify f (sift (List.length tosort) tosort pl
                      (elt tosort (pl - 1 + l)) l (Z.shiftl l 1) n)
              pl (l - 1) n
    else tosort
  end.

Fixpoint extract (fuel : nat) (tosort : list nat) (pl n : Z) : list nat :=
  match fuel with
  | O => tosort
  | S f =>
    if n >? 1 then
      let tmp := elt tosort (pl - 1 + n) in
      let tosort := store tosort (pl - 1 + n) (elt tosort pl) in
      let n := n - 1 in
      extract f (sift (List.length tosort) tosort pl tmp 1 2 n) pl n
    else tosort
  end.

Definition aheapsort (tosort : list nat) (pl n : Z) : list nat :=
  let fuel := List.length tosort in
  extract fuel (heapify fuel tosort pl (Z.shiftr n 1) n) pl n.

(** The main loop.  [check] tells whether control is at the head of the
    outer loop, where the depth limit is tested; [stack] holds the
    postponed segments with their depths. *)
Fixpoint aquicksort_loop (fuel : nat) (check : bool) (tosort : list nat)
    (pl pr cdepth : Z) (stack : list (Z * Z * Z)) : list nat :=
  match fuel with
  | O => tosort
  | S f =>
    let pop tosort :=
      match stack with
      | [] => tosort
      | (pl', pr', d) :: s => aquicksort_loop f true tosort pl' pr' d s
      end in
    if check && (cdepth <? 0) then pop (aheapsort tosort pl (pr - pl + 1))
    else if pr - pl >? SMALL_QUICKSORT then
      let '(tosort, pi) := partition tosort pl pr in
      if pi - pl <? pr - pi
      then aquicksort_loop f false tosort pl (pi - 1) (cdepth - 1)
                           ((pi + 1, pr, cdepth - 1) :: stack)
      else aquicksort_loop f false tosort (pi + 1) pr (cdepth - 1)
                           ((pl, pi - 1, cdepth - 1) :: stack)
    else
      pop (insertion (List.length tosort) tosort pl pr (pl + 1))
  end.

Definition aquicksort : list nat :=
  let num := List.length v in
  aquicksort_loop (2 * num + 2) true (seq 0 num) 0 (Z.of_nat num - 1)
                  (2 * Z.log2 (Z.of_nat num)) [].
End Argsort.

(** [df.take(indexer)] *)
Definition take {A} (l : list A) (indexer : list nat) : list A :=
flat_map (fun i => match nth_error l i with
                   | Some x => [x]
                   | None => []
                   end) indexer.

Definition sort_values (A : Type) (key : A -> Q) (l : list A) : list A :=
take l (aquicksort (map key l)).
End NumpySort.

(** A regressor for running the code: one nearest neighbour over the
    training pairs, with scikit-learn's input validation (an array without
    samples is rejected by [fit] and by [predict]). *)
Module NearestNeighbour.
Definition model : Type := list (Q * Q).

Definition fit (X y : list Q) : option model :=
  match X with
  | [] => None
  | _ => if Nat.eqb (List.length X) (List.length y)
         then Some (combine X y) else None
  end.

Fixpoint nearest (best : Q * Q) (m : model) (x : Q) : Q :=
  match m with
  | [] => snd best
  | p :: t =>
    if Qltb (Qabs (fst p - x)) (Qabs (fst best - x))
    then nearest p t x else nearest best t x
  end.

Definition predict (m : model) (xs : list Q) : option (list Q) :=
  match xs, m with
  | [], _ => None
  | _, [] => None
  | _, p :: t => Some (map (nearest p t) xs)
  end.
End NearestNeighbour.


(* ================================================================== *)
(** ** Specification vocabulary *)

(** The accessions of a 'protein id' cell: its comma-separated fields. *)
Definition accessions (s : string) : list string := split_on "," s.

(** The predicate [filter_df_by_args] applies to a frame, in the words of
    the contract: the q-value test when the frame has the column, the
    one-accession test when [unique_only] is set. *)
Definition retained (df : DataFrame) (peptide_q : Q) (unique_only : bool)
    (x : Row) : Prop :=
  (has_column "percolator q-value" df = true -> (q_value x < peptide_q)%Q) /\
  (unique_only = true -> List.length (accessions (protein_id x)) = 1%nat).

Definition retainedb (df : DataFrame) (peptide_q : Q) (unique_only : bool)
    (x : Row) : bool :=
  (negb (has_column "percolator q-value" df) || below_q peptide_q x)
  && (negb unique_only || one_protein x).

(** What the code relies on from [sort_values]: the result holds the same
    rows, in ascending order of the key.  Nothing is asked of the order
    of rows with equal keys. *)
Definition sorts (sort_values : forall A : Type, (A -> Q) -> list A -> list A)
    : Prop :=
  forall (A : Type) (key : A -> Q) (l : list A),
    Permutation l (sort_values A key l) /\
    StronglySorted (fun a b => (key a <= key b)%Q) (sort_values A key l).

(** The survivor the contract names for key [k]: the first row of the key
    when the fraction is sorted on q-value by a stable sort. *)
Definition stable_survivor (frac : list Row) (k : string) : option Row :=
  find (has_key k) (stable_sort_values Row by_q_value frac).

(** In source order: [r] is the first row of key [k] among the rows of the
    key with the lowest q-value. *)
Definition first_lowest (frac : list Row) (k : string) (r : Row) : Prop :=
  exists before after,
    frac = before ++ r :: after /\ concat r = k /\
    (forall x, In x before -> concat x = k -> (q_value r < q_value x)%Q) /\
    (forall x, In x after -> concat x = k -> (q_value r <= q_value x)%Q).

Definition strictly_ascending_by_scan (l : list Row) : Prop :=
  forall i j x y, (i < j)%nat ->
    nth_error l i = Some x -> nth_error l j = Some y -> scan x < scan y.

(** [z] is an integer nearest to [q]. *)
Definition nearest_integer (q : Q) (z : Z) : Prop :=
  forall z' : Z, (Qabs (q - inject_Z z) <= Qabs (q - inject_Z z'))%Q.

(* ================================================================== *)
(** ** A small project *)

(** Line 85: [concat = str(sequence) + '_' + str(charge)]. *)
Definition concat_of (sequence : string) (charge : Z) : string :=
  sequence ++ "_" ++ NilZero.string_of_int (Z.to_int charge).

(** A row as [read_all_project_psms] stores it. *)
Definition psm (sample : string) (file_idx scan : Z) (sequence : string)
    (charge : Z) (q : Q) (protein_id : string) : Row :=
  mkRow file_idx scan charge 0 0 q protein_id sequence sample
        (concat_of sequence charge) NoPepId NoEvidence.

Definition project (samples : list string) (psms : list Row) : State :=
  mkState samples psms [] [] [] [] false.

Definition rows_A : list Row :=
  [ psm "A" 0 100 "SEQA" 2 (1 # 1000) "P1";
    psm "A" 0 200 "SEQB" 2 (1 # 1000) "P2";
    psm "A" 0 150 "PEPTIDE" 2 (2 # 100) "P3" ].

Definition rows_B : list Row :=
  [ psm "B" 0 170 "MARPEP" 3 (1 # 1000) "P4";
    psm "B" 0 155 "OTHER" 2 (1 # 1000) "P5" ].

Definition rows_C : list Row :=
  [ psm "C" 0 105 "SEQA" 2 (1 # 1000) "P1";
    psm "C" 0 210 "SEQB" 2 (1 # 1000) "P2";
    psm "C" 0 160 "PEPTIDE" 2 (1 # 1000) "P3";
    psm "C" 0 180 "MARPEP" 3 (1 # 1000) "P4" ].

Definition rows_D : list Row :=
  [ psm "D" 0 150 "PEPTIDE" 2 (2 # 100) "P3" ].

(** Sample E: the best PSM of PEPTIDE_2 maps to two proteins, a weaker one
    to a single protein. *)
Definition rows_E : list Row :=
  [ psm "E" 0 100 "PEPTIDE" 2 (1 # 1000) "P1,P2";
    psm "E" 0 120 "PEPTIDE" 2 (5 # 1000) "P1";
    psm "E" 0 130 "SEQA" 2 (1 # 1000) "P1" ].

(** Sample F: two peptides identified from the same scan. *)
Definition rows_F : list Row :=
  [ psm "F" 0 100 "SEQA" 2 (1 # 1000) "P1";
    psm "F" 0 100 "SEQB" 3 (2 # 1000) "P2" ].

(** Sample G: PEPTIDE_2 in fraction 0, sample H: PEPTIDE_2 in fraction 1. *)
Definition rows_G : list Row := [ psm "G" 0 100 "PEPTIDE" 2 (1 # 1000) "P1" ].
Definition rows_H : list Row := [ psm "H" 1 110 "PEPTIDE" 2 (1 # 1000) "P1" ].

(** Sample T: eighteen PSMs with the same q-value; the second and the
    sixteenth are PSMs of the same peptide and charge. *)
Definition sequences_T : list string :=
  [ "SEQA"; "PEPTIDE"; "SEQC"; "SEQD"; "SEQE"; "SEQF"; "SEQG"; "SEQH"; "SEQI";
    "SEQJ"; "SEQK"; "SEQL"; "SEQM"; "SEQN"; "SEQO"; "PEPTIDE"; "SEQQ"; "SEQR" ].

Definition rows_T : list Row :=
  map (fun p => psm "T" 0 (100 + Z.of_nat (fst p)) (snd p) 2 (1 # 1000) "P1")
      (combine (seq 0 18) sequences_T).

Definition example_soft_threshold_q : Q := 5 # 100.

(* ================================================================== *)
(** ** Intermediate frames, named for the statements *)

(** The grouped table of [make_master_match_list] before the quorum
    filter (lines 118-136). *)
Definition master_table (st : State) (peptide_q : Q) (unique_only : bool)
    : list MasterRow :=
  downcast_file_idx
    (groupby_agg (filter (keep peptide_q unique_only) (master_id_df st))).

(** The strictly filtered rows of the current fraction (lines 220-226). *)
Definition strict_set (st : State) (peptide_q : Q) (unique_only : bool)
    : list Row :=
  map (set_evidence q_value_ev)
      (filter (keep peptide_q unique_only) (curr_frac_id_df st)).

(** [curr_frac_filtered_id_df] when the match-across-runs block starts
    (line 266): the strict rows and, with the soft threshold, the rescued
    rows. *)
Definition filtered_at_mar (soft_threshold_q : Q) (st : State)
    (peptide_q : Q) (unique_only use_soft_threshold : bool) (idx : Z)
    : list Row :=
  if use_soft_threshold
  then strict_set st peptide_q unique_only
       ++ soft_rows soft_threshold_q st peptide_q (candidates_at st idx)
  else strict_set st peptide_q unique_only.

(* ================================================================== *)
(** ** The call sequence on the small project *)

(** The calls that precede [filter_current_fraction_psms] for one sample
    and fraction: the master list, the sample, the fraction. *)
Definition load_fraction
    (sort_values : forall A : Type, (A -> Q) -> list A -> list A)
    (st : State) (peptide_q : Q) (unique_only : bool) (min_fraction : Q)
    (current_sample : string) (idx : Z) : result State :=
  st1 <- make_master_match_list st peptide_q unique_only min_fraction ;;
  st2 <- get_current_sample_psms st1 current_sample ;;
  get_current_fraction_psms sort_values st2 idx.

(** The filter with the nearest-neighbour regressor and the example soft
    threshold. *)
Definition filter_with_nn
    (sort_values : forall A : Type, (A -> Q) -> list A -> list A)
    : State -> Q -> bool -> bool -> bool -> result State :=
  filter_current_fraction_psms sort_values NearestNeighbour.model
    NearestNeighbour.fit NearestNeighbour.predict example_soft_threshold_q.

(** The tie-break of the contract, for one fraction: of the rows of a key
    the resolver keeps the one a stable sort on q-value puts first, that
    is the earliest of those with the lowest q-value. *)
Definition keeps_stable_survivor
    (sort_values : forall A : Type, (A -> Q) -> list A -> list A)
    (st : State) (idx : Z) : Prop :=
  forall st' k r,
    get_current_fraction_psms sort_values st idx = Ok st' ->
    first_lowest (fraction_rows st idx) k r ->
    exists i,
      filter (has_key k) (curr_frac_id_df st') = [set_pep_id (PepIndex i) r].

(** A state whose current sample holds the given rows, with a master
    list that kept no candidate. *)
Definition sample_loaded (name : string) (psms : list Row) : State :=
  set_curr_sample (set_master (project [name] psms) []) psms.

Definition project_AC : State := project ["A"; "C"] (rows_A ++ rows_C).
Definition project_ABC : State :=
  project ["A"; "B"; "C"] (rows_A ++ rows_B ++ rows_C).
Definition project_DC : State := project ["D"; "C"] (rows_D ++ rows_C).

(** The master candidates of the project of A and C at q < 0.01 and a
    quorum of one quarter of the samples. *)
Definition master_AC : list MasterRow :=
  [ mkMaster "MARPEP_3" 1 0 0 0; mkMaster "PEPTIDE_2" 1 0 0 0;
    mkMaster "SEQA_2" 2 0 0 0; mkMaster "SEQB_2" 2 0 0 0 ].

(* ================================================================== *)
(** ** The loader and the index list *)

(** Lines 84-85: the sample column and the key are stamped on every row
    read from the sample's file. *)
Definition stamp (sample : string) (r : Row) : Row :=
  mkRow (file_idx r) (scan r) (charge r) (precursor_mz r) (peptide_mass r)
        (q_value r) (protein_id r) (sequence r) sample
        (concat_of (sequence r) (charge r)) (pep_id r) (evidence r).

Definition set_master_id_df (st : State) (rs : list Row) : State :=
  mkState (samples st) rs (curr_sample_id_df st) (curr_frac_id_df st)
          (curr_frac_filtered_id_df st) (match_across_runs_master st)
          (master_built st).

Section Loader.
(** Lines 66-82: the directory check, the listing with its single
    [*target.psms.txt] file and [pd.read_csv]; the file system is outside
    the development, so reading one sample is a parameter that may fail. *)
Variable read_percolator : string -> result (list Row).

(** The loop of lines 64-92 over the samples still to read. *)
Fixpoint read_samples (todo : list string) (all_psms : list Row)
    : result (list Row) :=
  match todo with
  | [] => Ok all_psms
  | sample :: rest =>
    id_df <- read_percolator sample ;;
    read_samples rest (all_psms ++ map (stamp sample) id_df)
  end.

Definition read_all_project_psms (st : State) : result State :=
  all_psms <- read_samples (samples st) [] ;;
  Ok (set_master_id_df st all_psms).

(** The stamped rows of one sample, none when its file cannot be read. *)
Definition loaded_frame (sample : string) : list Row :=
  match read_percolator sample with
  | Ok id_df => map (stamp sample) id_df
  | Err _ => []
  end.
End Loader.

(** [list(set(xs))] on integers, up to the iteration order. *)
Fixpoint list_set_Z (l : list Z) : list Z :=
  match l with
  | [] => []
  | x :: t => x :: filter (fun y => negb (Z.eqb y x)) (list_set_Z t)
  end.

(** [get_current_sample_mzid_indices], on the frame of a selected sample
    (it holds rows, and with them the 'file_idx' column): the list it
    stores in [self.indices], which no other method of the class reads. *)
Definition get_current_sample_mzid_indices (st : State) : list Z :=
  list_set_Z (map file_idx (curr_sample_id_df st)).

(** The keys of a frame, in row order. *)
Definition keys (df : list Row) : list string := map concat df.

(** A reader for the small project. *)
Definition read_small_project (sample : string) : result (list Row) :=
  if String.eqb sample "A" then Ok rows_A
  else if String.eqb sample "C" then Ok rows_C
  else Err AssertionError.

(* ================================================================== *)
(** * Properties *)

(** ** Numbers and strings *)

Lemma Qltb_lt (a b : Q) : Qltb a b = true <-> (a < b)%Q.
Proof.
  unfold Qltb. rewrite negb_true_iff. split.
  - intros H. apply Qnot_le_lt. intros Hle.
    apply Qle_bool_iff in Hle. congruence.
  - intros H. destruct (Qle_bool b a) eqn:E; [|reflexivity].
    apply Qle_bool_iff in E. exfalso. exact (Qlt_not_le _ _ H E).
Qed.

Lemma Qltb_ge (a b : Q) : Qltb a b = false <-> (b <= a)%Q.
Proof.
  unfold Qltb. rewrite negb_false_iff. apply Qle_bool_iff.
Qed.

(** *** Rounding to a double is monotone *)

Lemma round_half_even_floor (q : Q) :
  Qfloor q <= round_half_even q <= Qfloor q + 1.
Proof.
  unfold round_half_even. cbv zeta.
  destruct (Qltb _ _); [lia|]. destruct (Qltb _ _); [lia|].
  destruct (Z.even _); lia.
Qed.

Lemma round_half_even_mono (x y : Q) :
  (x <= y)%Q -> round_half_even x <= round_half_even y.
Proof.
  intros H. pose proof (Qfloor_resp_le _ _ H) as Hf.
  destruct (Z.eq_dec (Qfloor x) (Qfloor y)) as [E|N].
  - unfold round_half_even. cbv zeta. rewrite E.
    assert (Hd : (x - inject_Z (Qfloor y) <= y - inject_Z (Qfloor y))%Q) by lra.
    destruct (Qltb (x - inject_Z (Qfloor y)) (1 # 2)) eqn:E1;
      destruct (Qltb (y - inject_Z (Qfloor y)) (1 # 2)) eqn:E2;
      destruct (Qltb (1 # 2) (x - inject_Z (Qfloor y))) eqn:E3;
      destruct (Qltb (1 # 2) (y - inject_Z (Qfloor y))) eqn:E4;
      try (destruct (Z.even (Qfloor y)); lia);
      rewrite ?Qltb_lt, ?Qltb_ge in *; exfalso; lra.
  - pose proof (round_half_even_floor x). pose proof (round_half_even_floor y).
    lia.
Qed.

Lemma round_half_even_ge (z : Q) (k : Z) :
  (inject_Z k <= z)%Q -> k <= round_half_even z.
Proof.
  intros H. apply Qfloor_resp_le in H. rewrite Qfloor_Z in H.
  pose proof (round_half_even_floor z). lia.
Qed.

Lemma round_half_even_le (z : Q) (k : Z) :
  (z < inject_Z k)%Q -> round_half_even z <= k.
Proof.
  intros H. pose proof (round_half_even_floor z).
  assert (Qfloor z < k); [|lia].
  rewrite Zlt_Qlt. eapply Qle_lt_trans; [apply Qfloor_le|exact H].
Qed.

Lemma round_half_even_small (z : Q) :
  (0 <= z)%Q -> (z < 1 # 2)%Q -> round_half_even z = 0.
Proof.
  intros H0 H1. unfold round_half_even. cbv zeta.
  assert (E : Qfloor z = 0).
  { assert (0 <= Qfloor z).
    { apply Qfloor_resp_le in H0. change 0%Q with (inject_Z 0) in H0.
      now rewrite Qfloor_Z in H0. }
    assert (Qfloor z < 1); [|lia].
    rewrite Zlt_Qlt. eapply Qle_lt_trans; [apply Qfloor_le|].
    change (inject_Z 1) with 1%Q. lra. }
  rewrite E. replace (Qltb (z - inject_Z 0) (1 # 2)) with true; [reflexivity|].
  symmetry. apply Qltb_lt. change (inject_Z 0) with 0%Q. lra.
Qed.

Lemma pow2_pos (e : Z) : (0 < 2 ^ e)%Q.
Proof. apply Qpower_0_lt. reflexivity. Qed.

Lemma pow2_plus (a b : Z) : (2 ^ (a + b) == 2 ^ a * 2 ^ b)%Q.
Proof. apply Qpower_plus. discriminate. Qed.

Lemma pow2_inject (k : Z) : 0 <= k -> (inject_Z (2 ^ k) == 2 ^ k)%Q.
Proof. intros H. now rewrite Zpower_Qpower. Qed.

Lemma pow2_le (a b : Z) : a <= b -> (2 ^ a <= 2 ^ b)%Q.
Proof. intros H. apply Qpower_le_compat_l; [exact H|discriminate]. Qed.

Lemma pow2_succ (a : Z) : (2 ^ (a + 1) == 2 * 2 ^ a)%Q.
Proof. rewrite pow2_plus. change (2 ^ 1)%Q with 2%Q. ring. Qed.

Lemma ilog2_spec (x : Q) :
  (0 < x)%Q -> (2 ^ ilog2 x <= x)%Q /\ (x < 2 ^ (ilog2 x + 1))%Q.
Proof.
  intros Hx. unfold ilog2. cbv zeta.
  destruct x as [n d]. cbn [Qnum Qden].
  assert (Hn : 0 < n) by (unfold Qlt in Hx; simpl in Hx; lia).
  set (a := Z.log2 n). set (b := Z.log2 (Z.pos d)).
  destruct (Z.log2_spec n Hn) as [Ha1 Ha2]. fold a in Ha1, Ha2.
  destruct (Z.log2_spec (Z.pos d) eq_refl) as [Hb1 Hb2]. fold b in Hb1, Hb2.
  assert (Ha0 : 0 <= a) by apply Z.log2_nonneg.
  assert (Hb0 : 0 <= b) by apply Z.log2_nonneg.
  assert (HA1 : (2 ^ a <= inject_Z n)%Q)
    by (rewrite <- pow2_inject by lia; now rewrite <- Zle_Qle).
  assert (HA2 : (inject_Z n < 2 * 2 ^ a)%Q).
  { rewrite <- pow2_succ, <- pow2_inject by lia. rewrite <- Zlt_Qlt.
    now rewrite <- Z.add_1_r in Ha2. }
  assert (HB1 : (2 ^ b <= inject_Z (Z.pos d))%Q)
    by (rewrite <- pow2_inject by lia; now rewrite <- Zle_Qle).
  assert (HB2 : (inject_Z (Z.pos d) < 2 * 2 ^ b)%Q).
  { rewrite <- pow2_succ, <- pow2_inject by lia. rewrite <- Zlt_Qlt.
    now rewrite <- Z.add_1_r in Hb2. }
  assert (Hxd : (n # d) * inject_Z (Z.pos d) == inject_Z n).
  { unfold Qeq, Qmult, inject_Z. simpl. lia. }
  pose proof (pow2_pos a) as Pa. pose proof (pow2_pos b) as Pb.
  set (A := (2 ^ a)%Q) in *. set (B := (2 ^ b)%Q) in *.
  set (X := inject_Z n) in *. set (D := inject_Z (Z.pos d)) in *.
  set (x := n # d) in *.
  assert (Eab : (2 ^ (a - b) * B == A)%Q).
  { unfold A, B. rewrite <- pow2_plus. now replace (a - b + b) with a by lia. }
  destruct (Qle_bool (2 ^ (a - b)) x) eqn:E.
  - apply Qle_bool_iff in E. split; [exact E|].
    rewrite pow2_succ. pose proof (pow2_pos (a - b)) as Pe.
    set (P := (2 ^ (a - b))%Q) in *.
    (* x * B <= x * D = X < 2 A = 2 P B *)
    assert (H1 : (x * B <= x * D)%Q)
      by (apply Qmult_le_l; [exact Hx|exact HB1]).
    assert (H2 : (x * B < 2 * P * B)%Q) by (rewrite <- Qmult_assoc, Eab; lra).
    apply Qmult_lt_r in H2; [exact H2|exact Pb].
  - assert (E' : (x < 2 ^ (a - b))%Q).
    { apply Qnot_le_lt. intros H. apply Qle_bool_iff in H. congruence. }
    replace (a - b - 1 + 1) with (a - b) by lia. split; [|exact E'].
    assert (Ep : (2 * 2 ^ (a - b - 1) == 2 ^ (a - b))%Q).
    { rewrite <- pow2_succ. now replace (a - b - 1 + 1) with (a - b) by lia. }
    pose proof (pow2_pos (a - b - 1)) as Pe.
    set (P := (2 ^ (a - b - 1))%Q) in *.
    set (P2 := (2 ^ (a - b))%Q) in *.
    (* P * (2B) = A <= X = x * D <= x * 2B *)
    assert (H1 : (x * D <= x * (2 * B))%Q)
      by (apply Qmult_le_l; [exact Hx|lra]).
    assert (H2 : (P * (2 * B) <= x * (2 * B))%Q).
    { assert (P * (2 * B) == A)%Q
        by (rewrite <- Eab, <- Ep; ring).
      lra. }
    apply Qmult_le_r in H2; [exact H2|lra].
Qed.

Lemma ilog2_mono (x y : Q) : (0 < x)%Q -> (x <= y)%Q -> ilog2 x <= ilog2 y.
Proof.
  intros Hx Hxy.
  destruct (ilog2_spec x Hx) as [H1 _].
  destruct (ilog2_spec y) as [_ H2]; [lra|].
  destruct (Z_le_gt_dec (ilog2 x) (ilog2 y)) as [H|H]; [exact H|].
  exfalso. assert (Hp : (2 ^ (ilog2 y + 1) <= 2 ^ ilog2 x)%Q)
    by (apply pow2_le; lia).
  lra.
Qed.

Lemma round_pos_nonneg (x : Q) : (0 <= x)%Q -> (0 <= round_pos x)%Q.
Proof.
  intros Hx. unfold round_pos. cbv zeta.
  set (e := Z.max _ _). pose proof (pow2_pos e) as Pe.
  apply Qmult_le_0_compat; [|lra].
  change 0%Q with (inject_Z 0). rewrite <- Zle_Qle.
  apply round_half_even_ge. change (inject_Z 0) with 0%Q.
  apply Qle_shift_div_l; [exact Pe|lra].
Qed.

Lemma round_pos_mono (x y : Q) :
  (0 <= x)%Q -> (x <= y)%Q -> (round_pos x <= round_pos y)%Q.
Proof.
  intros Hx0 Hxy.
  destruct (Qlt_le_dec 0 x) as [Hx|Hx'].
  2:{ assert (E : x == 0) by lra.
      assert (E0 : round_pos x == 0).
      { unfold round_pos. cbv zeta. set (e := Z.max _ _).
        rewrite (round_half_even_small (x / 2 ^ e)).
        - change (inject_Z 0) with 0%Q. ring.
        - rewrite E. unfold Qdiv. lra.
        - rewrite E. unfold Qdiv. rewrite Qmult_0_l. reflexivity. }
      rewrite E0. apply round_pos_nonneg. lra. }
  assert (Hy : (0 < y)%Q) by lra.
  pose proof (ilog2_mono x y Hx Hxy) as HL.
  destruct (ilog2_spec x Hx) as [_ Hx2].
  destruct (ilog2_spec y Hy) as [Hy1 _].
  unfold round_pos. cbv zeta.
  set (Lx := ilog2 x) in *. set (Ly := ilog2 y) in *.
  set (ex := Z.max (Lx - 52) (-1074)). set (ey := Z.max (Ly - 52) (-1074)).
  pose proof (pow2_pos ex) as Px. pose proof (pow2_pos ey) as Py.
  destruct (Z.eq_dec ex ey) as [E|N].
  - rewrite <- E. apply Qmult_le_compat_r; [|lra].
    rewrite <- Zle_Qle. apply round_half_even_mono.
    apply Qmult_le_compat_r; [exact Hxy|].
    apply Qlt_le_weak, Qinv_lt_0_compat, Px.
  - assert (Hey : ey = Ly - 52 /\ Lx + 1 <= Ly) by lia.
    destruct Hey as [Hey HLxy].
    (* the rounding of y is at least 2 ^ Ly *)
    assert (Hry : (2 ^ Ly <= inject_Z (round_half_even (y / 2 ^ ey)) * 2 ^ ey)%Q).
    { assert (H52 : 2 ^ 52 <= round_half_even (y / 2 ^ ey)).
      { apply round_half_even_ge. rewrite pow2_inject by lia.
        apply Qle_shift_div_l; [exact Py|].
        rewrite <- pow2_plus. rewrite Hey.
        now replace (52 + (Ly - 52)) with Ly by lia. }
      rewrite Zle_Qle in H52. rewrite pow2_inject in H52 by lia.
      assert (E : (2 ^ Ly == 2 ^ 52 * 2 ^ ey)%Q).
      { rewrite <- pow2_plus, Hey.
        now replace (52 + (Ly - 52)) with Ly by lia. }
      rewrite E. apply Qmult_le_compat_r; [exact H52|lra]. }
    eapply Qle_trans; [|exact Hry].
    destruct (Z_le_gt_dec 0 (Lx + 1 - ex)) as [Hk|Hk].
    + eapply Qle_trans; [|apply (pow2_le (Lx + 1) Ly HLxy)].
      assert (Hr : round_half_even (x / 2 ^ ex) <= 2 ^ (Lx + 1 - ex)).
      { apply round_half_even_le. rewrite pow2_inject by lia.
        apply Qlt_shift_div_r; [exact Px|].
        rewrite <- pow2_plus.
        now replace (Lx + 1 - ex + ex) with (Lx + 1) by lia. }
      rewrite Zle_Qle in Hr. rewrite pow2_inject in Hr by lia.
      assert (E : (2 ^ (Lx + 1) == 2 ^ (Lx + 1 - ex) * 2 ^ ex)%Q).
      { rewrite <- pow2_plus.
        now replace (Lx + 1 - ex + ex) with (Lx + 1) by lia. }
      rewrite E. apply Qmult_le_compat_r; [exact Hr|lra].
    + rewrite (round_half_even_small (x / 2 ^ ex)).
      * change (inject_Z 0) with 0%Q. rewrite Qmult_0_l.
        apply Qlt_le_weak, pow2_pos.
      * apply Qle_shift_div_l; [exact Px|lra].
      * apply Qlt_shift_div_r; [exact Px|].
        assert (Hh : (2 ^ (Lx + 1) <= (1 # 2) * 2 ^ ex)%Q).
        { assert (E : ((1 # 2) * 2 ^ ex == 2 ^ (ex - 1))%Q).
          { replace ex with (ex - 1 + 1) at 1 by lia. rewrite pow2_succ.
            ring. }
          rewrite E. apply pow2_le. lia. }
        lra.
Qed.

Lemma round_to_double_mono (x y : Q) :
  (x <= y)%Q -> (round_to_double x <= round_to_double y)%Q.
Proof.
  intros H. unfold round_to_double.
  destruct (Qle_bool 0 x) eqn:Ex; destruct (Qle_bool 0 y) eqn:Ey.
  - apply Qle_bool_iff in Ex. now apply round_pos_mono.
  - apply Qle_bool_iff in Ex.
    assert (~ (0 <= y)%Q) by (intros Hy; apply Qle_bool_iff in Hy; congruence).
    exfalso. lra.
  - apply Qle_bool_iff in Ey.
    assert (Hx : ~ (0 <= x)%Q) by (intros Hx; apply Qle_bool_iff in Hx; congruence).
    pose proof (round_pos_nonneg (- x)). pose proof (round_pos_nonneg y Ey).
    assert (0 <= - x)%Q by lra. lra.
  - assert (Hx : ~ (0 <= x)%Q) by (intros Hx; apply Qle_bool_iff in Hx; congruence).
    assert (Hy : ~ (0 <= y)%Q) by (intros Hy; apply Qle_bool_iff in Hy; congruence).
    assert (round_pos (- y) <= round_pos (- x))%Q
      by (apply round_pos_mono; lra).
    lra.
Qed.

Lemma split_on_length (c : ascii) (s : string) :
  List.length (split_on c s) = S (str_count c s).
Proof.
  induction s as [|a t IH]; simpl; [reflexivity|].
  destruct (Ascii.eqb a c); simpl.
  - now rewrite IH.
  - destruct (split_on c t) as [|f fs]; simpl in *; [discriminate|exact IH].
Qed.

Lemma one_protein_accessions (x : Row) :
  one_protein x = true <-> List.length (accessions (protein_id x)) = 1%nat.
Proof.
  unfold one_protein, accessions. rewrite split_on_length, Nat.eqb_eq. lia.
Qed.

Lemma mem_str_In (x : string) (l : list string) :
  mem_str x l = true <-> In x l.
Proof.
  unfold mem_str. rewrite existsb_exists. split.
  - intros (y & Hy & E). apply String.eqb_eq in E. now subst.
  - intros H. exists x. split; [exact H|apply String.eqb_refl].
Qed.

(** ** filter_df_by_args *)

Lemma keep_spec (peptide_q : Q) (unique_only : bool) (x : Row) :
  keep peptide_q unique_only x = true <->
  (q_value x < peptide_q)%Q /\
  (unique_only = true -> List.length (accessions (protein_id x)) = 1%nat).
Proof.
  unfold keep, below_q.
  rewrite andb_true_iff, orb_true_iff, negb_true_iff, Qltb_lt,
    one_protein_accessions.
  destruct unique_only; intuition congruence.
Qed.

Lemma filter_filter {A} (f g : A -> bool) (l : list A) :
  filter g (filter f l) = filter (fun x => f x && g x) l.
Proof.
  induction l as [|a l IH]; simpl; [reflexivity|].
  destruct (f a); simpl; [destruct (g a)|]; now rewrite IH.
Qed.

Lemma filter_all {A} (f : A -> bool) (l : list A) :
  (forall a, f a = true) -> filter f l = l.
Proof.
  intros H. induction l as [|a l IH]; simpl; [reflexivity|].
  now rewrite H, IH.
Qed.

Lemma filter_df_by_args_loaded (rs : list Row) (peptide_q : Q)
    (unique_only : bool) :
  filter_df_by_args (loaded rs) peptide_q unique_only =
  Ok (loaded (filter (keep peptide_q unique_only) rs)).
Proof.
  unfold filter_df_by_args, loaded, keep, with_rows. simpl.
  destruct unique_only; simpl.
  - now rewrite filter_filter.
  - f_equal. f_equal. apply filter_ext. intros a. now rewrite andb_true_r.
Qed.

Lemma retainedb_spec df peptide_q unique_only x :
  retainedb df peptide_q unique_only x = true <->
  retained df peptide_q unique_only x.
Proof.
  unfold retainedb, retained, below_q.
  rewrite andb_true_iff, !orb_true_iff, !negb_true_iff, Qltb_lt,
    one_protein_accessions.
  destruct unique_only, (has_column "percolator q-value" df);
    intuition congruence.
Qed.

(** C6. The Confidence Filter never fails on the q-value column: it returns
    the frame's rows, in order, that have their q-value strictly below the
    threshold when the frame carries q-values (all of them when it does
    not), and with [unique_only] only those with exactly one accession. *)
Theorem filter_df_by_args_retains (df : DataFrame) (peptide_q : Q)
    (unique_only : bool) :
  (unique_only = true -> has_column "protein id" df = true) ->
  exists df',
    filter_df_by_args df peptide_q unique_only = Ok df' /\
    columns df' = columns df /\
    rows df' = filter (retainedb df peptide_q unique_only) (rows df) /\
    (forall x, In x (rows df') <->
               In x (rows df) /\ retained df peptide_q unique_only x) /\
    (has_column "percolator q-value" df = false -> unique_only = false ->
     df' = df).
Proof.
  intros Hprot.
  assert (Hrows : forall df',
    columns df' = columns df ->
    rows df' = filter (retainedb df peptide_q unique_only) (rows df) ->
    forall x, In x (rows df') <->
              In x (rows df) /\ retained df peptide_q unique_only x).
  { intros df' _ E x. rewrite E, filter_In, retainedb_spec. reflexivity. }
  unfold filter_df_by_args.
  destruct unique_only.
  - specialize (Hprot eq_refl).
    destruct (has_column "percolator q-value" df) eqn:Hq.
    + unfold has_column in *. simpl. rewrite Hprot.
      eexists. split; [reflexivity|].
      assert (E : filter one_protein (filter (below_q peptide_q) (rows df)) =
                  filter (retainedb df peptide_q true) (rows df)).
      { rewrite filter_filter. apply filter_ext. intros a.
        unfold retainedb, has_column. now rewrite Hq. }
      split; [reflexivity|]. split; [exact E|].
      split; [apply Hrows; [reflexivity|exact E]|intros; discriminate].
    + rewrite Hprot. eexists. split; [reflexivity|].
      assert (E : filter one_protein (rows df) =
                  filter (retainedb df peptide_q true) (rows df)).
      { apply filter_ext. intros a. unfold retainedb. now rewrite Hq. }
      split; [reflexivity|]. split; [exact E|].
      split; [apply Hrows; [reflexivity|exact E]|intros; discriminate].
  - destruct (has_column "percolator q-value" df) eqn:Hq.
    + eexists. split; [reflexivity|].
      assert (E : filter (below_q peptide_q) (rows df) =
                  filter (retainedb df peptide_q false) (rows df)).
      { apply filter_ext. intros a. unfold retainedb.
        rewrite Hq. simpl. now rewrite andb_true_r. }
      split; [reflexivity|]. split; [exact E|].
      split; [apply Hrows; [reflexivity|exact E]|intros; discriminate].
    + exists df.
      assert (E : rows df = filter (retainedb df peptide_q false) (rows df)).
      { symmetry. apply filter_all. intros a.
        unfold retainedb. now rewrite Hq. }
      split; [reflexivity|]. split; [reflexivity|]. split; [exact E|].
      split; [apply Hrows; [reflexivity|exact E]|reflexivity].
Qed.

(** ** Sorting *)

Section InsertionSorts.
Context {A : Type} (key : A -> Q).
Let leb (a b : A) : bool := Qle_bool (key a) (key b).
Let le (a b : A) : Prop := (key a <= key b)%Q.

Lemma insert_perm (x : A) (l : list A) : Permutation (x :: l) (insert leb x l).
Proof.
  induction l as [|y t IH]; simpl; [reflexivity|].
  destruct (leb x y); [reflexivity|].
  rewrite perm_swap. now apply perm_skip.
Qed.

Lemma isort_perm (l : list A) : Permutation l (isort leb l).
Proof.
  induction l as [|x t IH]; simpl; [reflexivity|].
  rewrite <- insert_perm. now apply perm_skip.
Qed.

Lemma insert_sorted (x : A) (l : list A) :
  StronglySorted le l -> StronglySorted le (insert leb x l).
Proof.
  induction 1 as [|y t Hs IH Hy]; simpl.
  - repeat constructor.
  - destruct (leb x y) eqn:E.
    + apply Qle_bool_iff in E. constructor; [now constructor|].
      constructor; [exact E|].
      eapply Forall_impl; [|exact Hy]. intros z Hz. unfold le in *.
      eapply Qle_trans; eassumption.
    + assert (Hyx : le y x).
      { unfold le, leb in *. apply Qlt_le_weak, Qnot_le_lt. intros H.
        apply Qle_bool_iff in H. congruence. }
      constructor; [exact IH|].
      eapply Permutation_Forall; [apply insert_perm|].
      now constructor.
Qed.

Lemma isort_sorted (l : list A) : StronglySorted le (isort leb l).
Proof.
  induction l as [|x t IH]; simpl; [constructor|now apply insert_sorted].
Qed.
End InsertionSorts.

Lemma stable_sort_values_sorts : sorts stable_sort_values.
Proof.
  intros A key l. split; [apply isort_perm|apply isort_sorted].
Qed.

Lemma sorts_nil sort_values (Hs : sorts sort_values) (A : Type) (key : A -> Q) :
  sort_values A key [] = [].
Proof.
  destruct (Hs A key []) as [Hp _]. now apply Permutation_nil.
Qed.

Lemma sorts_In sort_values (Hs : sorts sort_values) (A : Type) (key : A -> Q)
    (l : list A) (x : A) :
  In x (sort_values A key l) <-> In x l.
Proof.
  destruct (Hs A key l) as [Hp _]. split; intros H.
  - eapply Permutation_in; [symmetry; exact Hp|exact H].
  - eapply Permutation_in; [exact Hp|exact H].
Qed.

(** ** Lists *)

Lemma Permutation_filter_same {A} (f : A -> bool) (l l' : list A) :
  Permutation l l' -> Permutation (filter f l) (filter f l').
Proof.
  induction 1 as [|x l l' _ IH|x y l|l l' l'' _ IH1 _ IH2]; simpl.
  - constructor.
  - destruct (f x); [now constructor|exact IH].
  - destruct (f x), (f y); try reflexivity. apply perm_swap.
  - etransitivity; eassumption.
Qed.

Lemma filter_singleton_perm {A} (f : A -> bool) (l l' : list A) (r : A) :
  Permutation l l' -> filter f l = [r] -> filter f l' = [r].
Proof.
  intros Hp E. apply (Permutation_filter_same f) in Hp. rewrite E in Hp.
  now apply Permutation_length_1_inv.
Qed.

Lemma StronglySorted_nth {A} (R : A -> A -> Prop) (l : list A) :
  StronglySorted R l ->
  forall i j x y, (i < j)%nat ->
    nth_error l i = Some x -> nth_error l j = Some y -> R x y.
Proof.
  induction 1 as [|a l Hs IH Ha]; intros i j x y Hij Hi Hj.
  - destruct i; discriminate.
  - destruct j as [|j]; [lia|]. simpl in Hj. destruct i as [|i]; simpl in Hi.
    + injection Hi as <-. rewrite Forall_forall in Ha.
      apply Ha. eapply nth_error_In; eassumption.
    + eapply IH; [|eassumption|eassumption]. lia.
Qed.

(** ** drop_duplicates *)

Lemma has_key_eq (k : string) (x : Row) : has_key k x = true <-> concat x = k.
Proof. unfold has_key. apply String.eqb_eq. Qed.

Lemma drop_duplicates_from_In (seen : list string) (l : list Row) (x : Row) :
  In x (drop_duplicates_from seen l) -> In x l.
Proof.
  revert seen. induction l as [|a l IH]; intros seen; simpl; [tauto|].
  destruct (mem_str (concat a) seen); simpl; intros H.
  - right. eapply IH; eassumption.
  - destruct H as [H|H]; [now left|right; eapply IH; eassumption].
Qed.

Lemma drop_duplicates_from_key (seen : list string) (l : list Row) (k : string) :
  filter (has_key k) (drop_duplicates_from seen l) =
  if mem_str k seen then []
  else match find (has_key k) l with
       | Some r => [r]
       | None => []
       end.
Proof.
  revert seen. induction l as [|a l IH]; intros seen; simpl.
  - now destruct (mem_str k seen).
  - destruct (mem_str (concat a) seen) eqn:Ea.
    + rewrite IH. destruct (mem_str k seen) eqn:Ek; [reflexivity|].
      destruct (has_key k a) eqn:Eka; [|reflexivity].
      apply has_key_eq in Eka. congruence.
    + simpl. rewrite IH. simpl. unfold has_key at 1 4.
      destruct (String.eqb (concat a) k) eqn:Eka; simpl.
      * apply String.eqb_eq in Eka. subst k. rewrite Ea.
        now rewrite String.eqb_refl.
      * rewrite String.eqb_sym, Eka. reflexivity.
Qed.

(** After [drop_duplicates] a key has one row: the first of that key. *)
Lemma drop_duplicates_key (l : list Row) (k : string) :
  filter (has_key k) (drop_duplicates l) =
  match find (has_key k) l with
  | Some r => [r]
  | None => []
  end.
Proof. unfold drop_duplicates. now rewrite drop_duplicates_from_key. Qed.

(** In a frame sorted on q-value, the first row of a key has the lowest
    q-value of that key. *)
Lemma find_sorted_min (l : list Row) (k : string) (r : Row) :
  StronglySorted (fun a b => (by_q_value a <= by_q_value b)%Q) l ->
  find (has_key k) l = Some r ->
  forall x, In x l -> concat x = k -> (q_value r <= q_value x)%Q.
Proof.
  induction 1 as [|a l Hs IH Ha]; simpl; [discriminate|].
  destruct (has_key k a) eqn:Ea.
  - intros [= <-] x [<-|Hx] _; [apply Qle_refl|].
    rewrite Forall_forall in Ha. now apply Ha.
  - intros Hf x [<-|Hx] Hk.
    + apply has_key_eq in Hk. congruence.
    + now apply IH.
Qed.

Lemma find_key_exists (l : list Row) (k : string) :
  (exists x, In x l /\ concat x = k) ->
  exists r, find (has_key k) l = Some r /\ In r l /\ concat r = k.
Proof.
  intros (x & Hx & Hk). destruct (find (has_key k) l) as [r|] eqn:E.
  - exists r. apply find_some in E. destruct E as [Hr E].
    apply has_key_eq in E. auto.
  - exfalso. eapply find_none in E; [|exact Hx].
    apply has_key_eq in Hk. congruence.
Qed.

(** ** The stable tie-break *)

Lemma find_insert_sorted (k : string) (x : Row) (s : list Row) :
  StronglySorted (fun a b => (by_q_value a <= by_q_value b)%Q) s ->
  find (has_key k)
       (insert (fun a b => Qle_bool (by_q_value a) (by_q_value b)) x s) =
  if has_key k x then
    match find (has_key k) s with
    | Some r => if Qle_bool (q_value x) (q_value r) then Some x else Some r
    | None => Some x
    end
  else find (has_key k) s.
Proof.
  induction 1 as [|y s Hs IH Hy]; simpl.
  - now destruct (has_key k x).
  - unfold by_q_value at 1 2.
    destruct (Qle_bool (q_value x) (q_value y)) eqn:Exy; simpl.
    + destruct (has_key k x) eqn:Ex; [|reflexivity].
      destruct (has_key k y) eqn:Ey; [now rewrite Exy|].
      destruct (find (has_key k) s) as [r|] eqn:Er; [|reflexivity].
      replace (Qle_bool (q_value x) (q_value r)) with true; [reflexivity|].
      symmetry. apply Qle_bool_iff. apply Qle_bool_iff in Exy.
      eapply Qle_trans; [exact Exy|].
      rewrite Forall_forall in Hy. apply Hy.
      apply find_some in Er. tauto.
    + destruct (has_key k y) eqn:Ey.
      * destruct (has_key k x); [now rewrite Exy|reflexivity].
      * exact IH.
Qed.

(** A stable sort on q-value puts first, for every key, the earliest of the
    rows of the key with the lowest q-value. *)
Lemma stable_survivor_first_lowest (frac : list Row) (k : string) (r : Row) :
  stable_survivor frac k = Some r -> first_lowest frac k r.
Proof.
  unfold stable_survivor, stable_sort_values. revert r.
  induction frac as [|x t IH]; intros r; simpl; [discriminate|].
  set (leb := fun a b : Row => Qle_bool (by_q_value a) (by_q_value b)) in *.
  pose proof (isort_sorted by_q_value t) as Hs. fold leb in Hs.
  pose proof (isort_perm by_q_value t) as Hp. fold leb in Hp.
  unfold leb at 1. rewrite find_insert_sorted by exact Hs. fold leb.
  destruct (has_key k x) eqn:Ex.
  - apply has_key_eq in Ex.
    destruct (find (has_key k) (isort leb t)) as [r'|] eqn:Er'.
    + destruct (Qle_bool (q_value x) (q_value r')) eqn:Exr.
      * intros [= <-]. exists [], t. split; [reflexivity|].
        split; [exact Ex|]. split; [intros y []|].
        intros y Hy Hk. apply Qle_bool_iff in Exr.
        eapply Qle_trans; [exact Exr|].
        eapply find_sorted_min; [exact Hs|exact Er'| |exact Hk].
        eapply Permutation_in; eassumption.
      * intros [= <-]. destruct (IH _ eq_refl) as (b & a & E & Hk & Hb & Ha).
        exists (x :: b), a. split; [now rewrite E|]. split; [exact Hk|].
        split; [|exact Ha].
        intros y [<-|Hy] Hyk; [|now apply Hb].
        apply Qnot_le_lt. intros Hle. apply Qle_bool_iff in Hle. congruence.
    + intros [= <-]. exists [], t. split; [reflexivity|].
      split; [exact Ex|]. split; [intros y []|].
      intros y Hy Hk. exfalso.
      eapply find_none in Er'; [|eapply Permutation_in; eassumption].
      apply has_key_eq in Hk. congruence.
  - intros Hf. destruct (IH _ Hf) as (b & a & E & Hk & Hb & Ha).
    exists (x :: b), a. split; [now rewrite E|]. split; [exact Hk|].
    split; [|exact Ha].
    intros y [<-|Hy] Hyk; [|now apply Hb].
    apply has_key_eq in Hyk. congruence.
Qed.

Lemma app_cons_split {A} (b b' : list A) (r r' : A) (a a' : list A) :
  b ++ r :: a = b' ++ r' :: a' ->
  (b = b' /\ r = r' /\ a = a') \/
  (exists m, b' = b ++ r :: m /\ a = m ++ r' :: a') \/
  (exists m, b = b' ++ r' :: m /\ a' = m ++ r :: a).
Proof.
  revert b'. induction b as [|x b IH]; intros [|x' b']; simpl; intros E.
  - injection E as -> ->. now left.
  - injection E as -> ->. right. left. now exists b'.
  - injection E as -> <-. right. right. now exists b.
  - injection E as -> E.
    destruct (IH _ E) as [(-> & -> & ->)|[(m & -> & ->)|(m & -> & ->)]].
    + now left.
    + right. left. now exists m.
    + right. right. now exists m.
Qed.

Lemma first_lowest_unique (frac : list Row) (k : string) (r r' : Row) :
  first_lowest frac k r -> first_lowest frac k r' -> r = r'.
Proof.
  intros (b & a & E & Hk & Hb & Ha) (b' & a' & E' & Hk' & Hb' & Ha').
  rewrite E in E'.
  destruct (app_cons_split _ _ _ _ _ _ E')
    as [(_ & H & _)|[(m & -> & ->)|(m & -> & ->)]]; [exact H| |]; exfalso.
  - assert (H1 : (q_value r' < q_value r)%Q).
    { apply Hb'; [|exact Hk]. apply in_or_app. right. now left. }
    assert (H2 : (q_value r <= q_value r')%Q).
    { apply Ha; [|exact Hk']. apply in_or_app. right. now left. }
    exact (Qlt_not_le _ _ H1 H2).
  - assert (H1 : (q_value r < q_value r')%Q).
    { apply Hb; [|exact Hk']. apply in_or_app. right. now left. }
    assert (H2 : (q_value r' <= q_value r)%Q).
    { apply Ha'; [|exact Hk]. apply in_or_app. right. now left. }
    exact (Qlt_not_le _ _ H1 H2).
Qed.

(** ** assign_pep_id *)

Lemma assign_pep_id_nth (l : list Row) (s i : nat) :
  nth_error (assign_pep_id s l) i =
  option_map (set_pep_id (PepIndex (s + i))) (nth_error l i).
Proof.
  revert s i. induction l as [|a l IH]; intros s i; simpl.
  - now destruct i.
  - destruct i as [|i]; simpl.
    + now rewrite Nat.add_0_r.
    + rewrite IH. now rewrite Nat.add_succ_r.
Qed.

Lemma assign_pep_id_In (l : list Row) (s : nat) (y : Row) :
  In y (assign_pep_id s l) ->
  exists x i, In x l /\ y = set_pep_id (PepIndex i) x.
Proof.
  revert s. induction l as [|a l IH]; intros s; simpl; [tauto|].
  intros [<-|H].
  - exists a, s. auto.
  - destruct (IH _ H) as (x & i & Hx & E). exists x, i. auto.
Qed.

Lemma has_key_set_pep_id (k : string) (p : PepId) (x : Row) :
  has_key k (set_pep_id p x) = has_key k x.
Proof. reflexivity. Qed.

Lemma assign_pep_id_no_key (l : list Row) (s : nat) (k : string) :
  filter (has_key k) l = [] -> filter (has_key k) (assign_pep_id s l) = [].
Proof.
  revert s. induction l as [|a l IH]; intros s; simpl; [reflexivity|].
  rewrite has_key_set_pep_id. destruct (has_key k a); [discriminate|].
  apply IH.
Qed.

Lemma assign_pep_id_key (l : list Row) (s : nat) (k : string) (r : Row) :
  filter (has_key k) l = [r] ->
  exists i, filter (has_key k) (assign_pep_id s l) = [set_pep_id (PepIndex i) r].
Proof.
  revert s. induction l as [|a l IH]; intros s; simpl; [discriminate|].
  rewrite has_key_set_pep_id. destruct (has_key k a) eqn:Ea.
  - intros [= -> E]. exists s. f_equal. now apply assign_pep_id_no_key.
  - intros E. now apply IH.
Qed.

(** ** get_current_fraction_psms *)

Section Resolver.
Variable sort_values : forall A : Type, (A -> Q) -> list A -> list A.
Hypothesis sort_values_sorts : sorts sort_values.

Lemma get_current_fraction_psms_ok (st st' : State) (idx : Z) :
  get_current_fraction_psms sort_values st idx = Ok st' ->
  st' = set_curr_frac st (resolved sort_values st idx).
Proof.
  unfold get_current_fraction_psms, assert_.
  destruct (existsb _ _); simpl; [|discriminate].
  now intros [= <-].
Qed.

Lemma get_current_fraction_psms_total (st : State) (idx : Z) :
  In idx (map file_idx (curr_sample_id_df st)) ->
  get_current_fraction_psms sort_values st idx =
  Ok (set_curr_frac st (resolved sort_values st idx)).
Proof.
  intros H. unfold get_current_fraction_psms, assert_.
  replace (existsb _ _) with true; [reflexivity|].
  symmetry. apply existsb_exists. exists idx. split; [exact H|apply Z.eqb_refl].
Qed.

Lemma resolved_from_fraction (st : State) (idx : Z) (y : Row) :
  In y (resolved sort_values st idx) ->
  exists x i, In x (fraction_rows st idx) /\ y = set_pep_id (PepIndex i) x.
Proof.
  intros H. apply assign_pep_id_In in H. destruct H as (x & i & Hx & ->).
  exists x, i. split; [|reflexivity].
  apply (sorts_In _ sort_values_sorts) in Hx.
  apply drop_duplicates_from_In in Hx.
  now apply (sorts_In _ sort_values_sorts) in Hx.
Qed.

Lemma resolved_key (st : State) (idx : Z) (k : string) :
  (exists x, In x (fraction_rows st idx) /\ concat x = k) ->
  exists r i,
    filter (has_key k) (resolved sort_values st idx) = [set_pep_id (PepIndex i) r] /\
    find (has_key k) (sort_values Row by_q_value (fraction_rows st idx))
      = Some r /\
    In r (fraction_rows st idx) /\ concat r = k /\
    (forall x, In x (fraction_rows st idx) -> concat x = k ->
               (q_value r <= q_value x)%Q).
Proof.
  intros (x & Hx & Hk).
  set (frac := fraction_rows st idx) in *.
  destruct (sort_values_sorts Row by_q_value frac) as [Hp Hs].
  destruct (find_key_exists (sort_values Row by_q_value frac) k)
    as (r & Hf & Hr & Hrk).
  { exists x. split; [|exact Hk]. now apply (sorts_In _ sort_values_sorts). }
  assert (Hd : filter (has_key k)
                 (drop_duplicates (sort_values Row by_q_value frac)) = [r]).
  { now rewrite drop_duplicates_key, Hf. }
  destruct (sort_values_sorts Row by_scan
              (drop_duplicates (sort_values Row by_q_value frac)))
    as [Hp2 _].
  apply (filter_singleton_perm _ _ _ _ Hp2) in Hd.
  destruct (assign_pep_id_key _ 0 _ _ Hd) as (i & Hi).
  exists r, i. split; [exact Hi|]. split; [exact Hf|].
  split; [now apply (sorts_In _ sort_values_sorts) in Hr|].
  split; [exact Hrk|].
  intros z Hz Hzk. eapply find_sorted_min; eauto.
  now apply (sorts_In _ sort_values_sorts).
Qed.

(** C4 (as the code has it). For a key that occurs in the fraction the
    resolver keeps exactly one row; it is the first row of that key in
    the frame sorted on q-value, so it has the lowest q-value of the key,
    and every kept row is a row of the fraction.  Which of several rows
    tied at the lowest q-value comes first is left to [sort_values]. *)
Theorem dedup_keeps_first_after_q_sort (st st' : State) (idx : Z)
    (k : string) :
  get_current_fraction_psms sort_values st idx = Ok st' ->
  (exists x, In x (fraction_rows st idx) /\ concat x = k) ->
  (exists r i,
     filter (has_key k) (curr_frac_id_df st')
       = [set_pep_id (PepIndex i) r] /\
     find (has_key k) (sort_values Row by_q_value (fraction_rows st idx))
       = Some r /\
     In r (fraction_rows st idx) /\ concat r = k /\
     (forall x, In x (fraction_rows st idx) -> concat x = k ->
                (q_value r <= q_value x)%Q)) /\
  (forall y, In y (curr_frac_id_df st') ->
     exists x i, In x (fraction_rows st idx) /\
                 y = set_pep_id (PepIndex i) x).
Proof.
  intros Hok Hk. apply get_current_fraction_psms_ok in Hok. subst st'.
  simpl. split; [now apply resolved_key|apply resolved_from_fraction].
Qed.

(** C5 (as the code has it). The resolver's output is in ascending scan
    order, equal scans allowed, and the pep_id of a row is its 0-based
    position. *)
Theorem fraction_ascending_by_scan (st st' : State) (idx : Z) :
  get_current_fraction_psms sort_values st idx = Ok st' ->
  (forall i j x y, (i < j)%nat ->
     nth_error (curr_frac_id_df st') i = Some x ->
     nth_error (curr_frac_id_df st') j = Some y ->
     scan x <= scan y) /\
  (forall i x, nth_error (curr_frac_id_df st') i = Some x ->
               pep_id x = PepIndex i).
Proof.
  intros Hok. apply get_current_fraction_psms_ok in Hok. subst st'. simpl.
  unfold resolved.
  set (l := sort_values Row by_scan _).
  assert (Hs : StronglySorted (fun a b => (by_scan a <= by_scan b)%Q) l)
    by apply sort_values_sorts.
  split.
  - intros i j x y Hij Hi Hj. rewrite assign_pep_id_nth in Hi, Hj.
    destruct (nth_error l i) as [a|] eqn:Ei; [|discriminate].
    destruct (nth_error l j) as [b|] eqn:Ej; [|discriminate].
    injection Hi as <-. injection Hj as <-. simpl.
    rewrite Zle_Qle. exact (StronglySorted_nth _ _ Hs i j a b Hij Ei Ej).
  - intros i x Hi. rewrite assign_pep_id_nth in Hi.
    destruct (nth_error l i) as [a|]; [|discriminate].
    now injection Hi as <-.
Qed.
End Resolver.

(** With a stable sort the tie-break of the contract holds. *)
Lemma stable_sort_keeps_stable_survivor (st : State) (idx : Z) :
  keeps_stable_survivor stable_sort_values st idx.
Proof.
  intros st' k r Hok Hr.
  apply get_current_fraction_psms_ok in Hok. subst st'. simpl.
  destruct (resolved_key _ stable_sort_values_sorts st idx k)
    as (r0 & i & Hf & Hfind & _).
  { destruct Hr as (b & a & E & Hk & _). exists r. split; [|exact Hk].
    rewrite E. apply in_or_app. right. now left. }
  exists i. rewrite Hf. do 2 f_equal.
  eapply first_lowest_unique; [|exact Hr].
  now apply stable_survivor_first_lowest.
Qed.

(** ** make_master_match_list *)

Lemma make_master_match_list_ok (st st' : State) (peptide_q : Q)
    (unique_only : bool) (min_fraction : Q) :
  make_master_match_list st peptide_q unique_only min_fraction = Ok st' ->
  master_id_df st <> [] /\
  st' = set_master st
          (filter (quorum (List.length (samples st)) min_fraction)
                  (master_table st peptide_q unique_only)).
Proof.
  unfold make_master_match_list, master_table.
  destruct (master_id_df st) as [|a l] eqn:E; [discriminate|].
  rewrite filter_df_by_args_loaded. simpl bind. intros [= <-].
  split; [discriminate|reflexivity].
Qed.

Lemma make_master_match_list_total (st : State) (peptide_q : Q)
    (unique_only : bool) (min_fraction : Q) :
  master_id_df st <> [] ->
  make_master_match_list st peptide_q unique_only min_fraction =
  Ok (set_master st
        (filter (quorum (List.length (samples st)) min_fraction)
                (master_table st peptide_q unique_only))).
Proof.
  unfold make_master_match_list, master_table.
  destruct (master_id_df st) as [|a l] eqn:E; [congruence|].
  rewrite filter_df_by_args_loaded. reflexivity.
Qed.

(** The quorum test on the rounded product, within the range of the
    doubles. *)
Lemma quorum_spec (n : nat) (min_fraction : Q) (m : MasterRow) :
  let product :=
    (round_to_double (inject_Z (Z.of_nat n)) * min_fraction)%Q in
  (- DBL_OVERFLOW < product)%Q -> (product < DBL_OVERFLOW)%Q ->
  (quorum n min_fraction m = true <->
   (round_to_double product
    <= round_to_double (inject_Z (Z.of_nat (num_samples m))))%Q).
Proof.
  intros product Hlo Hhi. unfold quorum. fold product.
  destruct (Qle_bool DBL_OVERFLOW product) eqn:E1.
  { apply Qle_bool_iff in E1. exfalso. lra. }
  destruct (Qle_bool product (- DBL_OVERFLOW)) eqn:E2.
  { apply Qle_bool_iff in E2. exfalso. lra. }
  apply Qle_bool_iff.
Qed.

Lemma Qle_bool_false (x y : Q) : Qle_bool x y = false -> (y < x)%Q.
Proof.
  intros H. apply Qnot_le_lt. intros Hle. apply Qle_bool_iff in Hle.
  congruence.
Qed.

Lemma quorum_antitone (n : nat) (m1 m2 : Q) (x : MasterRow) :
  (m1 <= m2)%Q -> quorum n m2 x = true -> quorum n m1 x = true.
Proof.
  intros Hm. unfold quorum. cbv zeta.
  set (fn := round_to_double (inject_Z (Z.of_nat n))).
  assert (Hfn : (0 <= fn)%Q).
  { unfold fn, round_to_double.
    assert (H0 : (0 <= inject_Z (Z.of_nat n))%Q)
      by (change 0%Q with (inject_Z 0); rewrite <- Zle_Qle; lia).
    replace (Qle_bool 0 (inject_Z (Z.of_nat n))) with true
      by (symmetry; now apply Qle_bool_iff).
    now apply round_pos_nonneg. }
  assert (Hp : (fn * m1 <= fn * m2)%Q).
  { rewrite !(Qmult_comm fn). now apply Qmult_le_compat_r. }
  assert (Hov : (0 < DBL_OVERFLOW)%Q) by reflexivity.
  destruct (Qle_bool DBL_OVERFLOW (fn * m2)) eqn:E2; [discriminate|].
  apply Qle_bool_false in E2.
  destruct (Qle_bool DBL_OVERFLOW (fn * m1)) eqn:E1.
  { apply Qle_bool_iff in E1. exfalso. lra. }
  destruct (Qle_bool (fn * m1) (- DBL_OVERFLOW)) eqn:L1; [reflexivity|].
  apply Qle_bool_false in L1.
  destruct (Qle_bool (fn * m2) (- DBL_OVERFLOW)) eqn:L2.
  { apply Qle_bool_iff in L2. exfalso. lra. }
  rewrite !Qle_bool_iff. intros H. eapply Qle_trans; [|exact H].
  now apply round_to_double_mono.
Qed.

(** The product is rounded before the test: with five samples and the
    double nearest to 0.2 the exact product is above 1, the double product
    is 1.0, and a key found in one sample passes. *)
Example quorum_rounds_the_product :
  let min_fraction := (3602879701896397 # 18014398509481984)%Q in
  (1 < inject_Z 5 * min_fraction)%Q /\
  quorum 5 min_fraction (mkMaster "PEPTIDE_2" 1 0 0 0) = true /\
  quorum 5 (1 # 4) (mkMaster "PEPTIDE_2" 1 0 0 0) = false.
Proof. cbv zeta. repeat split; vm_compute; reflexivity. Qed.

(** Every master row kept by [make_master_match_list] passes the quorum. *)
Lemma master_rows_pass_quorum (st st' : State) (peptide_q : Q)
    (unique_only : bool) (min_fraction : Q) (m : MasterRow) :
  make_master_match_list st peptide_q unique_only min_fraction = Ok st' ->
  In m (match_across_runs_master st') ->
  quorum (List.length (samples st)) min_fraction m = true.
Proof.
  intros H Hm. apply make_master_match_list_ok in H. destruct H as [_ ->].
  simpl in Hm. now apply filter_In in Hm.
Qed.

Lemma nunique_spec (l distinct : list string) :
  NoDup distinct -> (forall x, In x distinct <-> In x l) ->
  nunique l = List.length distinct.
Proof.
  intros Hnd Hin. unfold nunique. apply Permutation_length.
  apply NoDup_Permutation; [apply NoDup_nodup|exact Hnd|].
  intros x. rewrite nodup_In. symmetry. apply Hin.
Qed.

Lemma is_integral_eq (q : Q) :
  is_integral q = true -> (inject_Z (astype_int q) == q)%Q.
Proof.
  unfold is_integral. intros H. apply Qeq_bool_iff in H. now symmetry.
Qed.

Lemma combine_map_In {A B} (g : A -> B) (l : list A) (a : A) (b : B) :
  In (a, b) (combine l (map g l)) -> b = g a.
Proof.
  induction l as [|x l IH]; simpl; [tauto|].
  intros [[= -> ->]|H]; [reflexivity|now apply IH].
Qed.

Lemma downcast_file_idx_In (tbl : list MasterRow) (m : MasterRow) :
  In m (downcast_file_idx tbl) ->
  exists m0, In m0 tbl /\ m_concat m = m_concat m0 /\
             num_samples m = num_samples m0 /\
             (m_file_idx m == m_file_idx m0)%Q.
Proof.
  unfold downcast_file_idx, to_numeric_downcast. intros H.
  apply in_map_iff in H. destruct H as ([m0 f] & <- & H). simpl.
  exists m0. split; [eapply in_combine_l; eassumption|].
  split; [reflexivity|]. split; [reflexivity|].
  destruct (forallb is_integral (map m_file_idx tbl)) eqn:E.
  - rewrite map_map in H.
    pose proof (combine_map_In _ _ _ _ H) as ->.
    apply is_integral_eq. rewrite forallb_forall in E. apply E.
    apply in_map. eapply in_combine_l; eassumption.
  - pose proof (combine_map_In _ _ _ _ H) as ->. reflexivity.
Qed.

(** The parts of the master row that are as documented: the number of
    distinct samples of the group, the median of its file indices (as a
    number), and the quorum. *)
Lemma master_rows_aggregate (st st' : State) (peptide_q : Q)
    (unique_only : bool) (min_fraction : Q) (m : MasterRow) :
  make_master_match_list st peptide_q unique_only min_fraction = Ok st' ->
  In m (match_across_runs_master st') ->
  let g := filter (has_key (m_concat m))
                  (filter (keep peptide_q unique_only) (master_id_df st)) in
  (forall distinct, NoDup distinct ->
     (forall s, In s distinct <-> exists x, In x g /\ sample x = s) ->
     num_samples m = List.length distinct) /\
  (exists f, median (map (fun x => inject_Z (file_idx x)) g) = Some f /\
             (m_file_idx m == f)%Q) /\
  quorum (List.length (samples st)) min_fraction m = true.
Proof.
  intros H Hm. pose proof (master_rows_pass_quorum _ _ _ _ _ _ H Hm) as Hq.
  apply make_master_match_list_ok in H. destruct H as [_ ->].
  simpl in Hm. apply filter_In in Hm. destruct Hm as [Hm _].
  unfold master_table in Hm. apply downcast_file_idx_In in Hm.
  destruct Hm as (m0 & Hm0 & Ek & En & Hf). cbv zeta.
  rewrite Ek, En in *. clear Ek En.
  unfold groupby_agg in Hm0. apply in_flat_map in Hm0.
  destruct Hm0 as (k & _ & Hk). unfold agg_group in Hk.
  destruct (median (map (fun x => inject_Z (file_idx x)) _)) as [f|] eqn:Ef;
    [|destruct Hk].
  destruct (median (map precursor_mz _)) as [mz|]; [|destruct Hk].
  destruct (median (map peptide_mass _)) as [pm|]; [|destruct Hk].
  destruct Hk as [<-|[]]. simpl in *.
  split; [|split; [exists f; split; [exact Ef|exact Hf]|exact Hq]].
  intros distinct Hnd Hin. apply nunique_spec; [exact Hnd|].
  intros s. rewrite Hin, in_map_iff. split; intros (x & ? & ?); eauto.
Qed.

Lemma filter_length_le {A} (f : A -> bool) (l : list A) :
  (List.length (filter f l) <= List.length l)%nat.
Proof.
  induction l as [|a l IH]; simpl; [lia|]. destruct (f a); simpl; lia.
Qed.

(** C8. Quorum monotonicity: with the records and thresholds fixed and
    m1 <= m2, the master candidates built with m2 are those of m1 that also
    pass the higher quorum, so they are among them and no more numerous. *)
Theorem quorum_monotone (st s2 : State) (peptide_q : Q) (unique_only : bool)
    (m1 m2 : Q) :
  (m1 <= m2)%Q ->
  make_master_match_list st peptide_q unique_only m2 = Ok s2 ->
  exists s1,
    make_master_match_list st peptide_q unique_only m1 = Ok s1 /\
    match_across_runs_master s2 =
      filter (quorum (List.length (samples st)) m2)
             (match_across_runs_master s1) /\
    incl (match_across_runs_master s2) (match_across_runs_master s1) /\
    (List.length (match_across_runs_master s2)
     <= List.length (match_across_runs_master s1))%nat.
Proof.
  intros Hm H2. apply make_master_match_list_ok in H2.
  destruct H2 as [Hne ->].
  eexists. split; [now apply make_master_match_list_total|].
  simpl.
  assert (E : filter (quorum (List.length (samples st)) m2)
                (master_table st peptide_q unique_only) =
              filter (quorum (List.length (samples st)) m2)
                (filter (quorum (List.length (samples st)) m1)
                   (master_table st peptide_q unique_only))).
  { rewrite filter_filter. apply filter_ext. intros a.
    destruct (quorum _ m2 a) eqn:E2.
    - now rewrite (quorum_antitone _ _ _ _ Hm E2).
    - now rewrite andb_false_r. }
  split; [exact E|]. split.
  - intros x Hx. rewrite E in Hx. now apply filter_In in Hx.
  - rewrite E. apply filter_length_le.
Qed.

(** ** The error monad *)

Lemma mapM_ok {A B} (f : A -> result B) (l : list A) (ys : list B) :
  mapM f l = Ok ys -> Forall2 (fun x y => f x = Ok y) l ys.
Proof.
  revert ys. induction l as [|a l IH]; simpl; intros ys.
  - intros [= <-]. constructor.
  - destruct (f a) as [b|e] eqn:Ea; simpl; [|discriminate].
    destruct (mapM f l) as [bs|e] eqn:El; simpl; [|discriminate].
    intros [= <-]. constructor; [exact Ea|now apply IH].
Qed.

Lemma mapM_err {A B} (f : A -> result B) (l : list A) (x : A) (e : error) :
  In x l -> f x = Err e -> exists e', mapM f l = Err e'.
Proof.
  induction l as [|a l IH]; simpl; [tauto|].
  intros [->|Hx] Hf.
  - rewrite Hf. simpl. now exists e.
  - destruct (f a) as [b|e1]; simpl; [|now exists e1].
    destruct (IH Hx Hf) as (e' & ->). simpl. now exists e'.
Qed.

Lemma Forall2_In_r {A B} (R : A -> B -> Prop) (l : list A) (l' : list B)
    (y : B) :
  Forall2 R l l' -> In y l' -> exists x, In x l /\ R x y.
Proof.
  induction 1 as [|a b l l' Hab _ IH]; simpl; [tauto|].
  intros [<-|Hy].
  - exists a. auto.
  - destruct (IH Hy) as (x & Hx & Hr). exists x. auto.
Qed.

(** ** filter_current_fraction_psms *)

Lemma list_set_In (l : list string) (x : string) : In x (list_set l) <-> In x l.
Proof.
  induction l as [|a l IH]; simpl; [tauto|].
  rewrite filter_In, IH, negb_true_iff.
  destruct (String.eqb x a) eqn:E.
  - apply String.eqb_eq in E. subst. intuition.
  - assert (a <> x) by (intros ->; rewrite String.eqb_refl in E; discriminate).
    intuition.
Qed.

Lemma strict_rows_eq (st : State) (peptide_q : Q) (unique_only : bool) :
  strict_rows st peptide_q unique_only =
  Ok (strict_set st peptide_q unique_only).
Proof.
  unfold strict_rows, strict_set. now rewrite filter_df_by_args_loaded.
Qed.

Lemma mar_row_evidence (first : Row) (cands : list MasterRow)
    (p : nat * (string * list (option Q))) (r : Row) :
  mar_row first cands p = Ok r -> evidence r = match_across_runs_ev.
Proof.
  unfold mar_row. cbv zeta.
  destruct (mar_scan (snd (snd p))) as [s|]; [|discriminate].
  cbn [bind].
  destruct (nth_error (split_on "_" (fst (snd p))) 1) as [z|];
    [|discriminate].
  cbn [bind of_option].
  destruct (int_of_str z) as [c|]; [|discriminate].
  cbn [bind of_option].
  destruct (find _ cands) as [m|]; [|discriminate].
  cbn [bind of_option].
  now intros [= <-].
Qed.

Lemma strict_set_In (st : State) (peptide_q : Q) (unique_only : bool)
    (r : Row) :
  In r (strict_set st peptide_q unique_only) ->
  evidence r = q_value_ev /\
  exists x, In x (curr_frac_id_df st) /\ r = set_evidence q_value_ev x /\
            keep peptide_q unique_only x = true.
Proof.
  unfold strict_set. rewrite in_map_iff. intros (x & <- & Hx).
  apply filter_In in Hx. split; [reflexivity|]. exists x. tauto.
Qed.

Lemma soft_rows_In (soft_threshold_q : Q) (st : State) (peptide_q : Q) (cands : list MasterRow)
    (r : Row) :
  In r (soft_rows soft_threshold_q st peptide_q cands) ->
  evidence r = soft /\
  exists x, In x (curr_frac_id_df st) /\ r = set_evidence soft x /\
            (peptide_q <= q_value x)%Q /\ (q_value x < soft_threshold_q)%Q /\
            exists m, In m cands /\ m_concat m = concat x.
Proof.
  unfold soft_rows, merge_inner. rewrite in_map_iff. intros (x & <- & Hx).
  split; [reflexivity|]. exists x.
  apply in_flat_map in Hx. destruct Hx as (x' & Hx' & Hin).
  apply in_map_iff in Hin. destruct Hin as (m & -> & Hm).
  apply filter_In in Hm. destruct Hm as [Hm Hk]. apply String.eqb_eq in Hk.
  apply filter_In in Hx'. destruct Hx' as [Hx' Hlt]. apply Qltb_lt in Hlt.
  apply filter_In in Hx'. destruct Hx' as [Hx' Hge].
  apply Qle_bool_iff in Hge. eauto 10.
Qed.

Section FilterFraction.
Variable sort_values : forall A : Type, (A -> Q) -> list A -> list A.
Variable model : Type.
Variable fit : list Q -> list Q -> option model.
Variable predict : model -> list Q -> option (list Q).
Variable soft_threshold_q : Q.

Let filter_current := filter_current_fraction_psms sort_values model fit
                        predict soft_threshold_q.
Let mar_rows := match_across_runs_rows sort_values model fit predict.

(** The function unfolded along its guards: the first row, the assertion
    on its file index, the columns of the master table. *)
Lemma filter_current_unfold (st : State) (peptide_q : Q)
    (unique_only use_soft_threshold match_across_runs : bool) :
  filter_current st peptide_q unique_only use_soft_threshold
                 match_across_runs =
  match hd_error (curr_frac_id_df st) with
  | None => Err (KeyError "file_idx[0]")
  | Some first =>
    let idx := file_idx first in
    if existsb (Z.eqb idx) (map file_idx (curr_sample_id_df st)) then
      if master_built st then
        let filtered := filtered_at_mar soft_threshold_q st peptide_q
                          unique_only use_soft_threshold idx in
        if match_across_runs then
          mar <- mar_rows st peptide_q unique_only idx
                          (candidates_at st idx) filtered ;;
          Ok (set_curr_frac_filtered st (filtered ++ mar))
        else Ok (set_curr_frac_filtered st filtered)
      else Err (AttributeError "file_idx")
    else Err AssertionError
  end.
Proof.
  unfold filter_current, filter_current_fraction_psms, filtered_at_mar,
    mar_rows, match_candidates.
  rewrite strict_rows_eq. simpl bind.
  destruct (hd_error (curr_frac_id_df st)) as [first|]; simpl; [|reflexivity].
  destruct (existsb _ _); simpl; [|reflexivity].
  destruct (master_built st); simpl; [|reflexivity].
  destruct use_soft_threshold; reflexivity.
Qed.

Lemma mar_rows_evidence (st : State) (peptide_q : Q) (unique_only : bool)
    (idx : Z) (cands : list MasterRow) (filtered rs : list Row) (r : Row) :
  mar_rows st peptide_q unique_only idx cands filtered = Ok rs ->
  In r rs -> evidence r = match_across_runs_ev.
Proof.
  unfold mar_rows, match_across_runs_rows.
  destruct (hd_error filtered) as [first|]; simpl; [|discriminate].
  destruct (mapM _ (filter _ _)) as [cols|]; simpl; [|discriminate].
  intros H Hr. apply mapM_ok in H.
  destruct (Forall2_In_r _ _ _ _ H Hr) as (p & _ & Hp).
  eapply mar_row_evidence; eassumption.
Qed.

(** The rows of the result, by label. *)
Lemma filter_current_rows (st st' : State) (peptide_q : Q)
    (unique_only use_soft_threshold match_across_runs : bool) (r : Row) :
  filter_current st peptide_q unique_only use_soft_threshold
                 match_across_runs = Ok st' ->
  In r (curr_frac_filtered_id_df st') ->
  exists first,
    hd_error (curr_frac_id_df st) = Some first /\
    (In r (strict_set st peptide_q unique_only) \/
     (use_soft_threshold = true /\
      In r (soft_rows soft_threshold_q st peptide_q
                      (candidates_at st (file_idx first)))) \/
     (match_across_runs = true /\ evidence r = match_across_runs_ev)).
Proof.
  rewrite filter_current_unfold.
  destruct (hd_error (curr_frac_id_df st)) as [first|]; [|discriminate].
  cbv zeta. destruct (existsb _ _); [|discriminate].
  destruct (master_built st); [|discriminate].
  intros H Hr. exists first. split; [reflexivity|].
  assert (Hf : forall x,
    In x (filtered_at_mar soft_threshold_q st peptide_q unique_only
            use_soft_threshold (file_idx first)) ->
    In x (strict_set st peptide_q unique_only) \/
    (use_soft_threshold = true /\
     In x (soft_rows soft_threshold_q st peptide_q
                     (candidates_at st (file_idx first))))).
  { intros x. unfold filtered_at_mar. destruct use_soft_threshold.
    - rewrite in_app_iff. tauto.
    - tauto. }
  destruct match_across_runs.
  - destruct (mar_rows _ _ _ _ _ _) as [rs|] eqn:Em; simpl in H;
      [|discriminate].
    injection H as <-. simpl in Hr. apply in_app_iff in Hr.
    destruct Hr as [Hr|Hr].
    + destruct (Hf _ Hr); tauto.
    + right. right. split; [reflexivity|].
      eapply mar_rows_evidence; eassumption.
  - injection H as <-. simpl in Hr. destruct (Hf _ Hr); tauto.
Qed.

End FilterFraction.

Lemma get_current_sample_psms_ok (st st' : State) (current_sample : string) :
  get_current_sample_psms st current_sample = Ok st' ->
  st' = set_curr_sample st
          (filter (fun x => String.eqb (sample x) current_sample)
                  (master_id_df st)).
Proof.
  unfold get_current_sample_psms, assert_.
  destruct (mem_str _ _); simpl; [|discriminate]. now intros [= <-].
Qed.

Lemma fraction_rows_file_idx (st : State) (idx : Z) (x : Row) :
  In x (fraction_rows st idx) -> file_idx x = idx.
Proof.
  unfold fraction_rows. rewrite filter_In. intros [_ H].
  now apply Z.eqb_eq in H.
Qed.

Lemma flat_map_nil {A B} (f : A -> list B) (l : list A) :
  (forall x, In x l -> f x = []) -> flat_map f l = [].
Proof.
  induction l as [|a l IH]; simpl; intros H; [reflexivity|].
  rewrite (H a), IH; auto.
Qed.

Lemma filter_nil {A} (f : A -> bool) (l : list A) :
  (forall x, In x l -> f x = false) -> filter f l = [].
Proof.
  induction l as [|a l IH]; simpl; intros H; [reflexivity|].
  rewrite (H a), IH; auto.
Qed.

Lemma mapM_err_inv {A B} (f : A -> result B) (l : list A) (e : error) :
  mapM f l = Err e -> exists x, In x l /\ f x = Err e.
Proof.
  induction l as [|a l IH]; simpl; [discriminate|].
  destruct (f a) as [b|e1] eqn:Ea; simpl.
  - destruct (mapM f l) as [bs|e2]; simpl; [discriminate|].
    intros [= <-]. destruct (IH eq_refl) as (x & Hx & Hf). eauto.
  - intros [= <-]. eauto.
Qed.

Lemma index_from_In {A} (l : list A) (i : nat) (p : nat * A) :
  In p (index_from i l) -> In (snd p) l.
Proof.
  revert i. induction l as [|a l IH]; intros i; simpl; [tauto|].
  intros [<-|H]; [now left|right; eapply IH; eassumption].
Qed.

Lemma find_m_concat (cands : list MasterRow) (k : string) :
  In k (map m_concat cands) ->
  exists m, find (fun m => String.eqb (m_concat m) k) cands = Some m.
Proof.
  intros H. apply in_map_iff in H. destruct H as (m & Hk & Hm).
  destruct (find _ cands) as [m'|] eqn:E; [now exists m'|].
  eapply find_none in E; [|exact Hm]. simpl in E.
  rewrite Hk, String.eqb_refl in E. discriminate.
Qed.

(** ** The faults of the match-across-runs block *)

Section MarFaults.
Variable sort_values : forall A : Type, (A -> Q) -> list A -> list A.
Variable model : Type.
Variable fit : list Q -> list Q -> option model.
Variable predict : model -> list Q -> option (list Q).

Lemma other_sample_df_ok (st : State) (peptide_q : Q) (unique_only : bool)
    (idx : Z) (each_sample : string) :
  exists other,
    other_sample_df sort_values st peptide_q unique_only idx each_sample
      = Ok other.
Proof.
  unfold other_sample_df. rewrite filter_df_by_args_loaded.
  eexists. reflexivity.
Qed.

Lemma peer_column_fault (st : State) (peptide_q : Q) (unique_only : bool)
    (idx : Z) (filtered : list Row) (cands : list string)
    (each_sample : string) (e : error) :
  peer_column sort_values model fit predict st peptide_q unique_only idx
              filtered cands each_sample = Err e ->
  exists w, e = ValueError w.
Proof.
  unfold peer_column.
  destruct (other_sample_df_ok st peptide_q unique_only idx each_sample)
    as (other & ->).
  cbn [bind]. cbv zeta.
  destruct (fit _ _) as [regr|]; cbn [of_option bind];
    [|intros [= <-]; eauto].
  destruct (predict regr _) as [y_hat|]; cbn [of_option bind];
    [|intros [= <-]; eauto].
  destruct (Nat.eqb _ _); cbn [bind]; [|intros [= <-]; eauto].
  destruct (predict regr _) as [preds|]; cbn [of_option bind];
    [|intros [= <-]; eauto].
  destruct (Nat.eqb _ _); cbn [bind]; [discriminate|intros [= <-]; eauto].
Qed.

Lemma mar_row_fault (first : Row) (cands : list MasterRow)
    (p : nat * (string * list (option Q))) (e : error) :
  In (fst (snd p)) (map m_concat cands) ->
  mar_row first cands p = Err e ->
  (exists w, e = ValueError w) \/ (exists w, e = IndexError w).
Proof.
  intros Hk. unfold mar_row. cbv zeta.
  unfold mar_scan.
  destruct (median _) as [m|]; cbn [of_option bind];
    [|intros [= <-]; eauto].
  destruct (nth_error _ 1) as [z|]; cbn [of_option bind];
    [|intros [= <-]; eauto].
  destruct (int_of_str z) as [c|]; cbn [of_option bind];
    [|intros [= <-]; eauto].
  destruct (find_m_concat _ _ Hk) as (m' & ->). cbn [of_option bind].
  discriminate.
Qed.

(** The block fails with the lookup error of line 279 only on an empty
    filtered frame; every other fault is a value or index error. *)
Lemma match_across_runs_rows_fault (st : State) (peptide_q : Q)
    (unique_only : bool) (idx : Z) (cands : list MasterRow)
    (filtered : list Row) (e : error) :
  match_across_runs_rows sort_values model fit predict st peptide_q
    unique_only idx cands filtered = Err e ->
  (filtered = [] /\ e = KeyError "sample[0]") \/
  (filtered <> [] /\
   ((exists w, e = ValueError w) \/ (exists w, e = IndexError w))).
Proof.
  unfold match_across_runs_rows.
  destruct filtered as [|first rest]; cbn [hd_error of_option bind].
  - intros [= <-]. now left.
  - intros H. right. split; [discriminate|].
    destruct (mapM _ (filter _ _)) as [cols|e1] eqn:Ec; cbn [bind] in H.
    + apply mapM_err_inv in H. destruct H as (p & Hp & Hrow).
      eapply mar_row_fault; [|exact Hrow].
      apply index_from_In in Hp. unfold dropna_all in Hp.
      apply filter_In in Hp. destruct Hp as [Hp _].
      unfold pred_df in Hp. apply in_map_iff in Hp.
      destruct Hp as (q & <- & Hq). simpl.
      apply index_from_In in Hq. unfold mar_candidates in Hq.
      now apply filter_In in Hq.
    + injection H as <-. apply mapM_err_inv in Ec.
      destruct Ec as (x & _ & Hx). left.
      eapply peer_column_fault; eassumption.
Qed.
End MarFaults.

Section FractionClaims.
Variable sort_values : forall A : Type, (A -> Q) -> list A -> list A.
Hypothesis sort_values_sorts : sorts sort_values.
Variable model : Type.
Variable fit : list Q -> list Q -> option model.
Variable predict : model -> list Q -> option (list Q).
Variable soft_threshold_q : Q.

Let filter_current := filter_current_fraction_psms sort_values model fit
                        predict soft_threshold_q.


(** C9. With unique_only, when every PSM of a key that has the lowest
    q-value of that key in the fraction maps to more than one protein, the
    filtered fraction has no row of that key labelled 'q_value', whatever
    other PSMs of the key the fraction holds. *)
Theorem shared_best_psm_hides_key (st st1 st2 : State) (idx : Z)
    (peptide_q : Q) (use_soft_threshold match_across_runs : bool)
    (k : string) :
  get_current_fraction_psms sort_values st idx = Ok st1 ->
  filter_current st1 peptide_q true use_soft_threshold match_across_runs
    = Ok st2 ->
  (forall x, In x (fraction_rows st idx) -> concat x = k ->
     (forall y, In y (fraction_rows st idx) -> concat y = k ->
                (q_value x <= q_value y)%Q) ->
     (1 < List.length (accessions (protein_id x)))%nat) ->
  forall r, In r (curr_frac_filtered_id_df st2) -> concat r = k ->
            evidence r <> q_value_ev.
Proof.
  intros H1 H2 Hbest r Hr Hk.
  pose proof (get_current_fraction_psms_ok _ _ _ _ H1) as E1.
  destruct (filter_current_rows sort_values model fit predict
              soft_threshold_q _ _ _ _ _ _ _ H2 Hr)
    as (first & _ & [Hs|[[_ Hs]|[_ Hs]]]).
  - exfalso. apply strict_set_In in Hs.
    destruct Hs as (_ & x & Hx & -> & Hkeep). simpl in Hk.
    apply keep_spec in Hkeep. destruct Hkeep as [_ Hone].
    specialize (Hone eq_refl).
    subst st1. simpl in Hx.
    destruct (resolved_from_fraction _ sort_values_sorts _ _ _ Hx)
      as (x0 & i0 & Hx0 & E0).
    destruct (resolved_key _ sort_values_sorts st idx k)
      as (r0 & i & Hf & _ & Hr0 & Hr0k & Hmin).
    { exists x0. split; [exact Hx0|]. now subst x. }
    assert (Hin : In x (filter (has_key k) (resolved sort_values st idx))).
    { apply filter_In. split; [exact Hx|now apply has_key_eq]. }
    rewrite Hf in Hin. destruct Hin as [<-|[]].
    simpl in Hone. specialize (Hbest r0 Hr0 Hr0k Hmin). lia.
  - apply soft_rows_In in Hs. destruct Hs as [-> _]. discriminate.
  - rewrite Hs. discriminate.
Qed.

Lemma sample_lookup_fault (st : State) (first : Row) (peptide_q : Q)
    (unique_only use_soft_threshold match_across_runs : bool) :
  hd_error (curr_frac_id_df st) = Some first ->
  filter_current st peptide_q unique_only use_soft_threshold
                 match_across_runs = Err (KeyError "sample[0]") ->
  filtered_at_mar soft_threshold_q st peptide_q unique_only
                  use_soft_threshold (file_idx first) = [].
Proof.
  intros Hfirst. unfold filter_current.
  rewrite filter_current_unfold, Hfirst. cbv zeta.
  destruct (existsb _ _); [|discriminate].
  destruct (master_built st); [|discriminate].
  destruct match_across_runs; [|discriminate].
  destruct (match_across_runs_rows _ _ _ _ _ _ _ _ _ _)
    as [rs|e] eqn:Em; cbn [bind]; [discriminate|].
  intros [= ->]. apply match_across_runs_rows_fault in Em.
  destruct Em as [[H _]|[_ [[w H]|[w H]]]]; [exact H|discriminate..].
Qed.

(** C10 (as the code has it). With match-across-runs enabled, the master
    list built and the fraction frame in place, the function fails with
    the lookup error of reading the first row's sample exactly when the
    filtered frame is empty at that point: no row passes the strict filter
    and the soft threshold adds none (it is off, or rescues no row). *)
Theorem mar_fails_on_empty_filtered_set (st : State) (first : Row)
    (peptide_q : Q) (unique_only use_soft_threshold : bool) :
  master_built st = true ->
  hd_error (curr_frac_id_df st) = Some first ->
  In (file_idx first) (map file_idx (curr_sample_id_df st)) ->
  (filter_current st peptide_q unique_only use_soft_threshold true
     = Err (KeyError "sample[0]")
   <->
   strict_set st peptide_q unique_only = [] /\
   (use_soft_threshold = true ->
    soft_rows soft_threshold_q st peptide_q
              (candidates_at st (file_idx first)) = [])).
Proof.
  intros Hbuilt Hfirst Hidx.
  unfold filter_current. rewrite filter_current_unfold, Hfirst. cbv zeta.
  replace (existsb _ _) with true.
  2:{ symmetry. apply existsb_exists. exists (file_idx first).
      split; [exact Hidx|apply Z.eqb_refl]. }
  rewrite Hbuilt.
  set (filtered := filtered_at_mar soft_threshold_q st peptide_q unique_only
                     use_soft_threshold (file_idx first)).
  assert (E : filtered = [] <->
              strict_set st peptide_q unique_only = [] /\
              (use_soft_threshold = true ->
               soft_rows soft_threshold_q st peptide_q
                         (candidates_at st (file_idx first)) = [])).
  { unfold filtered, filtered_at_mar. destruct use_soft_threshold.
    - split.
      + intros H. apply app_eq_nil in H. tauto.
      + intros [-> H]. now rewrite H.
    - split; [intros ->; split; [reflexivity|discriminate]|tauto]. }
  rewrite <- E. split.
  - intros H. apply (sample_lookup_fault st first _ _ _ true Hfirst).
    unfold filter_current. rewrite filter_current_unfold, Hfirst. cbv zeta.
    rewrite Hbuilt.
    replace (existsb _ _) with true; [exact H|].
    symmetry. apply existsb_exists. exists (file_idx first).
    split; [exact Hidx|apply Z.eqb_refl].
  - intros ->. reflexivity.
Qed.

(** Without [make_master_match_list] before it, the call stops at line
    238, whatever the flags: the frame of line 50 has no 'file_idx'. *)
Lemma filter_without_master_list (st : State) (first : Row)
    (peptide_q : Q) (unique_only use_soft_threshold match_across_runs : bool) :
  master_built st = false ->
  hd_error (curr_frac_id_df st) = Some first ->
  In (file_idx first) (map file_idx (curr_sample_id_df st)) ->
  filter_current st peptide_q unique_only use_soft_threshold
                 match_across_runs = Err (AttributeError "file_idx").
Proof.
  intros Hb Hfirst Hidx.
  unfold filter_current. rewrite filter_current_unfold, Hfirst. cbv zeta.
  replace (existsb _ _) with true; [now rewrite Hb|].
  symmetry. apply existsb_exists. exists (file_idx first).
  split; [exact Hidx|apply Z.eqb_refl].
Qed.

Lemma peer_column_no_overlap (st : State) (peptide_q : Q) (unique_only : bool)
    (idx : Z) (filtered : list Row) (cands : list string) (peer : string)
    (other : list Row) :
  other_sample_df sort_values st peptide_q unique_only idx peer = Ok other ->
  (forall o f, In o other -> In f filtered -> concat o <> concat f) ->
  fit [] [] = None ->
  peer_column sort_values model fit predict st peptide_q unique_only idx
              filtered cands peer = Err (ValueError "fit").
Proof.
  intros Ho Hdisj Hfit. unfold peer_column. rewrite Ho. cbn [bind].
  assert (E : compare_df sort_values other filtered = []).
  { unfold compare_df. rewrite flat_map_nil.
    - now apply sorts_nil.
    - intros o Hin. rewrite filter_nil; [reflexivity|].
      intros f Hf. destruct (has_key (concat o) f) eqn:Ek; [|reflexivity].
      apply has_key_eq in Ek. exfalso. eapply Hdisj; eauto. }
  rewrite E. simpl. rewrite Hfit. reflexivity.
Qed.

(** C2 (as the code has it). The peer loop has no guard: for a peer whose
    confident rows share no key with the filtered rows of the current
    fraction the regressor is fitted on an empty training set, and when the
    regressor rejects it the whole call fails; the peer is not skipped. *)
Theorem peer_without_overlap_not_skipped (st : State) (first cur : Row)
    (peptide_q : Q) (unique_only use_soft_threshold : bool)
    (peer : string) (other : list Row) :
  hd_error (curr_frac_id_df st) = Some first ->
  hd_error (filtered_at_mar soft_threshold_q st peptide_q unique_only
              use_soft_threshold (file_idx first)) = Some cur ->
  In peer (map sample (master_id_df st)) ->
  peer <> sample cur ->
  other_sample_df sort_values st peptide_q unique_only (file_idx first) peer
    = Ok other ->
  (forall o f, In o other ->
     In f (filtered_at_mar soft_threshold_q st peptide_q unique_only
             use_soft_threshold (file_idx first)) ->
     concat o <> concat f) ->
  fit [] [] = None ->
  exists e,
    filter_current st peptide_q unique_only use_soft_threshold true = Err e.
Proof.
  intros Hfirst Hcur Hpeer Hne Ho Hdisj Hfit.
  unfold filter_current. rewrite filter_current_unfold, Hfirst. cbv zeta.
  destruct (existsb _ _); [|now exists AssertionError].
  destruct (master_built st); [|now eexists].
  unfold match_across_runs_rows. rewrite Hcur. cbn [of_option bind].
  assert (Hin : In peer
    (filter (fun s => negb (String.eqb s (sample cur)))
            (list_set (map sample (master_id_df st))))).
  { apply filter_In. split.
    - apply list_set_In. exact Hpeer.
    - apply negb_true_iff.
      destruct (String.eqb peer (sample cur)) eqn:E; [|reflexivity].
      apply String.eqb_eq in E. contradiction. }
  destruct (mapM_err _ _ _ _ Hin
    (peer_column_no_overlap st peptide_q unique_only (file_idx first) _
       (mar_candidates (candidates_at st (file_idx first))
          (filtered_at_mar soft_threshold_q st peptide_q unique_only
             use_soft_threshold (file_idx first)))
       peer other Ho Hdisj Hfit)) as (e' & He').
  rewrite He'. cbn [bind]. now exists e'.
Qed.

End FractionClaims.

(* ================================================================== *)
(** * The claims on the small project *)

(** ** Confidence filter *)

(** The uniqueness scenario: a row with 'protein id' "P1,P2" is excluded
    with unique_only and retained without. *)
Example uniqueness_scenario :
  let x := psm "E" 0 100 "PEPTIDE" 2 (1 # 1000) "P1,P2" in
  filter_df_by_args (loaded [x]) (1 # 100) true = Ok (loaded []) /\
  filter_df_by_args (loaded [x]) (1 # 100) false = Ok (loaded [x]).
Proof. split; reflexivity. Qed.

(** A frame without the q-value column passes through. *)
Example missing_q_value_column :
  let df := mkDF ["scan"; "protein id"; "concat"] rows_E in
  filter_df_by_args df (1 # 100) false = Ok df.
Proof. reflexivity. Qed.

Lemma filter_df_by_args_retains_witness :
  exists df',
    filter_df_by_args (loaded rows_E) (1 # 100) true = Ok df' /\
    columns df' = columns (loaded rows_E) /\
    rows df' = filter (retainedb (loaded rows_E) (1 # 100) true) rows_E /\
    (forall x, In x (rows df') <->
               In x rows_E /\ retained (loaded rows_E) (1 # 100) true x) /\
    (has_column "percolator q-value" (loaded rows_E) = false ->
     true = false -> df' = loaded rows_E).
Proof.
  apply (filter_df_by_args_retains (loaded rows_E) (1 # 100) true).
  reflexivity.
Defined.

(** ** Master candidates *)

Lemma quorum_monotone_witness :
  exists s1,
    make_master_match_list (project ["A"; "B"; "C"]
                              (rows_A ++ rows_B ++ rows_C))
                           (1 # 100) false (1 # 4) = Ok s1 /\
    [ mkMaster "MARPEP_3" 2 0 0 0; mkMaster "SEQA_2" 2 0 0 0;
      mkMaster "SEQB_2" 2 0 0 0 ] =
      filter (quorum 3 (1 # 2)) (match_across_runs_master s1) /\
    incl [ mkMaster "MARPEP_3" 2 0 0 0; mkMaster "SEQA_2" 2 0 0 0;
      mkMaster "SEQB_2" 2 0 0 0 ]
         (match_across_runs_master s1) /\
    (3 <= List.length (match_across_runs_master s1))%nat.
Proof.
  apply (quorum_monotone
           (project ["A"; "B"; "C"] (rows_A ++ rows_B ++ rows_C))
           (set_master (project ["A"; "B"; "C"] (rows_A ++ rows_B ++ rows_C))
              [ mkMaster "MARPEP_3" 2 0 0 0; mkMaster "SEQA_2" 2 0 0 0;
      mkMaster "SEQB_2" 2 0 0 0 ])
           (1 # 100) false (1 # 4) (1 # 2)).
  - vm_compute. discriminate.
  - vm_compute. reflexivity.
Defined.

(** C7. A key confidently identified in fraction 0 of one sample and in
    fraction 1 of another gets the file index 1/2: the median is not
    turned into an integer, and the candidate belongs to neither
    fraction. *)
Theorem median_file_idx_not_an_integer :
  exists st',
    make_master_match_list (project ["G"; "H"] (rows_G ++ rows_H))
                           (1 # 100) true (1 # 4) = Ok st' /\
    match_across_runs_master st' = [ mkMaster "PEPTIDE_2" 2 (1 # 2) 0 0 ] /\
    (forall z : Z, ~ (1 # 2 == inject_Z z)%Q) /\
    candidates_at st' 0 = [] /\ candidates_at st' 1 = [].
Proof.
  eexists. split; [vm_compute; reflexivity|].
  split; [reflexivity|]. split; [|split; reflexivity].
  intros z H. unfold Qeq in H. simpl in H. lia.
Qed.

(** ** Per-fraction resolver *)

(** The quicksort model sorts: twenty-five keys, past the insertion-sort
    threshold. *)
Example aquicksort_sorts_25 :
  let v := map inject_Z
             [5; 3; 9; 1; 1; 7; 2; 8; 6; 4; 0; 11; 15; 13; 12; 14; 10; 20;
              19; 18; 17; 16; 3; 3; 3] in
  map (fun i => nth i v 0%Q) (NumpySort.aquicksort v) =
  map inject_Z
      [0; 1; 1; 2; 3; 3; 3; 3; 4; 5; 6; 7; 8; 9; 10; 11; 12; 13; 14; 15; 16;
       17; 18; 19; 20].
Proof. vm_compute. reflexivity. Qed.

(** Ties keep their order up to sixteen rows; the first partition step
    is that of seventeen rows. *)
Example aquicksort_ties_16_17 :
  NumpySort.aquicksort (repeat (1 # 1000)%Q 16) = seq 0 16 /\
  NumpySort.aquicksort (repeat (1 # 1000)%Q 17)
    = [0; 14; 13; 12; 11; 10; 9; 15; 8; 6; 5; 4; 3; 2; 1; 7; 16]%nat.
Proof. split; vm_compute; reflexivity. Qed.

Lemma dedup_keeps_first_after_q_sort_witness :
  (exists r i,
     filter (has_key "PEPTIDE_2")
            (resolved stable_sort_values (sample_loaded "E" rows_E) 0)
       = [set_pep_id (PepIndex i) r] /\
     find (has_key "PEPTIDE_2")
          (stable_sort_values Row by_q_value
             (fraction_rows (sample_loaded "E" rows_E) 0)) = Some r /\
     In r (fraction_rows (sample_loaded "E" rows_E) 0) /\
     concat r = "PEPTIDE_2" /\
     (forall x, In x (fraction_rows (sample_loaded "E" rows_E) 0) ->
                concat x = "PEPTIDE_2" -> (q_value r <= q_value x)%Q)) /\
  (forall y,
     In y (resolved stable_sort_values (sample_loaded "E" rows_E) 0) ->
     exists x i, In x (fraction_rows (sample_loaded "E" rows_E) 0) /\
                 y = set_pep_id (PepIndex i) x).
Proof.
  apply (dedup_keeps_first_after_q_sort stable_sort_values
           stable_sort_values_sorts (sample_loaded "E" rows_E)
           (set_curr_frac (sample_loaded "E" rows_E)
              (resolved stable_sort_values (sample_loaded "E" rows_E) 0))
           0 "PEPTIDE_2").
  - reflexivity.
  - exists (psm "E" 0 100 "PEPTIDE" 2 (1 # 1000) "P1,P2").
    split; [left; reflexivity|reflexivity].
Defined.

(** C4, the tie-break as stated, fails under the default sort.  Sample T
    has eighteen PSMs of equal q-value, the second (scan 101) and the
    sixteenth (scan 115) of the same key: quicksort's partition step moves
    the sixteenth before the second, which survives in its place. *)
Lemma tie_survivor_not_first_in_source :
  NumpySort.aquicksort (map by_q_value rows_T)
    = [0; 15; 14; 13; 12; 11; 10; 9; 8; 7; 6; 5; 4; 3; 2; 1; 16; 17]%nat /\
  (exists st',
     get_current_fraction_psms NumpySort.sort_values
       (sample_loaded "T" rows_T) 0 = Ok st' /\
     filter (has_key "PEPTIDE_2") (curr_frac_id_df st')
       = [set_pep_id (PepIndex 14)
            (psm "T" 0 115 "PEPTIDE" 2 (1 # 1000) "P1")]) /\
  first_lowest (fraction_rows (sample_loaded "T" rows_T) 0) "PEPTIDE_2"
               (psm "T" 0 101 "PEPTIDE" 2 (1 # 1000) "P1") /\
  ~ keeps_stable_survivor NumpySort.sort_values (sample_loaded "T" rows_T) 0.
Proof.
  assert (Hfirst : first_lowest (fraction_rows (sample_loaded "T" rows_T) 0)
                     "PEPTIDE_2" (psm "T" 0 101 "PEPTIDE" 2 (1 # 1000) "P1")).
  { apply stable_survivor_first_lowest. vm_compute. reflexivity. }
  split; [vm_compute; reflexivity|].
  split; [eexists; split; vm_compute; reflexivity|].
  split; [exact Hfirst|].
  intros H.
  destruct (H (set_curr_frac (sample_loaded "T" rows_T)
                 (resolved NumpySort.sort_values (sample_loaded "T" rows_T) 0))
              "PEPTIDE_2" (psm "T" 0 101 "PEPTIDE" 2 (1 # 1000) "P1"))
    as (i & Hi).
  - reflexivity.
  - exact Hfirst.
  - vm_compute in Hi. discriminate.
Qed.

Lemma fraction_ascending_by_scan_witness :
  (forall i j x y, (i < j)%nat ->
     nth_error (resolved stable_sort_values (sample_loaded "F" rows_F) 0) i
       = Some x ->
     nth_error (resolved stable_sort_values (sample_loaded "F" rows_F) 0) j
       = Some y ->
     scan x <= scan y) /\
  (forall i x,
     nth_error (resolved stable_sort_values (sample_loaded "F" rows_F) 0) i
       = Some x ->
     pep_id x = PepIndex i).
Proof.
  apply (fraction_ascending_by_scan stable_sort_values
           stable_sort_values_sorts (sample_loaded "F" rows_F)
           (set_curr_frac (sample_loaded "F" rows_F)
              (resolved stable_sort_values (sample_loaded "F" rows_F) 0))
           0).
  reflexivity.
Defined.

(** C5, strictness, fails: sample F has two peptides identified from scan
    100, and both rows are in the output. *)
Lemma equal_scans_not_strictly_ascending :
  exists st',
    get_current_fraction_psms NumpySort.sort_values
      (sample_loaded "F" rows_F) 0 = Ok st' /\
    map (fun x => (concat x, scan x, pep_id x)) (curr_frac_id_df st')
      = [("SEQA_2", 100, PepIndex 0); ("SEQB_3", 100, PepIndex 1)] /\
    ~ strictly_ascending_by_scan (curr_frac_id_df st').
Proof.
  eexists. split; [vm_compute; reflexivity|]. split; [reflexivity|].
  intros H.
  specialize (H 0%nat 1%nat _ _ (Nat.lt_0_1) eq_refl eq_refl).
  vm_compute in H. discriminate.
Qed.

(** ** Match across runs: the aggregated scan *)

Lemma mar_scan_spec (cells : list (option Q)) (z : Z) :
  mar_scan cells = Ok z <->
  exists m, median (not_nan cells) = Some m /\ z = astype_int m.
Proof.
  unfold mar_scan. destruct (median (not_nan cells)) as [m|]; simpl.
  - split.
    + intros [= <-]. now exists m.
    + intros (m' & [= <-] & ->). reflexivity.
  - split; [discriminate|]. intros (m & H & _). discriminate.
Qed.

(** The scenario of the contract: peers predicting 100 and 104 give 102. *)
Example mar_scan_100_104 : mar_scan [Some 100%Q; Some 104%Q] = Ok 102.
Proof. reflexivity. Qed.

(** C1. The aggregated scan is the median truncated, not rounded: peer
    predictions 100 and 103.5 have the median 101.75, whose nearest integer
    is 102, and the synthesized row gets scan 101. *)
Theorem mar_scan_truncates_median :
  median (not_nan [Some 100%Q; Some (207 # 2)]) = Some (407 # 4) /\
  mar_scan [Some 100%Q; Some (207 # 2)] = Ok 101 /\
  (exists r,
     mar_row (psm "A" 0 100 "SEQA" 2 (1 # 1000) "P1") master_AC
             (0%nat, ("PEPTIDE_2", [Some 100%Q; Some (207 # 2)])) = Ok r /\
     scan r = 101 /\ evidence r = match_across_runs_ev) /\
  round_half_even (407 # 4) = 102 /\
  ~ nearest_integer (407 # 4) 101.
Proof.
  split; [reflexivity|]. split; [reflexivity|].
  split; [eexists; split; [reflexivity|split; reflexivity]|].
  split; [reflexivity|].
  intros H. specialize (H 102). vm_compute in H. now apply H.
Qed.

(** ** The filtered fraction *)

(** Sample A, fraction 0, in the project of A and C: two strict rows, the
    rescued PEPTIDE_2 and the synthesized MARPEP_3. *)
Example filtered_fraction_A :
  exists st3 st4,
    load_fraction NumpySort.sort_values project_AC (1 # 100) false (1 # 4)
                  "A" 0 = Ok st3 /\
    filter_with_nn NumpySort.sort_values st3 (1 # 100) false true true
      = Ok st4 /\
    map (fun x => (concat x, scan x, pep_id x, evidence x))
        (curr_frac_filtered_id_df st4)
      = [ ("SEQA_2", 100, PepIndex 0, q_value_ev);
          ("SEQB_2", 200, PepIndex 2, q_value_ev);
          ("PEPTIDE_2", 150, PepIndex 1, soft);
          ("MARPEP_3", 150, Matched 0, match_across_runs_ev) ].
Proof.
  eexists. eexists. split; [vm_compute; reflexivity|].
  split; vm_compute; reflexivity.
Qed.


Lemma shared_best_psm_hides_key_witness :
  exists st1 st2,
    get_current_fraction_psms stable_sort_values (sample_loaded "E" rows_E) 0
      = Ok st1 /\
    filter_with_nn stable_sort_values st1 (1 # 100) true true false
      = Ok st2 /\
    map (fun x => (concat x, evidence x)) (curr_frac_filtered_id_df st2)
      = [("SEQA_2", q_value_ev)] /\
    forall r, In r (curr_frac_filtered_id_df st2) ->
              concat r = "PEPTIDE_2" -> evidence r <> q_value_ev.
Proof.
  eexists. eexists.
  split; [vm_compute; reflexivity|].
  split; [vm_compute; reflexivity|].
  split; [reflexivity|].
  eapply (shared_best_psm_hides_key stable_sort_values
            stable_sort_values_sorts NearestNeighbour.model
            NearestNeighbour.fit NearestNeighbour.predict
            example_soft_threshold_q (sample_loaded "E" rows_E) _ _ 0
            (1 # 100) true false "PEPTIDE_2").
  - vm_compute. reflexivity.
  - vm_compute. reflexivity.
  - intros x Hx Hk Hmin. simpl in Hx.
    destruct Hx as [<-|[<-|[<-|[]]]].
    + vm_compute. lia.
    + exfalso.
      specialize (Hmin (psm "E" 0 100 "PEPTIDE" 2 (1 # 1000) "P1,P2")
                       (or_introl eq_refl) eq_refl).
      vm_compute in Hmin. now apply Hmin.
    + discriminate.
Defined.

Lemma mar_fails_on_empty_filtered_set_witness :
  exists st3,
    load_fraction stable_sort_values project_DC (1 # 100) false (1 # 4) "D" 0
      = Ok st3 /\
    (filter_with_nn stable_sort_values st3 (1 # 100) false false true
       = Err (KeyError "sample[0]")
     <->
     strict_set st3 (1 # 100) false = [] /\
     (false = true ->
      soft_rows example_soft_threshold_q st3 (1 # 100)
                (candidates_at st3 0) = [])) /\
    filter_with_nn stable_sort_values st3 (1 # 100) false false true
      = Err (KeyError "sample[0]").
Proof.
  eexists. split; [vm_compute; reflexivity|].
  split; [|vm_compute; reflexivity].
  apply (mar_fails_on_empty_filtered_set stable_sort_values
           NearestNeighbour.model NearestNeighbour.fit
           NearestNeighbour.predict example_soft_threshold_q _
           (set_pep_id (PepIndex 0)
              (psm "D" 0 150 "PEPTIDE" 2 (2 # 100) "P3"))
           (1 # 100) false false).
  - reflexivity.
  - reflexivity.
  - vm_compute. tauto.
Defined.

(** C10 as stated fails: in sample D no row passes the strict filter, the
    soft threshold rescues PEPTIDE_2, and the match-across-runs block reads
    the sample from that row and synthesizes its rows. *)
Lemma soft_row_feeds_mar_without_strict_rows :
  exists st3 st4,
    load_fraction NumpySort.sort_values project_DC (1 # 100) false (1 # 4)
                  "D" 0 = Ok st3 /\
    strict_set st3 (1 # 100) false = [] /\
    filter_with_nn NumpySort.sort_values st3 (1 # 100) false true true
      = Ok st4 /\
    map (fun x => (concat x, sample x, evidence x))
        (curr_frac_filtered_id_df st4)
      = [ ("PEPTIDE_2", "D", soft);
          ("MARPEP_3", "D", match_across_runs_ev);
          ("SEQA_2", "D", match_across_runs_ev);
          ("SEQB_2", "D", match_across_runs_ev) ] /\
    (forall (model : Type) (fit : list Q -> list Q -> option model)
            (predict : model -> list Q -> option (list Q)),
       filter_current_fraction_psms NumpySort.sort_values model fit predict
         example_soft_threshold_q st3 (1 # 100) false true true
       <> Err (KeyError "sample[0]")).
Proof.
  eexists. eexists. split; [vm_compute; reflexivity|].
  split; [reflexivity|]. split; [vm_compute; reflexivity|].
  split; [vm_compute; reflexivity|].
  intros model fit predict H.
  match type of H with
  | filter_current_fraction_psms _ _ _ _ _ ?st _ _ _ _ = _ =>
    assert (Hfirst : hd_error (curr_frac_id_df st)
                     = Some (set_pep_id (PepIndex 0)
                               (psm "D" 0 150 "PEPTIDE" 2 (2 # 100) "P3")))
      by reflexivity
  end.
  apply (sample_lookup_fault _ _ _ _ _ _ _ _ _ _ _ Hfirst) in H.
  vm_compute in H. discriminate.
Qed.

Lemma peer_without_overlap_not_skipped_witness :
  exists st3,
    load_fraction stable_sort_values project_ABC (1 # 100) false (1 # 4) "A" 0
      = Ok st3 /\
    exists e,
      filter_with_nn stable_sort_values st3 (1 # 100) false true true = Err e.
Proof.
  eexists. split; [vm_compute; reflexivity|].
  eapply (peer_without_overlap_not_skipped stable_sort_values
            stable_sort_values_sorts NearestNeighbour.model
            NearestNeighbour.fit NearestNeighbour.predict
            example_soft_threshold_q _ _ _ (1 # 100) false true "B").
  - reflexivity.
  - reflexivity.
  - vm_compute. tauto.
  - discriminate.
  - vm_compute. reflexivity.
  - intros o f Ho Hf. vm_compute in Ho, Hf.
    destruct Ho as [<-|[<-|[]]]; destruct Hf as [<-|[<-|[<-|[]]]];
      discriminate.
  - reflexivity.
Defined.

(** C2 as stated fails: peer B shares no key with the filtered rows of
    sample A, and the call ends in the regressor's fault instead of the
    rows that peer C alone gives. *)
Lemma zero_overlap_peer_aborts_mar :
  exists st3 other,
    load_fraction NumpySort.sort_values project_ABC (1 # 100) false (1 # 4)
                  "A" 0 = Ok st3 /\
    other_sample_df NumpySort.sort_values st3 (1 # 100) false 0 "B"
      = Ok other /\
    map concat other = ["MARPEP_3"; "OTHER_2"] /\
    map concat (filtered_at_mar example_soft_threshold_q st3 (1 # 100)
                  false true 0)
      = ["SEQA_2"; "SEQB_2"; "PEPTIDE_2"] /\
    filter_with_nn NumpySort.sort_values st3 (1 # 100) false true true
      = Err (ValueError "fit").
Proof.
  eexists. eexists. split; [vm_compute; reflexivity|].
  split; [vm_compute; reflexivity|].
  split; [reflexivity|]. split; vm_compute; reflexivity.
Qed.

(* ================================================================== *)
(** * Further properties of the reader *)

(** ** filter_df_by_args *)

Lemma filter_df_by_args_eq (df : DataFrame) (peptide_q : Q)
    (unique_only : bool) :
  filter_df_by_args df peptide_q unique_only =
  if unique_only && negb (has_column "protein id" df)
  then Err (KeyError "protein id")
  else Ok (mkDF (columns df)
                (filter (retainedb df peptide_q unique_only) (rows df))).
Proof.
  destruct df as [cols rs]. unfold filter_df_by_args, retainedb, has_column.
  simpl.
  destruct (mem_str "percolator q-value" cols) eqn:Hq;
    destruct unique_only; simpl;
    try destruct (mem_str "protein id" cols); simpl; try reflexivity;
    unfold with_rows; simpl; f_equal; f_equal.
  all: try (now rewrite filter_filter).
  all: try (apply filter_ext; intros a; now rewrite andb_true_r).
  all: symmetry; now apply filter_all.
Qed.

Lemma retainedb_columns (df df' : DataFrame) (peptide_q : Q)
    (unique_only : bool) (x : Row) :
  columns df' = columns df ->
  retainedb df' peptide_q unique_only x = retainedb df peptide_q unique_only x.
Proof. intros E. unfold retainedb, has_column. now rewrite E. Qed.

Lemma retainedb_weaken (df : DataFrame) (q1 q2 : Q) (u1 u2 : bool) (x : Row) :
  (q1 <= q2)%Q -> (u2 = true -> u1 = true) ->
  retainedb df q1 u1 x = true -> retainedb df q2 u2 x = true.
Proof.
  intros Hq Hu. rewrite !retainedb_spec. unfold retained.
  intros [H1 H2]. split.
  - intros Hc. eapply Qlt_le_trans; [now apply H1|exact Hq].
  - intros E. apply H2. now apply Hu.
Qed.

Lemma filter_filter_weaker {A} (f g : A -> bool) (l : list A) :
  (forall x, f x = true -> g x = true) ->
  filter f (filter g l) = filter f l.
Proof.
  intros H. rewrite filter_filter. apply filter_ext. intros a.
  destruct (f a) eqn:E; [now rewrite (H a E)|now rewrite andb_false_r].
Qed.

(** X1. Filtering is idempotent: a frame the filter returned passes the
    same filter unchanged. *)
Theorem filter_df_by_args_idempotent (df df' : DataFrame) (peptide_q : Q)
    (unique_only : bool) :
  filter_df_by_args df peptide_q unique_only = Ok df' ->
  filter_df_by_args df' peptide_q unique_only = Ok df'.
Proof.
  rewrite !filter_df_by_args_eq.
  destruct (unique_only && negb (has_column "protein id" df)) eqn:E;
    [discriminate|].
  intros [= <-]. unfold has_column in *. simpl. rewrite E. do 2 f_equal.
  rewrite (filter_ext _ (retainedb df peptide_q unique_only))
    by (intros a; now apply retainedb_columns).
  now apply filter_filter_weaker.
Qed.

(** X2. A stricter filter refines a looser one: with q1 <= q2, and
    uniqueness asked by the stricter filter whenever the looser asks it,
    filtering at (q1, u1) the output of the filter at (q2, u2) gives what
    filtering the input at (q1, u1) gives. *)
Theorem filter_df_by_args_refines (df d1 : DataFrame) (q1 q2 : Q)
    (u1 u2 : bool) :
  (q1 <= q2)%Q -> (u2 = true -> u1 = true) ->
  filter_df_by_args df q1 u1 = Ok d1 ->
  exists d2,
    filter_df_by_args df q2 u2 = Ok d2 /\
    filter_df_by_args d2 q1 u1 = Ok d1 /\
    incl (rows d1) (rows d2).
Proof.
  intros Hq Hu. rewrite !filter_df_by_args_eq.
  destruct (u1 && negb (has_column "protein id" df)) eqn:E1; [discriminate|].
  intros [= <-].
  assert (E2 : u2 && negb (has_column "protein id" df) = false).
  { destruct u2; [|reflexivity]. now rewrite (Hu eq_refl) in E1. }
  rewrite E2. eexists. split; [reflexivity|].
  rewrite filter_df_by_args_eq. unfold has_column in *. simpl. rewrite E1.
  split.
  - do 2 f_equal.
    rewrite (filter_ext _ (retainedb df q1 u1))
      by (intros a; now apply retainedb_columns).
    apply filter_filter_weaker. intros x. now apply retainedb_weaken.
  - intros x Hx. apply filter_In in Hx. apply filter_In.
    split; [tauto|]. eapply retainedb_weaken; [exact Hq|exact Hu|tauto].
Qed.

(** ** make_master_match_list *)

Lemma insert_perm_gen {A} (leb : A -> A -> bool) (x : A) (l : list A) :
  Permutation (x :: l) (insert leb x l).
Proof.
  induction l as [|y t IH]; simpl; [reflexivity|].
  destruct (leb x y); [reflexivity|].
  rewrite perm_swap. now apply perm_skip.
Qed.

Lemma isort_perm_gen {A} (leb : A -> A -> bool) (l : list A) :
  Permutation l (isort leb l).
Proof.
  induction l as [|x t IH]; simpl; [reflexivity|].
  rewrite <- insert_perm_gen. now apply perm_skip.
Qed.

Lemma group_keys_NoDup (rs : list Row) : NoDup (group_keys rs).
Proof.
  unfold group_keys. eapply Permutation_NoDup; [apply isort_perm_gen|].
  apply NoDup_nodup.
Qed.

Lemma group_keys_In (rs : list Row) (k : string) :
  In k (group_keys rs) <-> In k (keys rs).
Proof.
  unfold group_keys, keys. split; intros H.
  - eapply Permutation_in in H; [|symmetry; apply isort_perm_gen].
    now apply nodup_In in H.
  - eapply Permutation_in; [apply isort_perm_gen|]. now apply nodup_In.
Qed.

Lemma median_nil_iff (l : list Q) : median l = None <-> l = [].
Proof.
  unfold median.
  assert (E : List.length (isort Qle_bool l) = List.length l).
  { symmetry. apply Permutation_length, isort_perm_gen. }
  cbv zeta. rewrite E. destruct l as [|a l]; [simpl; tauto|].
  cbn [List.length]. split; [|discriminate].
  destruct (Nat.even (S (List.length l))); discriminate.
Qed.

(** The group of a key has rows exactly when the group-by makes a row. *)
Lemma agg_group_rows (rs : list Row) (k : string) :
  match agg_group rs k with
  | [] => filter (has_key k) rs = []
  | m :: rest =>
    rest = [] /\ m_concat m = k /\ filter (has_key k) rs <> [] /\
    num_samples m = nunique (map sample (filter (has_key k) rs))
  end.
Proof.
  unfold agg_group. set (g := filter (has_key k) rs).
  destruct g as [|x g'] eqn:Eg.
  - reflexivity.
  - destruct (median (map (fun x => inject_Z (file_idx x)) (x :: g')))
      as [f|] eqn:E1; [|apply median_nil_iff in E1; discriminate].
    destruct (median (map precursor_mz (x :: g')))
      as [mz|] eqn:E2; [|apply median_nil_iff in E2; discriminate].
    destruct (median (map peptide_mass (x :: g')))
      as [pm|] eqn:E3; [|apply median_nil_iff in E3; discriminate].
    simpl. repeat split. discriminate.
Qed.

Lemma groupby_agg_keys (rs : list Row) :
  map m_concat (groupby_agg rs) = group_keys rs.
Proof.
  unfold groupby_agg.
  assert (H : forall ks, (forall k, In k ks -> In k (keys rs)) ->
                map m_concat (flat_map (agg_group rs) ks) = ks).
  { induction ks as [|k ks IH]; intros Hin; simpl; [reflexivity|].
    rewrite map_app, IH by (intros; apply Hin; now right).
    pose proof (agg_group_rows rs k) as Hk.
    destruct (agg_group rs k) as [|m rest].
    - exfalso. assert (Hk' : In k (keys rs)) by (apply Hin; now left).
      unfold keys in Hk'. apply in_map_iff in Hk'.
      destruct Hk' as (x & Hx & Hxin).
      assert (In x (filter (has_key k) rs)).
      { apply filter_In. split; [exact Hxin|now apply has_key_eq]. }
      rewrite Hk in H. destruct H.
    - destruct Hk as (-> & Hk1 & _). simpl. now rewrite Hk1. }
  apply H. intros k. apply group_keys_In.
Qed.

Lemma to_numeric_downcast_length (col : list Q) :
  List.length (to_numeric_downcast col) = List.length col.
Proof.
  unfold to_numeric_downcast. destruct (forallb _ _); [|reflexivity].
  apply length_map.
Qed.

Lemma downcast_file_idx_keys (tbl : list MasterRow) :
  map m_concat (downcast_file_idx tbl) = map m_concat tbl /\
  map num_samples (downcast_file_idx tbl) = map num_samples tbl.
Proof.
  unfold downcast_file_idx.
  assert (H : forall col, List.length col = List.length tbl ->
    map m_concat (map (fun p => set_m_file_idx (snd p) (fst p))
                      (combine tbl col)) = map m_concat tbl /\
    map num_samples (map (fun p => set_m_file_idx (snd p) (fst p))
                         (combine tbl col)) = map num_samples tbl).
  { induction tbl as [|m tbl IH]; intros [|c col] E; simpl in *;
      try discriminate; [split; reflexivity|].
    destruct (IH col) as [-> ->]; [lia|]. split; reflexivity. }
  apply H. rewrite to_numeric_downcast_length. apply length_map.
Qed.

(** A mask keeps a key column free of repetitions. *)
Lemma NoDup_map_filter {Rw K : Type} (rows : list Rw) (key : Rw -> K)
    (mask : Rw -> bool) (Hkeys : NoDup (map key rows)) :
  NoDup (map key (filter mask rows)).
Proof.
  induction rows as [|a l IH]; simpl in *; [constructor|].
  inversion Hkeys as [|? ? Hn Hd]; subst.
  destruct (mask a); simpl; [|now apply IH].
  constructor; [|now apply IH].
  intros Hin. apply Hn. apply in_map_iff in Hin.
  destruct Hin as (x & <- & Hx). apply in_map. now apply filter_In in Hx.
Qed.

Lemma master_table_keys (st : State) (peptide_q : Q) (unique_only : bool) :
  map m_concat (master_table st peptide_q unique_only) =
  group_keys (filter (keep peptide_q unique_only) (master_id_df st)).
Proof.
  unfold master_table.
  destruct (downcast_file_idx_keys
              (groupby_agg (filter (keep peptide_q unique_only)
                                   (master_id_df st)))) as [-> _].
  apply groupby_agg_keys.
Qed.

(** X3. The master list is built exactly when the record store has rows:
    on an empty store the call raises the bare exception; otherwise it
    succeeds (the uniqueness filter cannot fail on the store) and changes
    nothing but the master table, whose keys are keys of the store. *)
Theorem make_master_match_list_outcome (st : State) (peptide_q : Q)
    (unique_only : bool) (min_fraction : Q) :
  (master_id_df st = [] /\
   make_master_match_list st peptide_q unique_only min_fraction
     = Err Exception_) \/
  (master_id_df st <> [] /\
   exists tbl,
     make_master_match_list st peptide_q unique_only min_fraction
       = Ok (set_master st tbl) /\
     incl (map m_concat tbl) (keys (master_id_df st))).
Proof.
  destruct (master_id_df st) as [|a l] eqn:E.
  - left. split; [reflexivity|].
    unfold make_master_match_list. now rewrite E.
  - right. split; [discriminate|]. eexists. split.
    + apply make_master_match_list_total. congruence.
    + intros k Hk. apply in_map_iff in Hk. destruct Hk as (m & <- & Hm).
      apply filter_In in Hm. destruct Hm as [Hm _].
      apply (in_map m_concat) in Hm. rewrite master_table_keys in Hm.
      apply group_keys_In in Hm. unfold keys in *.
      apply in_map_iff in Hm. destruct Hm as (x & <- & Hx).
      apply filter_In in Hx. rewrite E in Hx. apply in_map. tauto.
Qed.

Lemma master_keys_distinct_lemma (st st' : State) (peptide_q : Q)
    (unique_only : bool) (min_fraction : Q) :
  make_master_match_list st peptide_q unique_only min_fraction = Ok st' ->
  NoDup (map m_concat (match_across_runs_master st')).
Proof.
  intros H. apply make_master_match_list_ok in H. destruct H as [_ ->].
  simpl. apply NoDup_map_filter. rewrite master_table_keys.
  apply group_keys_NoDup.
Qed.

(** X4. The master table has one row per key: the keys of the rows kept by
    [make_master_match_list] are pairwise distinct, each is the key of a
    record that passes the confidence filter, and each row counts at least
    one sample. *)
Theorem master_keys_distinct (st st' : State) (peptide_q : Q)
    (unique_only : bool) (min_fraction : Q) :
  make_master_match_list st peptide_q unique_only min_fraction = Ok st' ->
  NoDup (map m_concat (match_across_runs_master st')) /\
  forall m, In m (match_across_runs_master st') ->
    (1 <= num_samples m)%nat /\
    exists x, In x (master_id_df st) /\ concat x = m_concat m /\
              keep peptide_q unique_only x = true.
Proof.
  intros H. apply make_master_match_list_ok in H. destruct H as [_ ->].
  simpl. split.
  - apply NoDup_map_filter. rewrite master_table_keys.
    apply group_keys_NoDup.
  - intros m Hm. apply filter_In in Hm. destruct Hm as [Hm _].
    unfold master_table in Hm. apply downcast_file_idx_In in Hm.
    destruct Hm as (m0 & Hm0 & -> & -> & _).
    unfold groupby_agg in Hm0. apply in_flat_map in Hm0.
    destruct Hm0 as (k & _ & Hm0).
    pose proof (agg_group_rows
                  (filter (keep peptide_q unique_only) (master_id_df st)) k)
      as Hk.
    destruct (agg_group _ k) as [|m1 rest]; [destruct Hm0|].
    destruct Hk as (-> & Hk1 & Hne & Hn). destruct Hm0 as [<-|[]].
    destruct (filter (has_key k) _) as [|x g] eqn:Eg; [congruence|].
    assert (Hx : In x (filter (has_key k)
                   (filter (keep peptide_q unique_only) (master_id_df st))))
      by (rewrite Eg; now left).
    apply filter_In in Hx. destruct Hx as [Hx Hxk].
    apply filter_In in Hx. apply has_key_eq in Hxk. split.
    + rewrite Hn. unfold nunique. simpl map.
      assert (Hin : In (sample x) (nodup string_dec (sample x :: map sample g)))
        by (apply nodup_In; now left).
      destruct (nodup _ _); [destruct Hin|simpl; lia].
    + exists x. rewrite Hk1. tauto.
Qed.

(** ** get_current_sample_psms, get_current_sample_mzid_indices *)

(** X5. On a store that holds rows (the frame before any load has no
    'sample' column to look into), selecting a sample succeeds exactly for
    a sample that has rows in the store, and fails with the assertion
    otherwise; on success the sample frame is not empty, holds exactly the
    store's rows of that sample, in store order, and nothing else
    changes. *)
Theorem get_current_sample_psms_outcome (st : State) (current_sample : string) :
  master_id_df st <> [] ->
  match get_current_sample_psms st current_sample with
  | Ok st' =>
    In current_sample (map sample (master_id_df st)) /\
    curr_sample_id_df st' <> [] /\
    curr_sample_id_df st' =
      filter (fun x => String.eqb (sample x) current_sample)
             (master_id_df st) /\
    (forall x, In x (curr_sample_id_df st') <->
               In x (master_id_df st) /\ sample x = current_sample) /\
    master_id_df st' = master_id_df st /\
    match_across_runs_master st' = match_across_runs_master st
  | Err e =>
    e = AssertionError /\ ~ In current_sample (map sample (master_id_df st))
  end.
Proof.
  intros _. unfold get_current_sample_psms, assert_.
  destruct (mem_str current_sample (map sample (master_id_df st))) eqn:E;
    simpl.
  - apply mem_str_In in E. split; [exact E|].
    assert (Hspec : forall x,
      In x (filter (fun x => String.eqb (sample x) current_sample)
                   (master_id_df st)) <->
      In x (master_id_df st) /\ sample x = current_sample).
    { intros x. rewrite filter_In, String.eqb_eq. reflexivity. }
    split; [|split; [reflexivity|split; [exact Hspec|split; reflexivity]]].
    apply in_map_iff in E. destruct E as (x & Hs & Hx).
    intros Hnil. assert (Hin : In x []) by (rewrite <- Hnil; now apply Hspec).
    destruct Hin.
  - split; [reflexivity|]. intros H. apply mem_str_In in H. congruence.
Qed.

Lemma list_set_Z_In (l : list Z) (x : Z) : In x (list_set_Z l) <-> In x l.
Proof.
  induction l as [|a l IH]; simpl; [tauto|].
  rewrite filter_In, IH, negb_true_iff, Z.eqb_neq.
  destruct (Z.eq_dec a x); intuition congruence.
Qed.

Lemma list_set_Z_NoDup (l : list Z) : NoDup (list_set_Z l).
Proof.
  induction l as [|a l IH]; simpl; [constructor|].
  constructor.
  - rewrite filter_In, negb_true_iff, Z.eqb_neq. tauto.
  - now apply NoDup_filter.
Qed.

(** X6. Once a sample is selected (its frame holds rows), the index list
    of [get_current_sample_mzid_indices] has no repetition and lists
    exactly the fraction indices for which [get_current_fraction_psms]
    succeeds; for every other index that call fails with the assertion. *)
Theorem indices_are_the_resolvable_fractions
    (sort_values : forall A : Type, (A -> Q) -> list A -> list A)
    (st : State) (idx : Z) :
  curr_sample_id_df st <> [] ->
  NoDup (get_current_sample_mzid_indices st) /\
  (In idx (get_current_sample_mzid_indices st) <->
   exists st', get_current_fraction_psms sort_values st idx = Ok st') /\
  (~ In idx (get_current_sample_mzid_indices st) <->
   get_current_fraction_psms sort_values st idx = Err AssertionError).
Proof.
  intros _. unfold get_current_sample_mzid_indices.
  split; [apply list_set_Z_NoDup|].
  rewrite list_set_Z_In. unfold get_current_fraction_psms, assert_.
  destruct (existsb (Z.eqb idx) (map file_idx (curr_sample_id_df st))) eqn:E;
    simpl.
  - apply existsb_exists in E. destruct E as (y & Hy & Ey).
    apply Z.eqb_eq in Ey. subst y.
    split; split; try tauto.
    + intros _. eexists. reflexivity.
    + discriminate.
  - assert (Hn : ~ In idx (map file_idx (curr_sample_id_df st))).
    { intros H. assert (existsb (Z.eqb idx)
                          (map file_idx (curr_sample_id_df st)) = true).
      { apply existsb_exists. exists idx. split; [exact H|apply Z.eqb_refl]. }
      congruence. }
    split; split; try tauto.
    intros (st' & H). discriminate.
Qed.

(** ** get_current_fraction_psms, once more *)

Lemma drop_duplicates_from_keys (seen : list string) (l : list Row) :
  NoDup (keys (drop_duplicates_from seen l)) /\
  (forall k, In k (keys (drop_duplicates_from seen l)) <->
             In k (keys l) /\ ~ In k seen).
Proof.
  revert seen. induction l as [|a l IH]; intros seen; simpl.
  - split; [constructor|]. simpl. tauto.
  - destruct (mem_str (concat a) seen) eqn:E.
    + destruct (IH seen) as [Hnd Hin]. split; [exact Hnd|].
      intros k. rewrite Hin. apply mem_str_In in E.
      split; [tauto|]. intros [[<-|H] Hs]; tauto.
    + assert (Hn : ~ In (concat a) seen).
      { intros H. apply mem_str_In in H. congruence. }
      destruct (IH (concat a :: seen)) as [Hnd Hin]. simpl. split.
      * constructor; [|exact Hnd]. rewrite Hin. simpl. tauto.
      * intros k. rewrite Hin. simpl.
        destruct (string_dec (concat a) k); [subst|]; tauto.
Qed.

Lemma assign_pep_id_keys (l : list Row) (s : nat) :
  keys (assign_pep_id s l) = keys l /\
  map file_idx (assign_pep_id s l) = map file_idx l.
Proof.
  revert s. induction l as [|a l IH]; intros s; simpl; [now split|].
  destruct (IH (S s)) as [E1 E2]. unfold keys in *. now rewrite E1, E2.
Qed.

Section ResolverOutcome.
Variable sort_values : forall A : Type, (A -> Q) -> list A -> list A.
Hypothesis sort_values_sorts : sorts sort_values.
Variable model : Type.
Variable fit : list Q -> list Q -> option model.
Variable predict : model -> list Q -> option (list Q).
Variable soft_threshold_q : Q.

Lemma resolved_keys (st : State) (idx : Z) :
  NoDup (keys (resolved sort_values st idx)) /\
  (forall k, In k (keys (resolved sort_values st idx)) <->
             In k (keys (fraction_rows st idx))) /\
  (forall x, In x (resolved sort_values st idx) -> file_idx x = idx).
Proof.
  unfold resolved.
  set (frac := fraction_rows st idx).
  set (byq := sort_values Row by_q_value frac).
  set (dd := drop_duplicates byq).
  destruct (assign_pep_id_keys (sort_values Row by_scan dd) 0) as [Ek _].
  rewrite Ek.
  destruct (sort_values_sorts Row by_scan dd) as [Hp _].
  destruct (sort_values_sorts Row by_q_value frac) as [Hq _].
  fold byq in Hq.
  assert (Hpk : Permutation (keys dd) (keys (sort_values Row by_scan dd)))
    by (unfold keys; now apply Permutation_map).
  assert (Hqk : Permutation (keys frac) (keys byq))
    by (unfold keys; now apply Permutation_map).
  destruct (drop_duplicates_from_keys [] byq) as [Hnd Hin].
  fold (drop_duplicates byq) in Hnd, Hin. fold dd in Hnd, Hin.
  split; [eapply Permutation_NoDup; eassumption|]. split.
  - intros k. split; intros H.
    + eapply Permutation_in in H; [|symmetry; exact Hpk].
      apply Hin in H. eapply Permutation_in; [symmetry; exact Hqk|tauto].
    + eapply Permutation_in; [exact Hpk|]. apply Hin. split; [|tauto].
      eapply Permutation_in; eassumption.
  - intros x Hx.
    destruct (resolved_from_fraction _ sort_values_sorts st idx x Hx)
      as (x0 & i & Hx0 & ->).
    simpl. eapply fraction_rows_file_idx; eassumption.
Qed.

(** X7. Once a sample is selected (its frame holds rows),
    [get_current_fraction_psms] succeeds exactly for an index that occurs
    in the sample and fails with the assertion otherwise; on success the
    fraction frame is not empty, all its rows carry that index, its keys
    are pairwise distinct and they are the keys of the sample's rows in
    the fraction. *)
Theorem get_current_fraction_psms_outcome (st : State) (idx : Z) :
  curr_sample_id_df st <> [] ->
  match get_current_fraction_psms sort_values st idx with
  | Ok st' =>
    In idx (map file_idx (curr_sample_id_df st)) /\
    curr_frac_id_df st' <> [] /\
    (forall x, In x (curr_frac_id_df st') -> file_idx x = idx) /\
    NoDup (keys (curr_frac_id_df st')) /\
    (forall k, In k (keys (curr_frac_id_df st')) <->
               In k (keys (fraction_rows st idx))) /\
    curr_sample_id_df st' = curr_sample_id_df st
  | Err e =>
    e = AssertionError /\ ~ In idx (map file_idx (curr_sample_id_df st))
  end.
Proof.
  intros _. destruct (resolved_keys st idx) as (Hnd & Hk & Hf).
  unfold get_current_fraction_psms, assert_.
  destruct (existsb (Z.eqb idx) (map file_idx (curr_sample_id_df st))) eqn:E;
    simpl.
  - apply existsb_exists in E. destruct E as (y & Hy & Ey).
    apply Z.eqb_eq in Ey. subst y. fold (resolved sort_values st idx).
    split; [exact Hy|].
    split; [|split; [exact Hf|split; [exact Hnd|split; [exact Hk|reflexivity]]]].
    apply in_map_iff in Hy. destruct Hy as (x & Hxi & Hx).
    assert (Hin : In (concat x) (keys (resolved sort_values st idx))).
    { apply Hk. unfold keys. apply in_map. unfold fraction_rows.
      apply filter_In. split; [exact Hx|]. now apply Z.eqb_eq. }
    intros Hnil. rewrite Hnil in Hin. destruct Hin.
  - split; [reflexivity|]. intros H.
    assert (existsb (Z.eqb idx) (map file_idx (curr_sample_id_df st)) = true).
    { apply existsb_exists. exists idx. split; [exact H|apply Z.eqb_refl]. }
    congruence.
Qed.

(** X8. Along the call sequence (master list, sample, fraction) the filter
    without match-across-runs cannot fail: its two guards (a first row,
    and the assertion on its file index) hold, and it stores the strict
    rows followed, with the soft threshold, by the rescued rows of that
    fraction's candidates. *)
Theorem filter_after_resolve_succeeds (st0 st1 st st3 : State)
    (master_q : Q) (master_unique : bool) (min_fraction : Q)
    (current_sample : string) (idx : Z)
    (peptide_q : Q) (unique_only use_soft_threshold : bool) :
  make_master_match_list st0 master_q master_unique min_fraction = Ok st1 ->
  get_current_sample_psms st1 current_sample = Ok st ->
  get_current_fraction_psms sort_values st idx = Ok st3 ->
  filter_current_fraction_psms sort_values model fit predict soft_threshold_q
    st3 peptide_q unique_only use_soft_threshold false
  = Ok (set_curr_frac_filtered st3
          (filtered_at_mar soft_threshold_q st3 peptide_q unique_only
                           use_soft_threshold idx)).
Proof.
  intros H1 H2 H. destruct (resolved_keys st idx) as (_ & Hk & Hf).
  assert (Hb : master_built st = true).
  { apply make_master_match_list_ok in H1. destruct H1 as [_ ->].
    apply get_current_sample_psms_ok in H2. now subst st. }
  unfold get_current_fraction_psms, assert_ in H.
  destruct (existsb (Z.eqb idx) (map file_idx (curr_sample_id_df st))) eqn:Ei;
    simpl in H; [|discriminate].
  fold (resolved sort_values st idx) in H. injection H as <-.
  apply existsb_exists in Ei. destruct Ei as (y & Hidx & Ey).
  apply Z.eqb_eq in Ey. subst y.
  assert (Hcs : curr_sample_id_df
                  (set_curr_frac st (resolved sort_values st idx))
                = curr_sample_id_df st) by reflexivity.
  assert (Hcf : curr_frac_id_df
                  (set_curr_frac st (resolved sort_values st idx))
                = resolved sort_values st idx) by reflexivity.
  rewrite filter_current_unfold, Hcf.
  destruct (resolved sort_values st idx) as [|first rest] eqn:E.
  { exfalso. apply in_map_iff in Hidx. destruct Hidx as (x & Hxi & Hx).
    apply (proj2 (Hk (concat x))). unfold keys. apply in_map.
    unfold fraction_rows. apply filter_In. split; [exact Hx|].
    now apply Z.eqb_eq. }
  assert (Hfi : file_idx first = idx) by (apply Hf; now left).
  assert (Hb' : master_built (set_curr_frac st (first :: rest)) = true)
    by exact Hb.
  cbn [hd_error]. cbv zeta. rewrite Hfi, Hcs, Hb'.
  replace (existsb _ _) with true; [reflexivity|].
  symmetry. apply existsb_exists. exists idx. split; [exact Hidx|apply Z.eqb_refl].
Qed.

End ResolverOutcome.

(** ** The rows of the match-across-runs block *)

Lemma index_from_snd {A} (l : list A) (i : nat) :
  map snd (index_from i l) = l.
Proof.
  revert i. induction l as [|a l IH]; intros i; simpl; [reflexivity|].
  now rewrite IH.
Qed.

Lemma index_from_nth {A} (l : list A) (s i : nat) (p : nat * A) :
  nth_error (index_from s l) i = Some p ->
  fst p = (s + i)%nat /\ nth_error l i = Some (snd p).
Proof.
  revert s i. induction l as [|a l IH]; intros s i; simpl.
  - destruct i; discriminate.
  - destruct i as [|i]; simpl.
    + intros [= <-]. simpl. split; [lia|reflexivity].
    + intros H. apply IH in H. destruct H as [-> H]. split; [lia|exact H].
Qed.

Lemma Forall2_nth_r {A B} (R : A -> B -> Prop) (l : list A) (l' : list B)
    (i : nat) (y : B) :
  Forall2 R l l' -> nth_error l' i = Some y ->
  exists x, nth_error l i = Some x /\ R x y.
Proof.
  intros H. revert i. induction H as [|a b l l' Hab _ IH]; intros i.
  - destruct i; discriminate.
  - destruct i as [|i]; simpl.
    + intros [= <-]. exists a. auto.
    + apply IH.
Qed.

Lemma Forall2_map_eq {A B C} (f : A -> C) (g : B -> C) (R : A -> B -> Prop)
    (l : list A) (l' : list B) :
  (forall x y, R x y -> f x = g y) ->
  Forall2 R l l' -> map f l = map g l'.
Proof.
  intros Hfg. induction 1 as [|a b l l' Hab _ IH]; simpl; [reflexivity|].
  now rewrite IH, (Hfg _ _ Hab).
Qed.

(** What a synthesized row holds. *)
Lemma mar_row_ok (first : Row) (cands : list MasterRow)
    (p : nat * (string * list (option Q))) (r : Row) :
  mar_row first cands p = Ok r ->
  concat r = fst (snd p) /\ pep_id r = Matched (fst p) /\
  evidence r = match_across_runs_ev /\
  sample r = sample first /\ file_idx r = file_idx first /\
  q_value r = 0%Q /\ protein_id r = "NA" /\
  mar_scan (snd (snd p)) = Ok (scan r) /\
  exists m, In m cands /\ m_concat m = concat r /\
            precursor_mz r = m_precursor_mz m /\
            peptide_mass r = m_peptide_mass m.
Proof.
  unfold mar_row. cbv zeta.
  destruct (mar_scan (snd (snd p))) as [s|]; [|discriminate].
  cbn [bind].
  destruct (nth_error (split_on "_" (fst (snd p))) 1) as [z|];
    [|discriminate].
  cbn [bind of_option].
  destruct (int_of_str z) as [c|]; [|discriminate].
  cbn [bind of_option].
  destruct (find _ cands) as [m|] eqn:Ef; [|discriminate].
  cbn [bind of_option]. intros [= <-]. simpl.
  repeat (split; [reflexivity|]).
  apply find_some in Ef. destruct Ef as [Hm Ek]. simpl in Ek.
  apply String.eqb_eq in Ek. exists m. auto.
Qed.

Section MarRows.
Variable sort_values : forall A : Type, (A -> Q) -> list A -> list A.
Variable model : Type.
Variable fit : list Q -> list Q -> option model.
Variable predict : model -> list Q -> option (list Q).
Variable soft_threshold_q : Q.

(** The synthesized rows, in order: their keys are candidates that the
    filtered frame does not hold, each once when the candidates' keys are
    distinct, and the pep_id counts the rows. *)
Lemma match_across_runs_rows_ok (st : State) (peptide_q : Q)
    (unique_only : bool) (idx : Z) (cands : list MasterRow)
    (filtered rs : list Row) :
  match_across_runs_rows sort_values model fit predict st peptide_q
    unique_only idx cands filtered = Ok rs ->
  exists first,
    hd_error filtered = Some first /\
    (forall k, In k (keys rs) ->
               In k (map m_concat cands) /\ ~ In k (keys filtered)) /\
    (NoDup (map m_concat cands) -> NoDup (keys rs)) /\
    (forall i r, nth_error rs i = Some r ->
       pep_id r = Matched i /\ evidence r = match_across_runs_ev /\
       sample r = sample first /\ file_idx r = file_idx first /\
       q_value r = 0%Q /\ protein_id r = "NA" /\
       exists m, In m cands /\ m_concat m = concat r /\
                 precursor_mz r = m_precursor_mz m /\
                 peptide_mass r = m_peptide_mass m).
Proof.
  unfold match_across_runs_rows.
  destruct (hd_error filtered) as [first|]; [|discriminate].
  cbn [of_option bind].
  destruct (mapM _ (filter _ _)) as [cols|]; [|discriminate].
  cbn [bind].
  set (ks := mar_candidates cands filtered).
  set (preds := dropna_all (pred_df ks cols)).
  intros H. apply mapM_ok in H. exists first. split; [reflexivity|].
  assert (Hkeys : keys rs = map fst preds).
  { unfold keys. symmetry.
    rewrite <- (index_from_snd preds 0) at 1. rewrite map_map.
    eapply Forall2_map_eq; [|exact H].
    intros p r Hp. apply mar_row_ok in Hp. symmetry. tauto. }
  assert (Hpk : map fst (pred_df ks cols) = ks).
  { unfold pred_df. rewrite map_map. simpl. apply index_from_snd. }
  assert (Hks : forall k, In k ks ->
                  In k (map m_concat cands) /\ ~ In k (keys filtered)).
  { intros k Hk. unfold ks, mar_candidates in Hk. apply filter_In in Hk.
    destruct Hk as [Hk Hn]. split; [exact Hk|].
    apply negb_true_iff in Hn. intros Hin. apply mem_str_In in Hin.
    unfold keys in Hin. congruence. }
  split; [|split].
  - intros k Hk. rewrite Hkeys in Hk. apply Hks.
    apply in_map_iff in Hk. destruct Hk as (p & <- & Hp).
    unfold preds, dropna_all in Hp. apply filter_In in Hp.
    rewrite <- Hpk. apply in_map. tauto.
  - intros Hnd. rewrite Hkeys. unfold preds, dropna_all.
    apply NoDup_map_filter. rewrite Hpk. unfold ks, mar_candidates.
    now apply NoDup_filter.
  - intros i r Hr.
    destruct (Forall2_nth_r _ _ _ _ _ H Hr) as (p & Hp & Hrow).
    apply index_from_nth in Hp. destruct Hp as [Hi _]. simpl in Hi.
    apply mar_row_ok in Hrow. rewrite <- Hi. tauto.
Qed.

(** X9. In the filtered fraction no key labelled 'match_across_runs' is the
    key of a row with another label: the synthesized rows are for keys the
    strict and soft rows do not hold. *)
Theorem mar_keys_disjoint_from_identified (st st' : State) (peptide_q : Q)
    (unique_only use_soft_threshold match_across_runs : bool) (r r' : Row) :
  filter_current_fraction_psms sort_values model fit predict soft_threshold_q
    st peptide_q unique_only use_soft_threshold match_across_runs = Ok st' ->
  In r (curr_frac_filtered_id_df st') ->
  In r' (curr_frac_filtered_id_df st') ->
  evidence r = match_across_runs_ev ->
  evidence r' <> match_across_runs_ev ->
  concat r <> concat r'.
Proof.
  rewrite filter_current_unfold.
  destruct (hd_error (curr_frac_id_df st)) as [first|]; [|discriminate].
  cbv zeta. destruct (existsb _ _); [|discriminate].
  destruct (master_built st); [|discriminate].
  set (filtered := filtered_at_mar soft_threshold_q st peptide_q unique_only
                     use_soft_threshold (file_idx first)).
  assert (Hf : forall x, In x filtered -> evidence x <> match_across_runs_ev).
  { intros x. unfold filtered, filtered_at_mar.
    destruct use_soft_threshold; [rewrite in_app_iff; intros [Hx|Hx]|intros Hx].
    - apply strict_set_In in Hx. destruct Hx as [-> _]. discriminate.
    - apply soft_rows_In in Hx. destruct Hx as [-> _]. discriminate.
    - apply strict_set_In in Hx. destruct Hx as [-> _]. discriminate. }
  destruct match_across_runs.
  - destruct (match_across_runs_rows _ _ _ _ _ _ _ _ _ filtered)
      as [rs|] eqn:Em; cbn [bind]; [|discriminate].
    intros [= <-] Hr Hr' He He'. simpl in Hr, Hr'.
    apply match_across_runs_rows_ok in Em.
    destruct Em as (cur & _ & Hk & _ & Hrows).
    apply in_app_iff in Hr. apply in_app_iff in Hr'.
    destruct Hr as [Hr|Hr]; [exfalso; exact (Hf _ Hr He)|].
    destruct Hr' as [Hr'|Hr'].
    + intros E. destruct (Hk (concat r)) as [_ Hn];
        [unfold keys; now apply in_map|].
      apply Hn. rewrite E. unfold keys. now apply in_map.
    + exfalso. apply In_nth_error in Hr'. destruct Hr' as (i & Hi).
      apply Hrows in Hi. apply He'. tauto.
  - intros [= <-] Hr _ He _. simpl in Hr. exfalso. exact (Hf _ Hr He).
Qed.

End MarRows.

(** ** The filtered fraction along the call sequence *)

Lemma NoDup_map_In_eq {A B} (f : A -> B) (l : list A) (x y : A) :
  NoDup (map f l) -> In x l -> In y l -> f x = f y -> x = y.
Proof.
  induction l as [|a l IH]; simpl; [tauto|].
  intros H. inversion H as [|? ? Hn Hd]; subst.
  intros [->|Hx] [->|Hy] E; auto.
  - exfalso. apply Hn. rewrite E. now apply in_map.
  - exfalso. apply Hn. rewrite <- E. now apply in_map.
Qed.

Lemma keys_set_evidence (e : Evidence) (l : list Row) :
  keys (map (set_evidence e) l) = keys l.
Proof. unfold keys. rewrite map_map. reflexivity. Qed.

Lemma keys_filter_app (f g : Row -> bool) (l : list Row) :
  NoDup (keys l) ->
  (forall x, In x l -> f x = true -> g x = false) ->
  NoDup (keys (filter f l ++ filter g l)).
Proof.
  intros Hnd Hex. unfold keys. rewrite map_app. apply NoDup_app.
  - now apply NoDup_map_filter.
  - now apply NoDup_map_filter.
  - intros k H1 H2. apply in_map_iff in H1, H2.
    destruct H1 as (x & Ex & Hx). destruct H2 as (y & Ey & Hy).
    apply filter_In in Hx, Hy. destruct Hx as [Hx Hfx]. destruct Hy as [Hy Hgy].
    assert (x = y).
    { eapply (NoDup_map_In_eq concat); eauto. congruence. }
    subst y. rewrite (Hex x Hx Hfx) in Hgy. discriminate.
Qed.

Lemma merge_inner_filter (df : list Row) (cands : list MasterRow) :
  NoDup (map m_concat cands) ->
  merge_inner df cands =
  filter (fun x => mem_str (concat x) (map m_concat cands)) df.
Proof.
  intros Hnd. unfold merge_inner.
  induction df as [|x df IH]; simpl; [reflexivity|]. rewrite IH. clear IH.
  assert (H : map (fun _ : MasterRow => x)
                (filter (fun m => String.eqb (m_concat m) (concat x)) cands) =
              if mem_str (concat x) (map m_concat cands) then [x] else []).
  { induction cands as [|m cands IHc]; simpl; [reflexivity|].
    inversion Hnd as [|? ? Hn Hd]; subst. specialize (IHc Hd).
    rewrite (String.eqb_sym (concat x) (m_concat m)).
    destruct (String.eqb (m_concat m) (concat x)) eqn:E; simpl.
    - apply String.eqb_eq in E. rewrite IHc.
      destruct (mem_str (concat x) (map m_concat cands)) eqn:Em;
        [|reflexivity].
      apply mem_str_In in Em. rewrite <- E in Em. contradiction.
    - exact IHc. }
  rewrite H. now destruct (mem_str _ _).
Qed.

Section CallSequence.
Variable sort_values : forall A : Type, (A -> Q) -> list A -> list A.
Hypothesis sort_values_sorts : sorts sort_values.
Variable model : Type.
Variable fit : list Q -> list Q -> option model.
Variable predict : model -> list Q -> option (list Q).
Variable soft_threshold_q : Q.

Lemma filtered_at_mar_keys (st : State) (peptide_q : Q)
    (unique_only use_soft_threshold : bool) (idx : Z) :
  NoDup (keys (curr_frac_id_df st)) ->
  NoDup (map m_concat (match_across_runs_master st)) ->
  NoDup (keys (filtered_at_mar soft_threshold_q st peptide_q unique_only
                 use_soft_threshold idx)).
Proof.
  intros Hcf Hm. unfold filtered_at_mar, strict_set.
  destruct use_soft_threshold.
  - unfold soft_rows.
    rewrite merge_inner_filter
      by (unfold candidates_at; now apply NoDup_map_filter).
    rewrite !filter_filter.
    match goal with
    | |- NoDup (keys (map _ ?a ++ map _ ?b)) =>
      replace (keys (map (set_evidence q_value_ev) a
                     ++ map (set_evidence soft) b))
        with (keys (a ++ b))
        by (unfold keys; rewrite !map_app, !map_map; reflexivity)
    end.
    apply keys_filter_app; [exact Hcf|].
    intros x _ Hk. apply keep_spec in Hk. destruct Hk as [Hlt _].
    destruct (Qle_bool peptide_q (q_value x)) eqn:E; [|reflexivity].
    apply Qle_bool_iff in E. exfalso. exact (Qlt_not_le _ _ Hlt E).
  - rewrite keys_set_evidence. now apply NoDup_map_filter.
Qed.

(** The states of the documented call sequence for one fraction. *)
Lemma call_sequence_facts (st0 st1 st2 st3 : State) (master_q : Q)
    (master_unique : bool) (min_fraction : Q) (current_sample : string)
    (idx : Z) :
  make_master_match_list st0 master_q master_unique min_fraction = Ok st1 ->
  get_current_sample_psms st1 current_sample = Ok st2 ->
  get_current_fraction_psms sort_values st2 idx = Ok st3 ->
  match_across_runs_master st3 = match_across_runs_master st1 /\
  NoDup (map m_concat (match_across_runs_master st3)) /\
  NoDup (keys (curr_frac_id_df st3)) /\
  (forall x, In x (curr_frac_id_df st3) ->
             file_idx x = idx /\ sample x = current_sample).
Proof.
  intros H1 H2 H3.
  pose proof (master_keys_distinct_lemma _ _ _ _ _ H1) as Hnd.
  pose proof (get_current_sample_psms_ok _ _ _ H2) as E2.
  pose proof (get_current_fraction_psms_ok _ _ _ _ H3) as E3.
  destruct (resolved_keys _ sort_values_sorts st2 idx) as (Hk & _ & _).
  subst st3 st2. simpl. split; [reflexivity|]. split; [exact Hnd|].
  split; [exact Hk|].
  intros x Hx.
  destruct (resolved_from_fraction _ sort_values_sorts _ _ _ Hx)
    as (x0 & i & Hx0 & ->).
  simpl. unfold fraction_rows in Hx0. simpl in Hx0.
  apply filter_In in Hx0. destruct Hx0 as [Hx0 Hi].
  apply filter_In in Hx0. destruct Hx0 as [_ Hs].
  apply Z.eqb_eq in Hi. apply String.eqb_eq in Hs. auto.
Qed.

(** X10. Along the call sequence the filtered fraction has at most one row
    per key, over all three labels together. *)
Theorem filtered_fraction_keys_distinct (st0 st1 st2 st3 st4 : State)
    (master_q : Q) (master_unique : bool) (min_fraction : Q)
    (current_sample : string) (idx : Z)
    (peptide_q : Q) (unique_only use_soft_threshold match_across_runs : bool) :
  make_master_match_list st0 master_q master_unique min_fraction = Ok st1 ->
  get_current_sample_psms st1 current_sample = Ok st2 ->
  get_current_fraction_psms sort_values st2 idx = Ok st3 ->
  filter_current_fraction_psms sort_values model fit predict soft_threshold_q
    st3 peptide_q unique_only use_soft_threshold match_across_runs = Ok st4 ->
  NoDup (keys (curr_frac_filtered_id_df st4)).
Proof.
  intros H1 H2 H3 H4.
  destruct (call_sequence_facts _ _ _ _ _ _ _ _ _ H1 H2 H3)
    as (_ & Hm & Hcf & _).
  rewrite filter_current_unfold in H4.
  destruct (hd_error (curr_frac_id_df st3)) as [first|]; [|discriminate].
  cbv zeta in H4. destruct (existsb _ _); [|discriminate].
  destruct (master_built st3); [|discriminate].
  pose proof (filtered_at_mar_keys st3 peptide_q unique_only
                use_soft_threshold (file_idx first) Hcf Hm) as Hf.
  destruct match_across_runs.
  - destruct (match_across_runs_rows _ _ _ _ _ _ _ _ _ _)
      as [rs|] eqn:Em; cbn [bind] in H4; [|discriminate].
    injection H4 as <-. simpl.
    apply match_across_runs_rows_ok in Em.
    destruct Em as (cur & _ & Hk & Hnd & _).
    unfold keys in *. rewrite map_app. apply NoDup_app.
    + exact Hf.
    + apply Hnd. unfold candidates_at. now apply NoDup_map_filter.
    + intros k Hk1 Hk2. apply Hk in Hk2. tauto.
  - injection H4 as <-. exact Hf.
Qed.

(** X11. Along the call sequence the filtered fraction is the identified
    rows (labelled 'q_value' or 'soft', all of the current sample and
    fraction) followed by the synthesized rows; the i-th synthesized row
    has pep_id matched_i, the current sample and fraction index, q-value 0,
    protein id 'NA', and the key and median masses of a master candidate
    of that fraction index. *)
Theorem filtered_fraction_layout (st0 st1 st2 st3 st4 : State)
    (master_q : Q) (master_unique : bool) (min_fraction : Q)
    (current_sample : string) (idx : Z)
    (peptide_q : Q) (unique_only use_soft_threshold match_across_runs : bool) :
  make_master_match_list st0 master_q master_unique min_fraction = Ok st1 ->
  get_current_sample_psms st1 current_sample = Ok st2 ->
  get_current_fraction_psms sort_values st2 idx = Ok st3 ->
  filter_current_fraction_psms sort_values model fit predict soft_threshold_q
    st3 peptide_q unique_only use_soft_threshold match_across_runs = Ok st4 ->
  exists identified synthesized,
    curr_frac_filtered_id_df st4 = identified ++ synthesized /\
    (match_across_runs = false -> synthesized = []) /\
    (forall x, In x identified ->
       (evidence x = q_value_ev \/ evidence x = soft) /\
       sample x = current_sample /\ file_idx x = idx) /\
    (forall i r, nth_error synthesized i = Some r ->
       pep_id r = Matched i /\ evidence r = match_across_runs_ev /\
       sample r = current_sample /\ file_idx r = idx /\
       q_value r = 0%Q /\ protein_id r = "NA" /\
       exists m, In m (match_across_runs_master st1) /\
                 (m_file_idx m == inject_Z idx)%Q /\
                 m_concat m = concat r /\
                 precursor_mz r = m_precursor_mz m /\
                 peptide_mass r = m_peptide_mass m).
Proof.
  intros H1 H2 H3 H4.
  destruct (call_sequence_facts _ _ _ _ _ _ _ _ _ H1 H2 H3)
    as (Em1 & _ & _ & Hrows).
  rewrite filter_current_unfold in H4.
  destruct (hd_error (curr_frac_id_df st3)) as [first|] eqn:Ef;
    [|discriminate].
  cbv zeta in H4. destruct (existsb _ _); [|discriminate].
  destruct (master_built st3); [|discriminate].
  assert (Hfirst : file_idx first = idx).
  { destruct (curr_frac_id_df st3) as [|a l]; [discriminate|].
    injection Ef as ->. apply Hrows. now left. }
  rewrite Hfirst in H4.
  set (filtered := filtered_at_mar soft_threshold_q st3 peptide_q unique_only
                     use_soft_threshold idx) in *.
  assert (Hid : forall x, In x filtered ->
            (evidence x = q_value_ev \/ evidence x = soft) /\
            sample x = current_sample /\ file_idx x = idx).
  { intros x. unfold filtered, filtered_at_mar.
    assert (Hs : In x (strict_set st3 peptide_q unique_only) ->
              (evidence x = q_value_ev \/ evidence x = soft) /\
              sample x = current_sample /\ file_idx x = idx).
    { intros Hx. apply strict_set_In in Hx.
      destruct Hx as (He & y & Hy & -> & _). simpl.
      destruct (Hrows y Hy). auto. }
    destruct use_soft_threshold; [|exact Hs].
    rewrite in_app_iff. intros [Hx|Hx]; [now apply Hs|].
    apply soft_rows_In in Hx. destruct Hx as (He & y & Hy & -> & _).
    simpl. destruct (Hrows y Hy). auto. }
  destruct match_across_runs.
  - destruct (match_across_runs_rows _ _ _ _ _ _ _ _ _ _)
      as [rs|] eqn:Em; cbn [bind] in H4; [|discriminate].
    injection H4 as <-. simpl. exists filtered, rs.
    split; [reflexivity|]. split; [discriminate|]. split; [exact Hid|].
    apply match_across_runs_rows_ok in Em.
    destruct Em as (cur & Hcur & _ & _ & Hr).
    assert (Hc : sample cur = current_sample /\ file_idx cur = idx).
    { destruct filtered as [|a l] eqn:El; [discriminate|].
      injection Hcur as ->. destruct (Hid cur); [now left|tauto]. }
    intros i r Hi. apply Hr in Hi.
    destruct Hi as (Hp & He & Hs & Hfi & Hq & Hpr & m & Hm & Hk & Hmz & Hpm).
    destruct Hc as [Hc1 Hc2]. rewrite Hc1 in Hs. rewrite Hc2 in Hfi.
    repeat (split; [assumption|]).
    unfold candidates_at in Hm. apply filter_In in Hm.
    destruct Hm as [Hm Hidx]. apply Qeq_bool_iff in Hidx.
    exists m. rewrite <- Em1. auto.
  - injection H4 as <-. simpl. exists filtered, [].
    split; [now rewrite app_nil_r|]. split; [reflexivity|].
    split; [exact Hid|]. intros [|i] r; discriminate.
Qed.

End CallSequence.

(** ** Edge cases of the filter *)

Section FilterEdges.
Variable sort_values : forall A : Type, (A -> Q) -> list A -> list A.
Variable model : Type.
Variable fit : list Q -> list Q -> option model.
Variable predict : model -> list Q -> option (list Q).
Variable soft_threshold_q : Q.

Let filter_current := filter_current_fraction_psms sort_values model fit
                        predict soft_threshold_q.

(** X12. A soft threshold at or below the strict threshold rescues
    nothing: the band is empty and the call behaves as with the soft
    threshold switched off, whatever the other arguments. *)
Theorem soft_threshold_below_strict_is_off (st : State) (peptide_q : Q)
    (unique_only match_across_runs : bool) :
  (soft_threshold_q <= peptide_q)%Q ->
  filter_current st peptide_q unique_only true match_across_runs =
  filter_current st peptide_q unique_only false match_across_runs.
Proof.
  intros Hle. unfold filter_current. rewrite !filter_current_unfold.
  destruct (hd_error (curr_frac_id_df st)) as [first|]; [|reflexivity].
  cbv zeta.
  assert (E : filtered_at_mar soft_threshold_q st peptide_q unique_only true
                (file_idx first) =
              filtered_at_mar soft_threshold_q st peptide_q unique_only false
                (file_idx first)).
  { unfold filtered_at_mar, soft_rows. rewrite filter_filter.
    rewrite (filter_nil _ (curr_frac_id_df st)); [apply app_nil_r|].
    intros x _.
    destruct (Qle_bool peptide_q (q_value x)) eqn:E1; [|reflexivity].
    destruct (Qltb (q_value x) soft_threshold_q) eqn:E2; [|reflexivity].
    apply Qle_bool_iff in E1. apply Qltb_lt in E2. exfalso.
    apply (Qlt_not_le _ _ E2). eapply Qle_trans; eassumption. }
  now rewrite E.
Qed.

Lemma dropna_all_no_columns (ks : list string) :
  dropna_all (pred_df ks []) = [].
Proof.
  unfold dropna_all, pred_df. apply filter_nil. intros p Hp.
  apply in_map_iff in Hp. destruct Hp as (q & <- & _). reflexivity.
Qed.

(** X13. With no other sample in the store there is no peer to learn
    from: match-across-runs synthesizes nothing and the call gives what it
    gives with match-across-runs off. *)
Theorem no_peer_no_synthesized_rows (st : State) (first cur : Row)
    (peptide_q : Q) (unique_only use_soft_threshold : bool) :
  hd_error (curr_frac_id_df st) = Some first ->
  hd_error (filtered_at_mar soft_threshold_q st peptide_q unique_only
              use_soft_threshold (file_idx first)) = Some cur ->
  (forall x, In x (master_id_df st) -> sample x = sample cur) ->
  filter_current st peptide_q unique_only use_soft_threshold true =
  filter_current st peptide_q unique_only use_soft_threshold false.
Proof.
  intros Hfirst Hcur Hall. unfold filter_current.
  rewrite !filter_current_unfold, Hfirst. cbv zeta.
  destruct (existsb _ _); [|reflexivity].
  destruct (master_built st); [|reflexivity].
  unfold match_across_runs_rows. rewrite Hcur. cbn [of_option bind].
  rewrite (filter_nil _ (list_set (map sample (master_id_df st)))).
  - cbn [mapM bind]. rewrite dropna_all_no_columns. cbn [index_from mapM bind].
    now rewrite app_nil_r.
  - intros s Hs. apply (proj1 (list_set_In _ _)) in Hs.
    apply in_map_iff in Hs.
    destruct Hs as (x & <- & Hx). rewrite (Hall x Hx).
    now rewrite String.eqb_refl.
Qed.

End FilterEdges.

(** ** The aggregation over the peers *)

Lemma Qle_bool_compat (x x' y y' : Q) :
  (x == x')%Q -> (y == y')%Q -> Qle_bool x y = Qle_bool x' y'.
Proof.
  intros Hx Hy. destruct (Qle_bool x y) eqn:E, (Qle_bool x' y') eqn:E';
    try reflexivity.
  - apply Qle_bool_iff in E. rewrite Hx, Hy in E.
    apply Qle_bool_iff in E. congruence.
  - apply Qle_bool_iff in E'. rewrite <- Hx, <- Hy in E'.
    apply Qle_bool_iff in E'. congruence.
Qed.

Lemma insert_Qeq (x x' : Q) (s s' : list Q) :
  (x == x')%Q -> Forall2 Qeq s s' ->
  Forall2 Qeq (insert Qle_bool x s) (insert Qle_bool x' s').
Proof.
  intros Hx. induction 1 as [|y y' s s' Hy Hs IH]; simpl.
  - now repeat constructor.
  - rewrite (Qle_bool_compat x x' y y' Hx Hy).
    destruct (Qle_bool x' y'); repeat constructor; assumption.
Qed.

Lemma Forall2_Qeq_refl (l : list Q) : Forall2 Qeq l l.
Proof. induction l; constructor; [reflexivity|assumption]. Qed.

Lemma Forall2_Qeq_trans (l1 l2 l3 : list Q) :
  Forall2 Qeq l1 l2 -> Forall2 Qeq l2 l3 -> Forall2 Qeq l1 l3.
Proof.
  intros H. revert l3. induction H as [|a b l1 l2 Hab _ IH]; intros l3 H3.
  - inversion H3. constructor.
  - inversion H3 as [|? c ? l3' Hbc Hl]; subst. constructor.
    + now rewrite Hab.
    + now apply IH.
Qed.

Lemma Qle_bool_false_lt (x y : Q) : Qle_bool x y = false -> (y < x)%Q.
Proof.
  intros H. apply Qnot_le_lt. intros Hle. apply Qle_bool_iff in Hle.
  congruence.
Qed.

Lemma insert_insert_Qeq (x y : Q) (s : list Q) :
  Forall2 Qeq (insert Qle_bool x (insert Qle_bool y s))
              (insert Qle_bool y (insert Qle_bool x s)).
Proof.
  induction s as [|a t IH]; simpl.
  - destruct (Qle_bool x y) eqn:Exy, (Qle_bool y x) eqn:Eyx; simpl;
      try apply Forall2_Qeq_refl.
    + apply Qle_bool_iff in Exy, Eyx.
      assert (x == y)%Q by now apply Qle_antisym.
      repeat constructor; [assumption|now symmetry].
    + apply Qle_bool_false_lt in Exy, Eyx. exfalso.
      exact (Qlt_irrefl _ (Qlt_trans _ _ _ Exy Eyx)).
  - destruct (Qle_bool y a) eqn:Eya, (Qle_bool x a) eqn:Exa; simpl.
    + destruct (Qle_bool x y) eqn:Exy, (Qle_bool y x) eqn:Eyx; simpl;
        rewrite ?Eya, ?Exa; try apply Forall2_Qeq_refl.
      * apply Qle_bool_iff in Exy, Eyx.
        assert (x == y)%Q by now apply Qle_antisym.
        constructor; [assumption|]. constructor; [now symmetry|].
        apply Forall2_Qeq_refl.
      * apply Qle_bool_false_lt in Exy, Eyx. exfalso.
        exact (Qlt_irrefl _ (Qlt_trans _ _ _ Exy Eyx)).
    + assert (Exy : Qle_bool x y = false).
      { destruct (Qle_bool x y) eqn:E; [|reflexivity].
        apply Qle_bool_iff in E, Eya. apply Qle_bool_false_lt in Exa.
        exfalso. apply (Qlt_not_le _ _ Exa). eapply Qle_trans; eassumption. }
      rewrite Exy, Eya. simpl. rewrite Exa. apply Forall2_Qeq_refl.
    + assert (Eyx : Qle_bool y x = false).
      { destruct (Qle_bool y x) eqn:E; [|reflexivity].
        apply Qle_bool_iff in E, Exa. apply Qle_bool_false_lt in Eya.
        exfalso. apply (Qlt_not_le _ _ Eya). eapply Qle_trans; eassumption. }
      rewrite Exa, Eyx. simpl. rewrite Eya. apply Forall2_Qeq_refl.
    + rewrite Exa, Eya. constructor; [reflexivity|exact IH].
Qed.

Lemma isort_perm_Qeq (l l' : list Q) :
  Permutation l l' -> Forall2 Qeq (isort Qle_bool l) (isort Qle_bool l').
Proof.
  induction 1 as [|x l l' _ IH|x y l|l l' l'' _ IH1 _ IH2]; simpl.
  - constructor.
  - apply insert_Qeq; [reflexivity|exact IH].
  - apply insert_insert_Qeq.
  - eapply Forall2_Qeq_trans; eassumption.
Qed.

Lemma Forall2_Qeq_nth (l l' : list Q) (i : nat) :
  Forall2 Qeq l l' -> (nth i l 0 == nth i l' 0)%Q.
Proof.
  intros H. revert i. induction H as [|a b l l' Hab _ IH]; intros i.
  - destruct i; reflexivity.
  - destruct i as [|i]; simpl; [exact Hab|apply IH].
Qed.

Lemma median_perm (l l' : list Q) : Permutation l l' -> median l = median l'.
Proof.
  intros Hp. pose proof (isort_perm_Qeq _ _ Hp) as Hs.
  unfold median. cbv zeta.
  assert (El : List.length (isort Qle_bool l)
               = List.length (isort Qle_bool l'))
    by (eapply Forall2_length; eassumption).
  rewrite <- El. destruct (List.length (isort Qle_bool l)) as [|n];
    [reflexivity|].
  destruct (Nat.even (S n)); f_equal; apply Qred_complete.
  - rewrite (Forall2_Qeq_nth _ _ (S n / 2 - 1) Hs),
            (Forall2_Qeq_nth _ _ (S n / 2) Hs). reflexivity.
  - apply Forall2_Qeq_nth. exact Hs.
Qed.

(** X14. The aggregated scan does not depend on the order of the peer
    columns, that is on the order in which the set of sample names is
    iterated. *)
Theorem mar_scan_peer_order (cells cells' : list (option Q)) :
  Permutation cells cells' -> mar_scan cells = mar_scan cells'.
Proof.
  intros Hp. unfold mar_scan.
  assert (Hn : Permutation (not_nan cells) (not_nan cells')).
  { unfold not_nan. now apply Permutation_flat_map. }
  now rewrite (median_perm _ _ Hn).
Qed.

(** Out of the int64 range the cast does not truncate. *)
Example astype_int_out_of_range :
  astype_int (inject_Z (10 ^ 19)) = INT64_MIN /\
  mar_scan [Some (inject_Z (10 ^ 19))] = Ok (- 9223372036854775808).
Proof. split; vm_compute; reflexivity. Qed.

Lemma astype_int_between (q : Q) (lo hi : Z) :
  INT64_MIN <= lo -> hi <= INT64_MAX ->
  (inject_Z lo <= q)%Q -> (q <= inject_Z hi)%Q ->
  lo <= astype_int q <= hi.
Proof.
  intros Hmin Hmax. destruct q as [n d]. unfold Qle, astype_int.
  cbn [Qnum Qden inject_Z]. rewrite !Z.mul_1_r. intros Hlo Hhi.
  assert (Ht : lo <= Z.quot n (Z.pos d) <= hi).
  { pose proof (Z.quot_rem' n (Z.pos d)) as E.
    destruct (Z_le_gt_dec 0 n) as [Hn|Hn].
    - pose proof (Z.rem_bound_pos n (Z.pos d) Hn ltac:(lia)). nia.
    - pose proof (Z.rem_bound_pos (- n) (Z.pos d) ltac:(lia) ltac:(lia))
        as Hr.
      rewrite Z.rem_opp_l' in Hr. nia. }
  cbv zeta.
  replace ((INT64_MIN <=? n ÷ Z.pos d) && (n ÷ Z.pos d <=? INT64_MAX))
    with true; [exact Ht|].
  symmetry. apply andb_true_iff. split; apply Z.leb_le; lia.
Qed.

Lemma median_between (l : list Q) (lo hi m : Q) :
  (forall q, In q l -> (lo <= q)%Q /\ (q <= hi)%Q) ->
  median l = Some m -> (lo <= m)%Q /\ (m <= hi)%Q.
Proof.
  intros Hb. unfold median. cbv zeta.
  set (s := isort Qle_bool l).
  assert (Hs : forall i, (i < List.length s)%nat ->
                 (lo <= nth i s 0)%Q /\ (nth i s 0 <= hi)%Q).
  { intros i Hi. apply Hb. eapply Permutation_in;
      [symmetry; apply (isort_perm_gen Qle_bool)|]. now apply nth_In. }
  destruct (List.length s) as [|n] eqn:En; [discriminate|].
  assert (H2 : (S n / 2 < S n)%nat) by (apply Nat.div_lt; lia).
  destruct (Nat.even (S n)); intros E;
    apply (f_equal (fun o => match o with Some q => q | None => 0%Q end))
      in E;
    cbv beta iota in E; subst m;
    match goal with
    | |- context [Qred ?e] => pose proof (Qred_correct e) as Hr
    end.
  - destruct (Hs (S n / 2 - 1)%nat) as [A1 A2]; [lia|].
    destruct (Hs (S n / 2)%nat) as [B1 B2]; [lia|].
    unfold Qdiv in *. change (/ 2)%Q with (1 # 2)%Q in *. split; lra.
  - destruct (Hs (S n / 2)%nat) as [B1 B2]; [lia|]. split; lra.
Qed.

(** X15. The aggregated scan stays within the peers' predictions: when
    every prediction for a key lies between two integer scans of the int64
    range, so does the scan of the synthesized row. *)
Theorem mar_scan_within_predictions (cells : list (option Q)) (lo hi z : Z) :
  INT64_MIN <= lo -> hi <= INT64_MAX ->
  (forall q, In (Some q) cells ->
             (inject_Z lo <= q)%Q /\ (q <= inject_Z hi)%Q) ->
  mar_scan cells = Ok z ->
  lo <= z <= hi.
Proof.
  intros Hmin Hmax Hb H. apply mar_scan_spec in H.
  destruct H as (m & Hm & ->).
  apply (median_between _ (inject_Z lo) (inject_Z hi)) in Hm.
  - now apply astype_int_between.
  - intros q Hq. apply Hb. unfold not_nan in Hq. apply in_flat_map in Hq.
    destruct Hq as ([c|] & Hc & Hin); simpl in Hin; [|destruct Hin].
    destruct Hin as [<-|[]]. exact Hc.
Qed.

(** ** The key and its parts *)

Lemma digits_value_acc (d : Decimal.uint) (acc : positive) :
  digits_value (Z.pos acc) (NilEmpty.string_of_uint d) =
  Some (Z.pos (Pos.of_uint_acc d acc)).
Proof.
  revert acc. induction d; intros acc; [reflexivity|..];
    cbn [NilEmpty.string_of_uint digits_value Pos.of_uint_acc];
    match goal with
    | |- context [digit_of ?c] =>
      let v := eval vm_compute in (digit_of c) in
      change (digit_of c) with v
    end;
    cbv iota beta;
    rewrite <- IHd; f_equal; lia.
Qed.

Lemma digits_value_uint (d : Decimal.uint) :
  digits_value 0 (NilEmpty.string_of_uint d) = Some (Z.of_N (Pos.of_uint d)).
Proof.
  induction d; [reflexivity|exact IHd|..];
    cbn [NilEmpty.string_of_uint digits_value Pos.of_uint];
    match goal with
    | |- context [digit_of ?c] =>
      let v := eval vm_compute in (digit_of c) in
      change (digit_of c) with v
    end;
    cbv iota beta; cbn [Z.of_N];
    rewrite <- digits_value_acc; f_equal.
Qed.

Lemma to_uint_not_Nil (p : positive) : Pos.to_uint p <> Decimal.Nil.
Proof.
  intros E. pose proof (DecimalPos.Unsigned.of_to p) as H.
  rewrite E in H. discriminate.
Qed.

Lemma int_of_str_uint (d : Decimal.uint) :
  d <> Decimal.Nil ->
  int_of_str (NilEmpty.string_of_uint d) = Some (Z.of_N (Pos.of_uint d)) /\
  int_of_str (String "-" (NilEmpty.string_of_uint d))
    = Some (- Z.of_N (Pos.of_uint d)).
Proof.
  intros Hd. pose proof (digits_value_uint d) as H.
  destruct d; [congruence|..]; cbn [NilEmpty.string_of_uint] in *;
    (split; [exact H|]); cbn [int_of_str]; rewrite H; reflexivity.
Qed.

(** [int(str(z))] gives [z] back. *)
Lemma int_of_str_string_of_int (z : Z) :
  int_of_str (NilZero.string_of_int (Z.to_int z)) = Some z.
Proof.
  destruct z as [|p|p]; [reflexivity|..]; simpl;
    unfold NilZero.string_of_uint;
    pose proof (to_uint_not_Nil p) as Hn;
    destruct (int_of_str_uint _ Hn) as [H1 H2];
    rewrite DecimalPos.Unsigned.of_to in H1, H2;
    destruct (Pos.to_uint p); try congruence; assumption.
Qed.

Lemma str_count_uint (d : Decimal.uint) :
  str_count "_" (NilEmpty.string_of_uint d) = 0%nat.
Proof. induction d; simpl; auto. Qed.

Lemma str_count_string_of_int (z : Z) :
  str_count "_" (NilZero.string_of_int (Z.to_int z)) = 0%nat.
Proof.
  destruct z as [|p|p]; [reflexivity|..]; simpl;
    unfold NilZero.string_of_uint;
    pose proof (str_count_uint (Pos.to_uint p)) as H;
    destruct (Pos.to_uint p); simpl in *; auto.
Qed.

Lemma split_on_no_delimiter (c : ascii) (s : string) :
  str_count c s = 0%nat -> split_on c s = [s].
Proof.
  induction s as [|a t IH]; simpl; [reflexivity|].
  destruct (Ascii.eqb a c); [discriminate|]. intros H. now rewrite IH.
Qed.

Lemma split_on_first (c : ascii) (a b : string) :
  str_count c a = 0%nat ->
  split_on c (a ++ String c b) = a :: split_on c b.
Proof.
  induction a as [|x a IH]; simpl.
  - now rewrite Ascii.eqb_refl.
  - destruct (Ascii.eqb x c); [discriminate|]. intros H. now rewrite IH.
Qed.

Lemma split_concat_of (sequence : string) (charge : Z) :
  str_count "_" sequence = 0%nat ->
  split_on "_" (concat_of sequence charge) =
  [sequence; NilZero.string_of_int (Z.to_int charge)].
Proof.
  intros H. unfold concat_of.
  change ("_" ++ NilZero.string_of_int (Z.to_int charge))%string
    with (String "_" (NilZero.string_of_int (Z.to_int charge))).
  rewrite split_on_first by exact H.
  now rewrite split_on_no_delimiter by apply str_count_string_of_int.
Qed.

Lemma mar_row_concat_of (first : Row)
    (cands : list MasterRow) (i : nat) (seq : string) (z : Z)
    (cells : list (option Q)) :
  str_count "_" seq = 0%nat ->
  match mar_row first cands (i, (concat_of seq z, cells)) with
  | Ok r => sequence r = seq /\ charge r = z /\ concat r = concat_of seq z
  | Err e =>
    (e = ValueError "NaN to integer" /\ not_nan cells = []) \/
    (e = KeyError (concat_of seq z) /\
     ~ In (concat_of seq z) (map m_concat cands))
  end.
Proof.
  intros Hs. unfold mar_row. cbv zeta. cbn [fst snd].
  rewrite (split_concat_of _ _ Hs). unfold mar_scan.
  destruct (median (not_nan cells)) as [m|] eqn:Em; cbn [of_option bind].
  - cbn [nth_error nth of_option bind]. rewrite int_of_str_string_of_int.
    cbn [of_option bind].
    destruct (find _ cands) as [c|] eqn:Ef; cbn [of_option bind].
    + simpl. auto.
    + right. split; [reflexivity|]. intros Hin.
      destruct (find_m_concat _ _ Hin) as (m' & Hm'). congruence.
  - left. split; [reflexivity|]. now apply median_nil_iff.
Qed.

(** X16. A key built by the loader from a sequence without underscore
    parses back: for a master candidate with at least one peer prediction
    a row is synthesized (the parse raises neither the index nor the value
    error) and it carries that sequence and that charge. *)
Theorem synthesized_row_recovers_sequence_and_charge (first : Row)
    (cands : list MasterRow) (i : nat) (seq : string) (z : Z)
    (cells : list (option Q)) :
  str_count "_" seq = 0%nat ->
  not_nan cells <> [] ->
  In (concat_of seq z) (map m_concat cands) ->
  exists r,
    mar_row first cands (i, (concat_of seq z, cells)) = Ok r /\
    sequence r = seq /\ charge r = z /\ concat r = concat_of seq z.
Proof.
  intros Hs Hc Hin.
  pose proof (mar_row_concat_of first cands i seq z cells Hs) as H.
  destruct (mar_row first cands (i, (concat_of seq z, cells))) as [r|e].
  - exists r. split; [reflexivity|exact H].
  - exfalso. destruct H as [[_ H]|[_ H]]; contradiction.
Qed.

Lemma mar_row_three_fields (first : Row)
    (cands : list MasterRow) (i : nat) (a b rest : string)
    (cells : list (option Q)) :
  str_count "_" a = 0%nat -> str_count "_" b = 0%nat ->
  let key := (a ++ String "_" (b ++ String "_" rest))%string in
  match mar_row first cands (i, (key, cells)) with
  | Ok r => sequence r = a /\ int_of_str b = Some (charge r)
  | Err e =>
    (e = ValueError "NaN to integer" /\ not_nan cells = []) \/
    (e = ValueError "int" /\ int_of_str b = None) \/
    (e = KeyError key /\ ~ In key (map m_concat cands))
  end.
Proof.
  intros Ha Hb key. subst key. unfold mar_row. cbv zeta. cbn [fst snd].
  rewrite (split_on_first _ _ _ Ha), (split_on_first _ _ _ Hb).
  unfold mar_scan.
  destruct (median (not_nan cells)) as [m|] eqn:Em; cbn [of_option bind].
  - cbn [nth_error nth of_option bind].
    destruct (int_of_str b) as [c|]; cbn [of_option bind].
    + destruct (find _ cands) as [m'|] eqn:Ef; cbn [of_option bind].
      * simpl. auto.
      * right. right. split; [reflexivity|]. intros Hin.
        destruct (find_m_concat _ _ Hin) as (m'' & Hm''). congruence.
    + right. left. auto.
  - left. split; [reflexivity|]. now apply median_nil_iff.
Qed.

(** X17. The key is split at every underscore and only the first two
    fields are read: when a key continues after the charge with a further
    underscore, the synthesized row still takes the first field as its
    sequence and the second as its charge, whatever follows; so a sequence
    that itself holds an underscore does not parse back. *)
Theorem key_parse_reads_first_two_fields (first : Row)
    (cands : list MasterRow) (i : nat) (a : string) (z : Z) (rest : string)
    (cells : list (option Q)) :
  str_count "_" a = 0%nat ->
  not_nan cells <> [] ->
  In (concat_of a z ++ String "_" rest)%string (map m_concat cands) ->
  exists r,
    mar_row first cands (i, ((concat_of a z ++ String "_" rest)%string, cells))
      = Ok r /\
    sequence r = a /\ charge r = z /\
    concat r = (concat_of a z ++ String "_" rest)%string.
Proof.
  intros Ha Hc.
  assert (Ek : (concat_of a z ++ String "_" rest)%string
               = (a ++ String "_" (NilZero.string_of_int (Z.to_int z)
                                   ++ String "_" rest))%string).
  { unfold concat_of.
    change ("_" ++ NilZero.string_of_int (Z.to_int z))%string
      with (String "_" (NilZero.string_of_int (Z.to_int z))).
    generalize (NilZero.string_of_int (Z.to_int z)). intros b.
    induction a as [|x a IH]; simpl; [reflexivity|].
    simpl in Ha. destruct (Ascii.eqb x "_"); [discriminate|].
    now rewrite IH. }
  rewrite Ek. intros Hin.
  pose proof (mar_row_three_fields first cands i a
                (NilZero.string_of_int (Z.to_int z)) rest cells Ha
                (str_count_string_of_int z)) as H.
  cbv zeta in H. rewrite int_of_str_string_of_int in H.
  destruct (mar_row first cands _) as [r|e] eqn:E.
  - exists r. split; [reflexivity|]. destruct H as [H1 H2].
    injection H2 as <-. split; [exact H1|]. split; [reflexivity|].
    apply mar_row_ok in E. simpl in E. tauto.
  - exfalso. destruct H as [[_ H]|[[_ H]|[_ H]]];
      [contradiction|discriminate|contradiction].
Qed.

(** ** The loader *)

Section LoaderFacts.
Variable read_percolator : string -> result (list Row).

Let frame := loaded_frame read_percolator.

Lemma read_samples_ok (todo : list string) (acc all_psms : list Row) :
  read_samples read_percolator todo acc = Ok all_psms ->
  (forall s, In s todo -> exists id_df, read_percolator s = Ok id_df) /\
  all_psms = acc ++ flat_map frame todo.
Proof.
  revert acc. induction todo as [|s todo IH]; intros acc; simpl.
  - intros [= <-]. split; [tauto|now rewrite app_nil_r].
  - unfold frame at 1, loaded_frame. destruct (read_percolator s) as [id_df|e] eqn:E;
      cbn [bind]; [|discriminate].
    intros H. apply IH in H. destruct H as [Hall ->]. split.
    + intros s' [<-|Hs']; [now exists id_df|now apply Hall].
    + now rewrite <- app_assoc.
Qed.

Lemma read_samples_err (todo : list string) (acc : list Row) (e : error) :
  read_samples read_percolator todo acc = Err e <->
  exists before s after,
    todo = before ++ s :: after /\
    (forall s', In s' before -> exists id_df, read_percolator s' = Ok id_df) /\
    read_percolator s = Err e.
Proof.
  revert acc. induction todo as [|s todo IH]; intros acc; simpl.
  - split; [discriminate|]. intros (b & s & a & E & _). destruct b; discriminate.
  - destruct (read_percolator s) as [id_df|e'] eqn:Es; cbn [bind].
    + rewrite IH. split.
      * intros (b & s' & a & -> & Hb & Hs').
        exists (s :: b), s', a. split; [reflexivity|]. split; [|exact Hs'].
        intros x [<-|Hx]; [now exists id_df|now apply Hb].
      * intros (b & s' & a & E & Hb & Hs'). destruct b as [|x b].
        -- injection E as <- <-. congruence.
        -- injection E as <- ->. exists b, s', a.
           split; [reflexivity|]. split; [|exact Hs'].
           intros y Hy. apply Hb. now right.
    + split.
      * intros [= <-]. exists [], s, todo. split; [reflexivity|].
        split; [intros ? []|exact Es].
      * intros (b & s' & a & E & Hb & Hs'). destruct b as [|x b].
        -- injection E as <- <-. congruence.
        -- injection E as <- ->. destruct (Hb s) as (f & Hf); [now left|].
           congruence.
Qed.

Lemma read_all_project_psms_outcome_lemma (st st' : State) :
  read_all_project_psms read_percolator st = Ok st' ->
  master_id_df st' = flat_map frame (samples st).
Proof.
  unfold read_all_project_psms.
  destruct (read_samples read_percolator (samples st) []) as [all|e] eqn:E;
    cbn [bind]; [|discriminate].
  intros [= <-]. apply read_samples_ok in E. destruct E as [_ ->].
  reflexivity.
Qed.

Lemma filter_all_in {A} (f : A -> bool) (l : list A) :
  (forall x, In x l -> f x = true) -> filter f l = l.
Proof.
  induction l as [|a l IH]; simpl; intros H; [reflexivity|].
  rewrite (H a), IH; auto.
Qed.

(** X18. Loading stops at the first sample that cannot be read, with that
    sample's error; when every sample is read the store holds the rows of
    the samples in project order, each stamped with its sample name and
    with the key sequence_charge, and nothing else of the state changes. *)
Theorem read_all_project_psms_outcome (st : State) :
  match read_all_project_psms read_percolator st with
  | Ok st' =>
    (forall s, In s (samples st) ->
               exists id_df, read_percolator s = Ok id_df) /\
    master_id_df st' = flat_map frame (samples st) /\
    (forall x, In x (master_id_df st') ->
       In (sample x) (samples st) /\
       concat x = concat_of (sequence x) (charge x)) /\
    samples st' = samples st /\
    match_across_runs_master st' = match_across_runs_master st
  | Err e =>
    exists before s after,
      samples st = before ++ s :: after /\
      (forall s', In s' before ->
                  exists id_df, read_percolator s' = Ok id_df) /\
      read_percolator s = Err e
  end.
Proof.
  unfold read_all_project_psms.
  destruct (read_samples read_percolator (samples st) []) as [all|e] eqn:E;
    cbn [bind].
  - apply read_samples_ok in E. destruct E as [Hall ->]. simpl.
    split; [exact Hall|]. split; [reflexivity|].
    split; [|split; reflexivity].
    intros x Hx. apply in_flat_map in Hx. destruct Hx as (s & Hs & Hx).
    unfold frame, loaded_frame in Hx. destruct (read_percolator s); [|destruct Hx].
    apply in_map_iff in Hx. destruct Hx as (y & <- & _). simpl. auto.
  - now apply read_samples_err in E.
Qed.

Lemma filter_frame (todo : list string) (s : string) :
  NoDup todo -> In s todo ->
  filter (fun x => String.eqb (sample x) s) (flat_map frame todo) = frame s.
Proof.
  assert (Hsame : forall s', filter (fun x => String.eqb (sample x) s')
                               (frame s') = frame s').
  { intros s'. apply filter_all_in. intros x Hx. unfold frame, loaded_frame in Hx.
    destruct (read_percolator s'); [|destruct Hx].
    apply in_map_iff in Hx. destruct Hx as (y & <- & _). simpl.
    apply String.eqb_refl. }
  assert (Hother : forall s', s' <> s ->
            filter (fun x => String.eqb (sample x) s) (frame s') = []).
  { intros s' Hne. apply filter_nil. intros x Hx. unfold frame, loaded_frame in Hx.
    destruct (read_percolator s'); [|destruct Hx].
    apply in_map_iff in Hx. destruct Hx as (y & <- & _). simpl.
    destruct (String.eqb s' s) eqn:E; [|reflexivity].
    apply String.eqb_eq in E. contradiction. }
  induction todo as [|t todo IH]; simpl; [tauto|].
  intros Hnd Hin. inversion Hnd as [|? ? Hn Hd]; subst.
  rewrite filter_app. destruct Hin as [->|Hin].
  - rewrite Hsame. rewrite (filter_nil _ (flat_map frame todo)).
    + apply app_nil_r.
    + intros x Hx. apply in_flat_map in Hx. destruct Hx as (s' & Hs' & Hx).
      assert (Hne : s' <> s) by (intros ->; contradiction).
      assert (Hf : In x (filter (fun x => String.eqb (sample x) s) (frame s'))
                   -> False) by (rewrite (Hother s' Hne); tauto).
      destruct (String.eqb (sample x) s) eqn:E; [|reflexivity].
      exfalso. apply Hf. apply filter_In. auto.
  - rewrite Hother by (intros ->; contradiction). simpl. now apply IH.
Qed.

(** X19. What was loaded for a sample is what selecting the sample gives
    back: when the project names each sample once and the sample's file has
    rows, [get_current_sample_psms] after [read_all_project_psms] holds
    exactly that file's rows, in file order, stamped with the sample. *)
Theorem loaded_sample_is_selected (st st' : State) (s : string)
    (id_df : list Row) :
  NoDup (samples st) -> In s (samples st) ->
  read_percolator s = Ok id_df -> id_df <> [] ->
  read_all_project_psms read_percolator st = Ok st' ->
  get_current_sample_psms st' s =
  Ok (set_curr_sample st' (map (stamp s) id_df)).
Proof.
  intros Hnd Hin Hread Hne Hload.
  pose proof (read_all_project_psms_outcome_lemma st st' Hload) as Hm.
  unfold get_current_sample_psms, assert_. rewrite Hm.
  rewrite (filter_frame _ _ Hnd Hin).
  assert (Ef : frame s = map (stamp s) id_df)
    by (unfold frame, loaded_frame; now rewrite Hread).
  rewrite Ef.
  replace (mem_str s (map sample (flat_map frame (samples st)))) with true;
    [reflexivity|].
  symmetry. apply mem_str_In. apply in_map_iff.
  destruct id_df as [|y l]; [congruence|].
  exists (stamp s y). split; [reflexivity|].
  apply in_flat_map. exists s. split; [exact Hin|]. rewrite Ef. now left.
Qed.

End LoaderFacts.

(** ** Nothing that qualifies is lost *)

Lemma fill_predictions_nan (int_column : bool) (scan_list : list (option Z))
    (preds : list Q) (i : nat) :
  nth i (fill_predictions int_column scan_list preds) None = None <->
  nth i scan_list None = None.
Proof.
  revert preds i. induction scan_list as [|c t IH]; intros preds i; simpl.
  - destruct i; tauto.
  - destruct c as [s|].
    + destruct preds as [|p ps]; destruct i as [|i]; simpl;
        try (split; discriminate); apply IH.
    + destruct i as [|i]; simpl; [tauto|apply IH].
Qed.

Lemma index_from_In_nth {A} (l : list A) (s : nat) (p : nat * A) :
  In p (index_from s l) <->
  exists i, fst p = (s + i)%nat /\ nth_error l i = Some (snd p).
Proof.
  revert s. induction l as [|a l IH]; intros s; simpl.
  - split; [tauto|]. intros ([|i] & _ & H); discriminate.
  - rewrite IH. split.
    + intros [<-|(i & E & H)].
      * exists 0%nat. simpl. split; [lia|reflexivity].
      * exists (S i). simpl. split; [lia|exact H].
    + intros ([|i] & E & H); simpl in H.
      * left. destruct p as [n x]. simpl in *. injection H as <-.
        f_equal. lia.
      * right. exists i. split; [lia|exact H].
Qed.

Lemma keys_find (l : list Row) (k : string) :
  In k (keys l) <-> find (has_key k) l <> None.
Proof.
  split.
  - intros H. unfold keys in H. apply in_map_iff in H.
    destruct H as (x & Hk & Hx).
    destruct (find_key_exists l k) as (r & -> & _); [eauto|discriminate].
  - destruct (find (has_key k) l) as [r|] eqn:E; [|congruence].
    intros _. apply find_some in E. destruct E as [Hr Hk].
    apply has_key_eq in Hk. subst k. unfold keys. now apply in_map.
Qed.

Section Coverage.
Variable sort_values : forall A : Type, (A -> Q) -> list A -> list A.
Variable model : Type.
Variable fit : list Q -> list Q -> option model.
Variable predict : model -> list Q -> option (list Q).
Variable soft_threshold_q : Q.

Let filter_current := filter_current_fraction_psms sort_values model fit
                        predict soft_threshold_q.

(** X20. The filter loses no qualifying row: every row of the fraction
    that passes the confidence filter is in the result labelled 'q_value',
    and with the soft threshold every row in the soft band whose key is a
    master candidate of the fraction index is there labelled 'soft'. *)
Theorem qualifying_rows_are_kept (st st' : State) (first x : Row)
    (peptide_q : Q) (unique_only use_soft_threshold match_across_runs : bool) :
  filter_current st peptide_q unique_only use_soft_threshold
                 match_across_runs = Ok st' ->
  hd_error (curr_frac_id_df st) = Some first ->
  In x (curr_frac_id_df st) ->
  (keep peptide_q unique_only x = true ->
   In (set_evidence q_value_ev x) (curr_frac_filtered_id_df st')) /\
  (use_soft_threshold = true ->
   (peptide_q <= q_value x)%Q -> (q_value x < soft_threshold_q)%Q ->
   (exists m, In m (match_across_runs_master st) /\
              m_concat m = concat x /\
              (m_file_idx m == inject_Z (file_idx first))%Q) ->
   In (set_evidence soft x) (curr_frac_filtered_id_df st')).
Proof.
  intros H Hfirst Hx. unfold filter_current in H.
  rewrite filter_current_unfold, Hfirst in H. cbv zeta in H.
  destruct (existsb _ _); [|discriminate].
  destruct (master_built st); [|discriminate].
  set (filtered := filtered_at_mar soft_threshold_q st peptide_q unique_only
                     use_soft_threshold (file_idx first)) in *.
  assert (Hout : forall r, In r filtered ->
                           In r (curr_frac_filtered_id_df st')).
  { intros r Hr. destruct match_across_runs.
    - destruct (match_across_runs_rows _ _ _ _ _ _ _ _ _ _) as [rs|];
        cbn [bind] in H; [|discriminate].
      injection H as <-. simpl. apply in_or_app. now left.
    - injection H as <-. exact Hr. }
  split.
  - intros Hk. apply Hout. unfold filtered, filtered_at_mar.
    assert (In (set_evidence q_value_ev x)
               (strict_set st peptide_q unique_only)).
    { unfold strict_set. apply in_map. apply filter_In. auto. }
    destruct use_soft_threshold; [apply in_or_app; now left|assumption].
  - intros -> Hge Hlt (m & Hm & Hk & Hidx). apply Hout.
    unfold filtered, filtered_at_mar. apply in_or_app. right.
    unfold soft_rows. apply in_map. unfold merge_inner.
    apply in_flat_map. exists x. split.
    + apply filter_In. split; [|now apply Qltb_lt].
      apply filter_In. split; [exact Hx|now apply Qle_bool_iff].
    + apply in_map_iff. exists m. split; [reflexivity|].
      apply filter_In. split.
      * unfold candidates_at. apply filter_In.
        split; [exact Hm|now apply Qeq_bool_iff].
      * now apply String.eqb_eq.
Qed.

Lemma peer_column_ok (st : State) (peptide_q : Q) (unique_only : bool)
    (idx : Z) (filtered : list Row) (cands : list string)
    (each_sample : string) (col : list (option Q)) :
  peer_column sort_values model fit predict st peptide_q unique_only idx
              filtered cands each_sample = Ok col ->
  exists other,
    other_sample_df sort_values st peptide_q unique_only idx each_sample
      = Ok other /\
    forall i k, nth_error cands i = Some k ->
      (nth i col None <> None <-> In k (keys other)).
Proof.
  unfold peer_column.
  destruct (other_sample_df_ok sort_values st peptide_q unique_only idx
              each_sample) as (other & ->).
  cbn [bind]. cbv zeta.
  destruct (fit _ _) as [regr|]; cbn [of_option bind]; [|discriminate].
  destruct (predict regr _) as [y_hat|]; cbn [of_option bind];
    [|discriminate].
  destruct (Nat.eqb _ _); cbn [bind]; [|discriminate].
  destruct (predict regr _) as [preds|]; cbn [of_option bind];
    [|discriminate].
  destruct (Nat.eqb _ _); cbn [bind]; [|discriminate].
  intros [= <-]. exists other. split; [reflexivity|].
  intros i k Hi. rewrite fill_predictions_nan, keys_find.
  assert (E : nth i (map (fun k => option_map scan (find (has_key k) other))
                         cands) None
              = option_map scan (find (has_key k) other)).
  { revert i Hi. induction cands as [|c t IH]; intros [|i] Hi; simpl in *;
      try discriminate.
    - now injection Hi as ->.
    - now apply IH. }
  rewrite E. destruct (find (has_key k) other); simpl;
    split; congruence.
Qed.

Lemma Forall2_In_l {A B} (R : A -> B -> Prop) (l : list A) (l' : list B)
    (x : A) :
  Forall2 R l l' -> In x l -> exists y, In y l' /\ R x y.
Proof.
  induction 1 as [|a b l l' Hab _ IH]; simpl; [tauto|].
  intros [<-|Hx].
  - exists b. auto.
  - destruct (IH Hx) as (y & Hy & Hr). exists y. auto.
Qed.

Lemma not_nan_nil (cells : list (option Q)) :
  not_nan cells <> [] <-> exists c, In c cells /\ c <> None.
Proof.
  unfold not_nan. induction cells as [|c t IH]; simpl.
  - split; [congruence|]. intros (c & [] & _).
  - destruct c as [q|]; simpl.
    + split; [|discriminate]. intros _. exists (Some q).
      split; [now left|discriminate].
    + rewrite IH. split.
      * intros (c & Hc & Hn). exists c. auto.
      * intros (c & [<-|Hc] & Hn); [congruence|]. exists c. auto.
Qed.

(** X21. When the call succeeds with match-across-runs, a key has a
    synthesized row exactly when it is a master candidate of the fraction
    index, is absent from the strict and soft rows, and is among the
    confident rows of that fraction in at least one other sample; a
    candidate that no peer identified is dropped without an error. *)
Theorem synthesized_keys (st st' : State) (first cur : Row)
    (peptide_q : Q) (unique_only use_soft_threshold : bool) (k : string) :
  filter_current st peptide_q unique_only use_soft_threshold true = Ok st' ->
  hd_error (curr_frac_id_df st) = Some first ->
  hd_error (filtered_at_mar soft_threshold_q st peptide_q unique_only
              use_soft_threshold (file_idx first)) = Some cur ->
  ((exists r, In r (curr_frac_filtered_id_df st') /\
              evidence r = match_across_runs_ev /\ concat r = k)
   <->
   In k (map m_concat (candidates_at st (file_idx first))) /\
   ~ In k (keys (filtered_at_mar soft_threshold_q st peptide_q unique_only
                   use_soft_threshold (file_idx first))) /\
   exists peer other,
     In peer (map sample (master_id_df st)) /\ peer <> sample cur /\
     other_sample_df sort_values st peptide_q unique_only (file_idx first)
                     peer = Ok other /\
     In k (keys other)).
Proof.
  intros H Hfirst Hcur. unfold filter_current in H.
  rewrite filter_current_unfold, Hfirst in H. cbv zeta in H.
  destruct (existsb _ _); [|discriminate].
  destruct (master_built st); [|discriminate].
  set (idx := file_idx first) in *.
  set (filtered := filtered_at_mar soft_threshold_q st peptide_q unique_only
                     use_soft_threshold idx) in *.
  set (cands := candidates_at st idx) in *.
  destruct (match_across_runs_rows _ _ _ _ _ _ _ _ _ _) as [rs|] eqn:Em;
    cbn [bind] in H; [|discriminate].
  injection H as <-. simpl.
  assert (Hf : forall x, In x filtered -> evidence x <> match_across_runs_ev).
  { intros x. unfold filtered, filtered_at_mar.
    destruct use_soft_threshold; [rewrite in_app_iff; intros [Hx|Hx]|intros Hx].
    - apply strict_set_In in Hx. destruct Hx as [-> _]. discriminate.
    - apply soft_rows_In in Hx. destruct Hx as [-> _]. discriminate.
    - apply strict_set_In in Hx. destruct Hx as [-> _]. discriminate. }
  pose proof (match_across_runs_rows_ok _ _ _ _ _ _ _ _ _ _ _ Em) as Hok.
  destruct Hok as (cur' & Hcur' & _ & _ & Hrows).
  rewrite Hcur in Hcur'. injection Hcur' as <-.
  (* the keys of the synthesized rows *)
  unfold match_across_runs_rows in Em. rewrite Hcur in Em.
  cbn [of_option bind] in Em.
  set (ks := mar_candidates cands filtered) in *.
  set (peers := filter (fun s => negb (String.eqb s (sample cur)))
                       (list_set (map sample (master_id_df st)))) in *.
  destruct (mapM _ peers) as [cols|] eqn:Ec; cbn [bind] in Em;
    [|discriminate].
  apply mapM_ok in Ec. apply mapM_ok in Em.
  assert (Hkeys : keys rs = map fst (dropna_all (pred_df ks cols))).
  { unfold keys. symmetry.
    rewrite <- (index_from_snd (dropna_all (pred_df ks cols)) 0) at 1.
    rewrite map_map. eapply Forall2_map_eq; [|exact Em].
    intros p r Hp. apply mar_row_ok in Hp. symmetry. tauto. }
  assert (Hrs : (exists r, In r (filtered ++ rs) /\
                           evidence r = match_across_runs_ev /\ concat r = k)
                <-> In k (keys rs)).
  { split.
    - intros (r & Hr & He & Hk). apply in_app_iff in Hr.
      destruct Hr as [Hr|Hr]; [exfalso; exact (Hf _ Hr He)|].
      subst k. unfold keys. now apply in_map.
    - intros Hk. unfold keys in Hk. apply in_map_iff in Hk.
      destruct Hk as (r & Hk & Hr). exists r.
      split; [apply in_or_app; now right|]. split; [|exact Hk].
      apply In_nth_error in Hr. destruct Hr as (i & Hi).
      apply Hrows in Hi. tauto. }
  rewrite Hrs, Hkeys. clear Hrs Hkeys Em Hrows.
  assert (Hks : In k ks <-> In k (map m_concat cands) /\ ~ In k (keys filtered)).
  { unfold ks, mar_candidates. rewrite filter_In, negb_true_iff.
    split; intros [H1 H2]; (split; [exact H1|]).
    - intros Hin. apply mem_str_In in Hin. unfold keys in Hin. congruence.
    - destruct (mem_str k (map concat filtered)) eqn:E; [|reflexivity].
      apply mem_str_In in E. contradiction. }
  assert (Hpeer : forall peer, In peer peers <->
            In peer (map sample (master_id_df st)) /\ peer <> sample cur).
  { intros peer. unfold peers. rewrite filter_In, list_set_In, negb_true_iff.
    split; intros [H1 H2]; (split; [exact H1|]).
    - intros ->. now rewrite String.eqb_refl in H2.
    - destruct (String.eqb peer (sample cur)) eqn:E; [|reflexivity].
      apply String.eqb_eq in E. contradiction. }
  split.
  - intros Hk. apply in_map_iff in Hk. destruct Hk as ([k' cells] & Ek & Hp).
    simpl in Ek. subst k'. unfold dropna_all in Hp. apply filter_In in Hp.
    destruct Hp as [Hp Hn]. simpl in Hn.
    unfold pred_df in Hp. apply in_map_iff in Hp.
    destruct Hp as ([i k'] & Ep & Hi). simpl in Ep. injection Ep as -> <-.
    apply index_from_In_nth in Hi. destruct Hi as (j & Ej & Hj).
    simpl in Ej, Hj. subst i.
    assert (Hin : In k ks) by (eapply nth_error_In; eassumption).
    apply Hks in Hin. destruct Hin as [H1 H2].
    split; [exact H1|]. split; [exact H2|].
    apply negb_true_iff, Nat.eqb_neq in Hn.
    assert (Hnn : not_nan (pred_row cols j) <> [])
      by (intros E; rewrite E in Hn; now apply Hn).
    apply not_nan_nil in Hnn. destruct Hnn as (c & Hc & Hcn).
    unfold pred_row in Hc. apply in_map_iff in Hc.
    destruct Hc as (col & <- & Hcol).
    destruct (Forall2_In_r _ _ _ _ Ec Hcol) as (peer & Hp & Hpc).
    apply peer_column_ok in Hpc. destruct Hpc as (other & Ho & Hcells).
    exists peer, other. apply Hpeer in Hp. destruct Hp as [Hp1 Hp2].
    split; [exact Hp1|]. split; [exact Hp2|]. split; [exact Ho|].
    now apply (Hcells j k Hj).
  - intros (H1 & H2 & peer & other & Hp1 & Hp2 & Ho & Hk).
    assert (Hin : In k ks) by (apply Hks; auto).
    apply In_nth_error in Hin. destruct Hin as (j & Hj).
    assert (Hp : In peer peers) by (apply Hpeer; auto).
    destruct (Forall2_In_l _ _ _ _ Ec Hp) as (col & Hcol & Hpc).
    apply peer_column_ok in Hpc. destruct Hpc as (other' & Ho' & Hcells).
    rewrite Ho in Ho'. injection Ho' as <-.
    apply in_map_iff. exists (k, pred_row cols j). split; [reflexivity|].
    unfold dropna_all. apply filter_In. split.
    + unfold pred_df. apply in_map_iff. exists (j, k).
      split; [reflexivity|]. apply index_from_In_nth. exists j.
      split; [reflexivity|exact Hj].
    + simpl. apply negb_true_iff, Nat.eqb_neq. intros E.
      assert (Hnn : not_nan (pred_row cols j) <> []).
      { apply not_nan_nil. exists (nth j col None). split.
        - unfold pred_row. apply in_map_iff. exists col. auto.
        - now apply (Hcells j k Hj). }
      destruct (not_nan (pred_row cols j)); [congruence|discriminate].
Qed.

End Coverage.


(** ** When the match-across-runs block returns *)

Lemma mapM_all_ok {A B} (f : A -> result B) (l : list A) :
  (forall x, In x l -> exists y, f x = Ok y) -> exists ys, mapM f l = Ok ys.
Proof.
  induction l as [|a l IH]; intros H; simpl; [now exists []|].
  destruct (H a (or_introl eq_refl)) as (b & ->).
  destruct IH as (bs & ->); [intros x Hx; apply H; now right|].
  simpl. now exists (b :: bs).
Qed.

Lemma master_key_origin (st st' : State) (peptide_q : Q)
    (unique_only : bool) (min_fraction : Q) (k : string) :
  make_master_match_list st peptide_q unique_only min_fraction = Ok st' ->
  In k (map m_concat (match_across_runs_master st')) ->
  In k (keys (master_id_df st)).
Proof.
  intros H Hk. apply make_master_match_list_ok in H. destruct H as [_ ->].
  simpl in Hk. apply in_map_iff in Hk. destruct Hk as (m & <- & Hm).
  apply filter_In in Hm. destruct Hm as [Hm _].
  apply (in_map m_concat) in Hm. rewrite master_table_keys in Hm.
  apply group_keys_In in Hm. unfold keys in *.
  apply in_map_iff in Hm. destruct Hm as (x & <- & Hx).
  apply filter_In in Hx. apply in_map. tauto.
Qed.

(** Along the call sequence the master table has its columns. *)
Lemma call_sequence_built
    (sort_values : forall A : Type, (A -> Q) -> list A -> list A)
    (st0 st1 st2 st3 : State) (master_q : Q) (master_unique : bool)
    (min_fraction : Q) (current_sample : string) (idx : Z) :
  make_master_match_list st0 master_q master_unique min_fraction = Ok st1 ->
  get_current_sample_psms st1 current_sample = Ok st2 ->
  get_current_fraction_psms sort_values st2 idx = Ok st3 ->
  master_built st3 = true.
Proof.
  intros H1 H2 H3.
  apply make_master_match_list_ok in H1. destruct H1 as [_ ->].
  apply get_current_sample_psms_ok in H2.
  apply get_current_fraction_psms_ok in H3. now subst.
Qed.

Section MarReturns.
Variable sort_values : forall A : Type, (A -> Q) -> list A -> list A.
Hypothesis sort_values_sorts : sorts sort_values.
Variable model : Type.
Variable fit : list Q -> list Q -> option model.
Variable predict : model -> list Q -> option (list Q).
Variable soft_threshold_q : Q.

(** X22. Along the call sequence, on a store whose keys are the loader's
    (sequence, underscore, charge, with no underscore in the sequence),
    the match-across-runs block returns as soon as the filtered set is
    not empty and the regressor calls of every peer sample return: the
    look-up of the current sample, the parse of the keys, the look-up of
    the candidate masses and the conversion of the medians cannot fail. *)
Theorem mar_returns_when_the_regressor_does (st0 st1 st2 st3 : State)
    (master_q : Q) (master_unique : bool) (min_fraction : Q)
    (current_sample : string) (idx : Z)
    (peptide_q : Q) (unique_only use_soft_threshold : bool) :
  (forall x, In x (master_id_df st0) ->
             concat x = concat_of (sequence x) (charge x) /\
             str_count "_" (sequence x) = 0%nat) ->
  make_master_match_list st0 master_q master_unique min_fraction = Ok st1 ->
  get_current_sample_psms st1 current_sample = Ok st2 ->
  get_current_fraction_psms sort_values st2 idx = Ok st3 ->
  filtered_at_mar soft_threshold_q st3 peptide_q unique_only
                  use_soft_threshold idx <> [] ->
  (forall peer,
     In peer (map sample (master_id_df st3)) -> peer <> current_sample ->
     exists col,
       peer_column sort_values model fit predict st3 peptide_q unique_only
         idx
         (filtered_at_mar soft_threshold_q st3 peptide_q unique_only
                          use_soft_threshold idx)
         (mar_candidates
            (candidates_at st3 idx)
            (filtered_at_mar soft_threshold_q st3 peptide_q unique_only
                             use_soft_threshold idx))
         peer = Ok col) ->
  exists st4,
    filter_current_fraction_psms sort_values model fit predict
      soft_threshold_q st3 peptide_q unique_only use_soft_threshold true
    = Ok st4.
Proof.
  intros Hload H1 H2 H3 Hne Hpeers.
  destruct (call_sequence_facts _ sort_values_sorts _ _ _ _ _ _ _ _ _
              H1 H2 H3) as (Em1 & _ & _ & Hrows).
  assert (Hkeys : forall k,
            In k (map m_concat (match_across_runs_master st3)) ->
            exists seq z, k = concat_of seq z /\ str_count "_" seq = 0%nat).
  { intros k Hk. rewrite Em1 in Hk.
    apply (master_key_origin _ _ _ _ _ _ H1) in Hk.
    unfold keys in Hk. apply in_map_iff in Hk.
    destruct Hk as (x & <- & Hx). destruct (Hload x Hx) as [E Hs].
    exists (sequence x), (charge x). auto. }
  pose proof (get_current_fraction_psms_ok _ _ _ _ H3) as E3.
  assert (Hcs : curr_sample_id_df st3 = curr_sample_id_df st2)
    by (subst st3; reflexivity).
  assert (Hidx : existsb (Z.eqb idx) (map file_idx (curr_sample_id_df st2))
                 = true).
  { unfold get_current_fraction_psms, assert_ in H3.
    destruct (existsb _ _); [reflexivity|discriminate]. }
  (* every identified row belongs to the current sample *)
  assert (Hid : forall x,
            In x (filtered_at_mar soft_threshold_q st3 peptide_q unique_only
                                  use_soft_threshold idx) ->
            sample x = current_sample).
  { intros x. unfold filtered_at_mar.
    assert (Hs : In x (strict_set st3 peptide_q unique_only) ->
                 sample x = current_sample).
    { intros Hx. apply strict_set_In in Hx.
      destruct Hx as (_ & y & Hy & -> & _). simpl. now apply Hrows. }
    destruct use_soft_threshold; [|exact Hs].
    rewrite in_app_iff. intros [Hx|Hx]; [now apply Hs|].
    apply soft_rows_In in Hx. destruct Hx as (_ & y & Hy & -> & _).
    simpl. now apply Hrows. }
  (* the guards of the filter *)
  destruct (filtered_at_mar soft_threshold_q st3 peptide_q unique_only
                            use_soft_threshold idx) as [|cur rest] eqn:Ef;
    [congruence|].
  assert (Hfirst : exists first, hd_error (curr_frac_id_df st3) = Some first).
  { destruct (curr_frac_id_df st3) as [|a l] eqn:Ec; [|now exists a].
    exfalso. clear Hid Hne Hpeers.
    unfold filtered_at_mar, strict_set, soft_rows, merge_inner in Ef.
    rewrite Ec in Ef. simpl in Ef. destruct use_soft_threshold; discriminate. }
  destruct Hfirst as (first & Hfirst).
  assert (Hfi : file_idx first = idx).
  { destruct (curr_frac_id_df st3) as [|a l]; [discriminate|].
    injection Hfirst as ->. apply Hrows. now left. }
  rewrite filter_current_unfold, Hfirst. cbv zeta. rewrite Hfi, Hcs, Hidx.
  rewrite (call_sequence_built _ _ _ _ _ _ _ _ _ _ H1 H2 H3), Ef.
  (* the block itself *)
  assert (Hcur : sample cur = current_sample) by (apply Hid; now left).
  unfold match_across_runs_rows. cbn [hd_error of_option bind]. rewrite Hcur.
  set (cands := candidates_at st3 idx) in *.
  set (ks := mar_candidates cands (cur :: rest)) in *.
  destruct (mapM_all_ok
              (peer_column sort_values model fit predict st3 peptide_q
                           unique_only idx (cur :: rest) ks)
              (filter (fun s => negb (String.eqb s current_sample))
                      (list_set (map sample (master_id_df st3)))))
    as (cols & ->).
  { intros peer Hp. apply filter_In in Hp. destruct Hp as [Hp Hn].
    apply (proj1 (list_set_In _ _)) in Hp. apply Hpeers; [exact Hp|].
    intros ->. now rewrite String.eqb_refl in Hn. }
  cbn [bind].
  destruct (mapM_all_ok (mar_row cur cands)
              (index_from 0 (dropna_all (pred_df ks cols)))) as (rs & ->).
  { intros [i [k cells]] Hp. apply index_from_In in Hp. simpl in Hp.
    unfold dropna_all in Hp. apply filter_In in Hp.
    destruct Hp as [Hp Hn]. simpl in Hn.
    apply negb_true_iff, Nat.eqb_neq in Hn.
    assert (Hcells : not_nan cells <> [])
      by (intros E; rewrite E in Hn; now apply Hn).
    unfold pred_df in Hp. apply in_map_iff in Hp.
    destruct Hp as (q & Eq & Hq). injection Eq as Ek _.
    apply index_from_In in Hq. rewrite Ek in Hq.
    unfold ks, mar_candidates in Hq. apply filter_In in Hq.
    destruct Hq as [Hk _].
    assert (Hm : In k (map m_concat (match_across_runs_master st3))).
    { unfold cands, candidates_at in Hk. apply in_map_iff in Hk.
      destruct Hk as (m & <- & Hm). apply filter_In in Hm.
      apply in_map. tauto. }
    destruct (Hkeys k Hm) as (seq & z & -> & Hs).
    pose proof (mar_row_concat_of cur cands i seq z cells Hs) as H.
    destruct (mar_row cur cands (i, (concat_of seq z, cells))) as [r|e].
    - now exists r.
    - exfalso. destruct H as [[_ H]|[_ H]]; contradiction. }
  cbn [bind]. eexists. reflexivity.
Qed.

End MarReturns.
(* ================================================================== *)
(** * The further properties on the small project *)

Lemma filter_df_by_args_idempotent_witness :
  exists df',
    filter_df_by_args (loaded rows_E) (1 # 100) true = Ok df' /\
    filter_df_by_args df' (1 # 100) true = Ok df'.
Proof.
  eexists. split; [vm_compute; reflexivity|].
  apply (filter_df_by_args_idempotent (loaded rows_E)).
  vm_compute. reflexivity.
Defined.

Lemma filter_df_by_args_refines_witness :
  exists d1,
    filter_df_by_args (loaded rows_E) (2 # 1000) true = Ok d1 /\
    exists d2,
      filter_df_by_args (loaded rows_E) (1 # 100) false = Ok d2 /\
      filter_df_by_args d2 (2 # 1000) true = Ok d1 /\
      incl (rows d1) (rows d2).
Proof.
  eexists. split; [vm_compute; reflexivity|].
  apply (filter_df_by_args_refines (loaded rows_E) _ (2 # 1000) (1 # 100)
           true false).
  - vm_compute. discriminate.
  - discriminate.
  - vm_compute. reflexivity.
Defined.

Lemma master_keys_distinct_witness :
  exists st',
    make_master_match_list project_AC (1 # 100) false (1 # 4) = Ok st' /\
    NoDup (map m_concat (match_across_runs_master st')) /\
    forall m, In m (match_across_runs_master st') ->
      (1 <= num_samples m)%nat /\
      exists x, In x (master_id_df project_AC) /\
                concat x = m_concat m /\ keep (1 # 100) false x = true.
Proof.
  eexists. split; [vm_compute; reflexivity|].
  apply (master_keys_distinct project_AC _ (1 # 100) false (1 # 4)).
  vm_compute. reflexivity.
Defined.

Lemma get_current_sample_psms_outcome_witness :
  exists st',
    get_current_sample_psms project_AC "A" = Ok st' /\
    curr_sample_id_df st' = rows_A.
Proof.
  assert (Hne : master_id_df project_AC <> [])
    by (vm_compute; discriminate).
  pose proof (get_current_sample_psms_outcome project_AC "A" Hne) as H.
  destruct (get_current_sample_psms project_AC "A") as [st'|e] eqn:E.
  - exists st'. split; [reflexivity|].
    destruct H as (_ & _ & H & _). rewrite H. reflexivity.
  - exfalso. vm_compute in E. discriminate.
Defined.

Lemma indices_are_the_resolvable_fractions_witness :
  get_current_sample_mzid_indices (sample_loaded "H" rows_H) = [1] /\
  get_current_fraction_psms stable_sort_values (sample_loaded "H" rows_H) 0
    = Err AssertionError.
Proof.
  split; [reflexivity|].
  assert (Hne : curr_sample_id_df (sample_loaded "H" rows_H) <> [])
    by (vm_compute; discriminate).
  apply (indices_are_the_resolvable_fractions stable_sort_values
           (sample_loaded "H" rows_H) 0 Hne).
  vm_compute. intros [H|[]]. discriminate.
Defined.

Lemma get_current_fraction_psms_outcome_witness :
  sorts stable_sort_values /\
  exists st',
    get_current_fraction_psms stable_sort_values (sample_loaded "E" rows_E) 0
      = Ok st' /\
    curr_frac_id_df st' <> [] /\
    (forall x, In x (curr_frac_id_df st') -> file_idx x = 0) /\
    NoDup (keys (curr_frac_id_df st')).
Proof.
  split; [exact stable_sort_values_sorts|].
  assert (Hne : curr_sample_id_df (sample_loaded "E" rows_E) <> [])
    by (vm_compute; discriminate).
  pose proof (get_current_fraction_psms_outcome stable_sort_values
                stable_sort_values_sorts (sample_loaded "E" rows_E) 0 Hne)
    as H.
  destruct (get_current_fraction_psms stable_sort_values
              (sample_loaded "E" rows_E) 0) as [st'|e] eqn:E.
  - exists st'. split; [reflexivity|]. tauto.
  - exfalso. vm_compute in E. discriminate.
Defined.

Lemma filter_after_resolve_succeeds_witness :
  exists st1 st2 st3,
    make_master_match_list project_AC (1 # 100) false (1 # 4) = Ok st1 /\
    get_current_sample_psms st1 "A" = Ok st2 /\
    get_current_fraction_psms stable_sort_values st2 0 = Ok st3 /\
    filter_current_fraction_psms stable_sort_values NearestNeighbour.model
      NearestNeighbour.fit NearestNeighbour.predict example_soft_threshold_q
      st3 (1 # 100) false true false
    = Ok (set_curr_frac_filtered st3
            (filtered_at_mar example_soft_threshold_q st3 (1 # 100) false
                             true 0)).
Proof.
  do 3 eexists. split; [vm_compute; reflexivity|].
  split; [vm_compute; reflexivity|].
  match goal with
  | |- ?P /\ _ => assert (H : P) by (vm_compute; reflexivity)
  end.
  split; [exact H|].
  eapply (filter_after_resolve_succeeds stable_sort_values
            stable_sort_values_sorts NearestNeighbour.model
            NearestNeighbour.fit NearestNeighbour.predict
            example_soft_threshold_q project_AC _ _ _
            (1 # 100) false (1 # 4) "A" 0 (1 # 100) false true).
  - vm_compute. reflexivity.
  - vm_compute. reflexivity.
  - exact H.
Defined.

Lemma mar_keys_disjoint_from_identified_witness :
  exists st3 st4,
    load_fraction stable_sort_values project_AC (1 # 100) false (1 # 4) "A" 0
      = Ok st3 /\
    filter_with_nn stable_sort_values st3 (1 # 100) false true true
      = Ok st4 /\
    forall r r',
      In r (curr_frac_filtered_id_df st4) ->
      In r' (curr_frac_filtered_id_df st4) ->
      evidence r = match_across_runs_ev ->
      evidence r' <> match_across_runs_ev -> concat r <> concat r'.
Proof.
  eexists. eexists. split; [vm_compute; reflexivity|].
  match goal with
  | |- ?P /\ _ => assert (H : P) by (vm_compute; reflexivity)
  end.
  split; [exact H|]. intros r r'.
  exact (mar_keys_disjoint_from_identified stable_sort_values
           NearestNeighbour.model NearestNeighbour.fit
           NearestNeighbour.predict example_soft_threshold_q _ _
           (1 # 100) false true true r r' H).
Defined.

Lemma filtered_fraction_keys_distinct_witness :
  exists st1 st2 st3 st4,
    make_master_match_list project_AC (1 # 100) false (1 # 4) = Ok st1 /\
    get_current_sample_psms st1 "A" = Ok st2 /\
    get_current_fraction_psms stable_sort_values st2 0 = Ok st3 /\
    filter_with_nn stable_sort_values st3 (1 # 100) false true true
      = Ok st4 /\
    NoDup (keys (curr_frac_filtered_id_df st4)).
Proof.
  do 4 eexists. split; [vm_compute; reflexivity|].
  split; [vm_compute; reflexivity|].
  split; [vm_compute; reflexivity|].
  split; [vm_compute; reflexivity|].
  eapply (filtered_fraction_keys_distinct stable_sort_values
            stable_sort_values_sorts NearestNeighbour.model
            NearestNeighbour.fit NearestNeighbour.predict
            example_soft_threshold_q project_AC _ _ _ _
            (1 # 100) false (1 # 4) "A" 0 (1 # 100) false true true).
  - vm_compute. reflexivity.
  - vm_compute. reflexivity.
  - vm_compute. reflexivity.
  - vm_compute. reflexivity.
Defined.

Lemma filtered_fraction_layout_witness :
  exists st1 st2 st3 st4,
    make_master_match_list project_AC (1 # 100) false (1 # 4) = Ok st1 /\
    get_current_sample_psms st1 "A" = Ok st2 /\
    get_current_fraction_psms stable_sort_values st2 0 = Ok st3 /\
    filter_with_nn stable_sort_values st3 (1 # 100) false true true
      = Ok st4 /\
    exists identified synthesized,
      curr_frac_filtered_id_df st4 = identified ++ synthesized /\
      (true = false -> synthesized = []) /\
      (forall x, In x identified ->
         (evidence x = q_value_ev \/ evidence x = soft) /\
         sample x = "A" /\ file_idx x = 0) /\
      (forall i r, nth_error synthesized i = Some r ->
         pep_id r = Matched i /\ evidence r = match_across_runs_ev /\
         sample r = "A" /\ file_idx r = 0 /\
         q_value r = 0%Q /\ protein_id r = "NA" /\
         exists m, In m (match_across_runs_master st1) /\
                   (m_file_idx m == inject_Z 0)%Q /\
                   m_concat m = concat r /\
                   precursor_mz r = m_precursor_mz m /\
                   peptide_mass r = m_peptide_mass m).
Proof.
  do 4 eexists. split; [vm_compute; reflexivity|].
  split; [vm_compute; reflexivity|].
  split; [vm_compute; reflexivity|].
  split; [vm_compute; reflexivity|].
  eapply (filtered_fraction_layout stable_sort_values
            stable_sort_values_sorts NearestNeighbour.model
            NearestNeighbour.fit NearestNeighbour.predict
            example_soft_threshold_q project_AC _ _ _ _
            (1 # 100) false (1 # 4) "A" 0 (1 # 100) false true true).
  - vm_compute. reflexivity.
  - vm_compute. reflexivity.
  - vm_compute. reflexivity.
  - vm_compute. reflexivity.
Defined.

Lemma soft_threshold_below_strict_is_off_witness :
  exists st3,
    load_fraction stable_sort_values project_AC (1 # 100) false (1 # 4) "A" 0
      = Ok st3 /\
    filter_current_fraction_psms stable_sort_values NearestNeighbour.model
      NearestNeighbour.fit NearestNeighbour.predict (1 # 100)
      st3 (1 # 100) false true true
    = filter_current_fraction_psms stable_sort_values NearestNeighbour.model
        NearestNeighbour.fit NearestNeighbour.predict (1 # 100)
        st3 (1 # 100) false false true.
Proof.
  eexists. split; [vm_compute; reflexivity|].
  apply (soft_threshold_below_strict_is_off stable_sort_values
           NearestNeighbour.model NearestNeighbour.fit
           NearestNeighbour.predict (1 # 100) _ (1 # 100) false true).
  vm_compute. discriminate.
Defined.

Lemma no_peer_no_synthesized_rows_witness :
  exists st3,
    load_fraction stable_sort_values (project ["E"] rows_E) (1 # 100) false
                  (1 # 4) "E" 0 = Ok st3 /\
    filter_with_nn stable_sort_values st3 (1 # 100) false true true
    = filter_with_nn stable_sort_values st3 (1 # 100) false true false.
Proof.
  eexists. split; [vm_compute; reflexivity|].
  apply (no_peer_no_synthesized_rows stable_sort_values
           NearestNeighbour.model NearestNeighbour.fit
           NearestNeighbour.predict example_soft_threshold_q _
           (set_pep_id (PepIndex 0)
              (psm "E" 0 100 "PEPTIDE" 2 (1 # 1000) "P1,P2"))
           (set_evidence q_value_ev
              (set_pep_id (PepIndex 0)
                 (psm "E" 0 100 "PEPTIDE" 2 (1 # 1000) "P1,P2")))
           (1 # 100) false true).
  - vm_compute. reflexivity.
  - vm_compute. reflexivity.
  - intros x Hx. vm_compute in Hx.
    destruct Hx as [<-|[<-|[<-|[]]]]; reflexivity.
Defined.

Lemma mar_scan_peer_order_witness :
  mar_scan [Some 100%Q; None; Some (207 # 2)]
  = mar_scan [None; Some (207 # 2); Some 100%Q].
Proof.
  apply mar_scan_peer_order.
  eapply perm_trans; [apply perm_swap|apply perm_skip, perm_swap].
Defined.

Lemma mar_scan_within_predictions_witness :
  mar_scan [Some 100%Q; None; Some (207 # 2)] = Ok 101 /\ 100 <= 101 <= 104.
Proof.
  split; [vm_compute; reflexivity|].
  apply (mar_scan_within_predictions [Some 100%Q; None; Some (207 # 2)]
           100 104 101).
  - vm_compute. discriminate.
  - vm_compute. discriminate.
  - intros q [H|[H|[H|[]]]]; try discriminate;
      injection H as <-; vm_compute; split; discriminate.
  - vm_compute. reflexivity.
Defined.

Lemma synthesized_row_recovers_sequence_and_charge_witness :
  exists r,
    mar_row (psm "A" 0 100 "SEQA" 2 (1 # 1000) "P1") master_AC
            (0%nat, ("MARPEP_3", [Some 180%Q])) = Ok r /\
    sequence r = "MARPEP" /\ charge r = 3 /\ concat r = "MARPEP_3".
Proof.
  apply (synthesized_row_recovers_sequence_and_charge
           (psm "A" 0 100 "SEQA" 2 (1 # 1000) "P1") master_AC 0
           "MARPEP" 3 [Some 180%Q]).
  - reflexivity.
  - vm_compute. discriminate.
  - vm_compute. tauto.
Defined.

(** The key of the sequence PEP_2 at charge 3 is read as PEP at charge 2. *)
Lemma key_parse_reads_first_two_fields_witness :
  concat_of "PEP_2" 3 = "PEP_2_3" /\
  exists r,
    mar_row (psm "A" 0 100 "SEQA" 2 (1 # 1000) "P1")
            [mkMaster "PEP_2_3" 1 0 0 0]
            (0%nat, ("PEP_2_3", [Some 180%Q])) = Ok r /\
    sequence r = "PEP" /\ charge r = 2 /\ concat r = "PEP_2_3".
Proof.
  split; [reflexivity|].
  apply (key_parse_reads_first_two_fields
           (psm "A" 0 100 "SEQA" 2 (1 # 1000) "P1")
           [mkMaster "PEP_2_3" 1 0 0 0] 0 "PEP" 2 "3" [Some 180%Q]).
  - reflexivity.
  - vm_compute. discriminate.
  - vm_compute. tauto.
Defined.

Lemma loaded_sample_is_selected_witness :
  exists st',
    read_all_project_psms read_small_project (project ["A"; "C"] [])
      = Ok st' /\
    get_current_sample_psms st' "C"
      = Ok (set_curr_sample st' (map (stamp "C") rows_C)).
Proof.
  eexists. split; [vm_compute; reflexivity|].
  apply (loaded_sample_is_selected read_small_project
           (project ["A"; "C"] []) _ "C" rows_C).
  - repeat constructor; simpl; intuition discriminate.
  - simpl. tauto.
  - reflexivity.
  - discriminate.
  - vm_compute. reflexivity.
Defined.

Lemma qualifying_rows_are_kept_witness :
  exists st3 st4,
    load_fraction stable_sort_values project_AC (1 # 100) false (1 # 4) "A" 0
      = Ok st3 /\
    filter_with_nn stable_sort_values st3 (1 # 100) false true true
      = Ok st4 /\
    In (set_evidence q_value_ev
          (set_pep_id (PepIndex 0) (psm "A" 0 100 "SEQA" 2 (1 # 1000) "P1")))
       (curr_frac_filtered_id_df st4).
Proof.
  eexists. eexists. split; [vm_compute; reflexivity|].
  match goal with
  | |- ?P /\ _ => assert (H : P) by (vm_compute; reflexivity)
  end.
  split; [exact H|].
  refine (proj1 (qualifying_rows_are_kept stable_sort_values
                   NearestNeighbour.model NearestNeighbour.fit
                   NearestNeighbour.predict example_soft_threshold_q _ _
                   (set_pep_id (PepIndex 0)
                      (psm "A" 0 100 "SEQA" 2 (1 # 1000) "P1"))
                   (set_pep_id (PepIndex 0)
                      (psm "A" 0 100 "SEQA" 2 (1 # 1000) "P1"))
                   (1 # 100) false true true H _ _) _).
  - vm_compute. reflexivity.
  - vm_compute. tauto.
  - vm_compute. reflexivity.
Defined.

Lemma synthesized_keys_witness :
  exists st3 st4,
    load_fraction stable_sort_values project_AC (1 # 100) false (1 # 4) "A" 0
      = Ok st3 /\
    filter_with_nn stable_sort_values st3 (1 # 100) false true true
      = Ok st4 /\
    ((exists r, In r (curr_frac_filtered_id_df st4) /\
                evidence r = match_across_runs_ev /\ concat r = "MARPEP_3")
     <->
     In "MARPEP_3" (map m_concat (candidates_at st3 0)) /\
     ~ In "MARPEP_3"
          (keys (filtered_at_mar example_soft_threshold_q st3 (1 # 100)
                                 false true 0)) /\
     exists peer other,
       In peer (map sample (master_id_df st3)) /\ peer <> "A" /\
       other_sample_df stable_sort_values st3 (1 # 100) false 0 peer
         = Ok other /\
       In "MARPEP_3" (keys other)).
Proof.
  eexists. eexists. split; [vm_compute; reflexivity|].
  split; [vm_compute; reflexivity|].
  apply (synthesized_keys stable_sort_values
           NearestNeighbour.model NearestNeighbour.fit
           NearestNeighbour.predict example_soft_threshold_q _ _
           (set_pep_id (PepIndex 0)
              (psm "A" 0 100 "SEQA" 2 (1 # 1000) "P1"))
           (set_evidence q_value_ev
              (set_pep_id (PepIndex 0)
                 (psm "A" 0 100 "SEQA" 2 (1 # 1000) "P1")))
           (1 # 100) false true "MARPEP_3").
  - vm_compute. reflexivity.
  - vm_compute. reflexivity.
  - vm_compute. reflexivity.
Defined.

Lemma mar_returns_when_the_regressor_does_witness :
  exists st1 st2 st3,
    make_master_match_list project_AC (1 # 100) false (1 # 4) = Ok st1 /\
    get_current_sample_psms st1 "A" = Ok st2 /\
    get_current_fraction_psms stable_sort_values st2 0 = Ok st3 /\
    exists st4,
      filter_with_nn stable_sort_values st3 (1 # 100) false true true
        = Ok st4.
Proof.
  do 3 eexists. split; [vm_compute; reflexivity|].
  split; [vm_compute; reflexivity|].
  match goal with
  | |- ?P /\ _ => assert (H : P) by (vm_compute; reflexivity)
  end.
  split; [exact H|].
  eapply (mar_returns_when_the_regressor_does stable_sort_values
            stable_sort_values_sorts NearestNeighbour.model
            NearestNeighbour.fit NearestNeighbour.predict
            example_soft_threshold_q project_AC _ _ _
            (1 # 100) false (1 # 4) "A" 0 (1 # 100) false true).
  - intros x Hx. vm_compute in Hx.
    repeat (destruct Hx as [<-|Hx]; [split; reflexivity|]).
    destruct Hx.
  - vm_compute. reflexivity.
  - vm_compute. reflexivity.
  - exact H.
  - vm_compute. discriminate.
  - intros peer Hp Hn. vm_compute in Hp.
    repeat (destruct Hp as [<-|Hp];
            [first [exfalso; apply Hn; reflexivity
                   |eexists; vm_compute; reflexivity]|]).
    destruct Hp.
Defined.
